(** * peds: persistent vector and map (Go), shallow embedding and properties

    The Go sources embedded here are the vector (Vector, VectorSlice), the
    map built on it (Map, privateItemBuckets) and the hash stub
    (genericHash).

    Memory is modelled explicitly.  A heap is a list of objects, a location
    is an index into it, allocation appends.  Every [make], composite
    literal and [&T{...}] of the source is an allocation; every indexed
    assignment [ret[k] = x] and every field assignment is a write to the
    heap.  A panic keeps the heap it was raised in.  *)

From Stdlib Require Import ZArith Lia String.
From stdpp Require Import base tactics option list.

Local Open Scope Z_scope.

(** ** Machine integers

    Go's [uint] and [int] are 64 bits wide on the platforms the library is
    built for.  They are modelled by [Z] with the wrap-around written out. *)

Definition wrap64 (x : Z) : Z := x mod 2 ^ 64.
Definition to_uint (x : Z) : Z := wrap64 x.
Definition to_int (x : Z) : Z := (x + 2 ^ 63) mod 2 ^ 64 - 2 ^ 63.
Definition uadd (a b : Z) : Z := wrap64 (a + b).
Definition usub (a b : Z) : Z := wrap64 (a - b).
Definition ushl (a n : Z) : Z := wrap64 (Z.shiftl a n).
Definition ushr (a n : Z) : Z := Z.shiftr a n.
Definition iadd (a b : Z) : Z := to_int (a + b).
Definition isub (a b : Z) : Z := to_int (a - b).
Definition imul (a b : Z) : Z := to_int (a * b).

Definition shiftSize : Z := 5.
Definition nodeSize : Z := 32.
Definition shiftBitMask : Z := 31.

Definition uintMin (a b : Z) : Z := if a <? b then a else b.

(** ** Panics and results *)

Inductive panic : Type :=
| IndexOutOfBounds                       (* panic("Index out of bounds") *)
| InvalidSliceIndexNegative (start : Z)  (* "Invalid slice index %d (index must be non-negative)" *)
| InvalidSliceIndexOrder (start stop : Z)(* "Invalid slice index: %d > %d" *)
| SliceBoundsOutOfRange (start stop len : Z)
                                         (* "Slice bounds out of range, start=%d, stop=%d, len=%d" *)
| RuntimeIndex                           (* runtime error: index out of range *)
| RuntimeTypeAssertion                   (* runtime error: interface conversion *)
| RuntimeDivideByZero                    (* runtime error: integer divide by zero *)
| IllTypedHeap                           (* model only: a location of the wrong kind *)
| OutOfFuel.                             (* model only: recursion bound reached *)

(** The panics the library raises itself on a bad argument. *)
Definition invalid_argument (p : panic) : bool :=
  match p with
  | IndexOutOfBounds | InvalidSliceIndexNegative _
  | InvalidSliceIndexOrder _ _ | SliceBoundsOutOfRange _ _ _ => true
  | _ => false
  end.

Inductive result (A : Type) : Type :=
| Ok (a : A)
| Panic (p : panic).
Arguments Ok {A} a.
Arguments Panic {A} p.

Definition is_panic {A} (r : result A) : bool :=
  match r with Ok _ => false | Panic _ => true end.

(** ** Heap objects *)

Abbreviation loc := nat.

(** [commonNode] is [interface{}]: nil, or a slice of elements (a leaf), or
    a slice of [commonNode] (an internal node).  A slice is identified with
    its backing array: every slice the vector keeps spans its whole array. *)
Inductive commonNode : Type :=
| CNil
| CLeaf (a : loc)
| CNode (a : loc).

Record Vector : Type := mkVector {
  tail : loc;
  root : commonNode;
  len : Z;
  shift : Z
}.

Record VectorSlice : Type := mkVectorSlice {
  vector : loc;
  start : Z;
  stop : Z
}.

Record Map : Type := mkMap {
  backingVector : loc;
  mlen : Z
}.

(** ** Two monads over a heap: readers (no allocation, no write) and
    commands.  A command that panics returns the heap it panicked in. *)

Section MONADS.

Context {H : Type}.

Definition R (A : Type) : Type := H -> result A.
Definition M (A : Type) : Type := H -> H * result A.

Definition rret {A} (a : A) : R A := fun _ => Ok a.
Definition rpanic {A} (p : panic) : R A := fun _ => Panic p.
Definition rbind {A B} (c : R A) (k : A -> R B) : R B :=
  fun h => match c h with Ok a => k a h | Panic p => Panic p end.
Definition of_result {A} (r : result A) : R A := fun _ => r.

Definition mret {A} (a : A) : M A := fun h => (h, Ok a).
Definition mpanic {A} (p : panic) : M A := fun h => (h, Panic p).
Definition mbind {A B} (c : M A) (k : A -> M B) : M B :=
  fun h => match c h with
           | (h', Ok a) => k a h'
           | (h', Panic p) => (h', Panic p)
           end.
Definition lift {A} (c : R A) : M A := fun h => (h, c h).

End MONADS.

Arguments R H A : clear implicits.
Arguments M H A : clear implicits.

Notation "x <~ c ;; k" := (rbind c (fun x => k))
  (at level 100, c at next level, right associativity).
Notation "x <- c ;; k" := (mbind c (fun x => k))
  (at level 100, c at next level, right associativity).
Notation "c ;;; k" := (mbind c (fun _ => k))
  (at level 100, right associativity).

Section VECTOR.

Context {T : Type}.
Variable zeroT : T.

Inductive obj : Type :=
| ArrT (xs : list T)             (* backing array of a []T *)
| ArrN (cs : list commonNode)    (* backing array of a []commonNode *)
| VecS (v : Vector)
| SliceS (s : VectorSlice)
| MapS (m : Map).

(** A heap is a list of objects; a location is an index into it. *)
Local Abbreviation heap := (list obj).
Local Abbreviation R := (R heap).
Local Abbreviation M := (M heap).

(** The package-level [emptyCommonNode = []commonNode{}] lives at location 0
    of every heap the program runs in. *)
Definition init_heap : heap := [ArrN []].
Definition emptyCommonNode : commonNode := CNode 0%nat.

(** *** Primitive heap operations *)

Definition alloc (o : obj) : M loc := fun h => (h ++ [o], Ok (length h)).

Definition load_arr (a : loc) : R (list T) := fun h =>
  match h !! a with Some (ArrT xs) => Ok xs | _ => Panic IllTypedHeap end.
Definition load_nodes (a : loc) : R (list commonNode) := fun h =>
  match h !! a with Some (ArrN cs) => Ok cs | _ => Panic IllTypedHeap end.
Definition load_vec (p : loc) : R Vector := fun h =>
  match h !! p with Some (VecS v) => Ok v | _ => Panic IllTypedHeap end.
Definition load_slice (p : loc) : R VectorSlice := fun h =>
  match h !! p with Some (SliceS s) => Ok s | _ => Panic IllTypedHeap end.
Definition load_map (p : loc) : R Map := fun h =>
  match h !! p with Some (MapS m) => Ok m | _ => Panic IllTypedHeap end.

Definition write (a : loc) (o : obj) : M unit := fun h =>
  match h !! a with
  | Some _ => (<[a := o]> h, Ok tt)
  | None => (h, Panic IllTypedHeap)
  end.

(** [xs[i]] with its bounds check; [i] is an unsigned index. *)
Definition index {A} (xs : list A) (i : Z) : result A :=
  match xs !! Z.to_nat i with
  | Some x => Ok x
  | None => Panic RuntimeIndex
  end.

(** [copy(dst, src)] on the contents: min(len dst, len src) elements. *)
Definition copy_list {A} (dst src : list A) : list A :=
  take (length dst) src ++ drop (length src) dst.

(** [copy(a, src)] where [a] is a []T. *)
Definition copy_arr (a : loc) (src : list T) : M unit :=
  dst <- lift (load_arr a) ;; write a (ArrT (copy_list dst src)).
Definition copy_nodes (a : loc) (src : list commonNode) : M unit :=
  dst <- lift (load_nodes a) ;; write a (ArrN (copy_list dst src)).

(** [a[i] = x] with its bounds check. *)
Definition set_arr (a : loc) (i : Z) (x : T) : M unit :=
  xs <- lift (load_arr a) ;;
  if i <? Z.of_nat (length xs) then write a (ArrT (<[Z.to_nat i := x]> xs))
  else mpanic RuntimeIndex.
Definition set_nodes (a : loc) (i : Z) (c : commonNode) : M unit :=
  cs <- lift (load_nodes a) ;;
  if i <? Z.of_nat (length cs) then write a (ArrN (<[Z.to_nat i := c]> cs))
  else mpanic RuntimeIndex.

(** Type assertions [n.([]commonNode)] and [n.([]T)]. *)
Definition assert_nodes (n : commonNode) : result loc :=
  match n with CNode a => Ok a | _ => Panic RuntimeTypeAssertion end.
Definition assert_leaf (n : commonNode) : result loc :=
  match n with CLeaf a => Ok a | _ => Panic RuntimeTypeAssertion end.

(** ** Vector *)

Definition tailOffset (v : Vector) : Z :=
  if len v <? nodeSize then 0
  else ushl (ushr (usub (len v) 1) shiftSize) shiftSize.

(** Recursion on [shift] and [level] goes down in steps of [shiftSize];
    [fuel_of level] bounds the number of steps for every level that is a
    multiple of [shiftSize]. *)
Definition fuel_of (level : Z) : nat := S (Z.to_nat level).

Fixpoint newPath (fuel : nat) (shift : Z) (node : commonNode) : M commonNode :=
  match fuel with
  | O => mpanic OutOfFuel
  | S f =>
    if shift =? 0 then mret node
    else
      a <- alloc (ArrN [node]) ;;
      newPath f (usub shift shiftSize) (CNode a)
  end.

Fixpoint pushTail (fuel : nat) (p : loc) (level : Z) (parent : commonNode)
    (tailNode : loc) : M commonNode :=
  match fuel with
  | O => mpanic OutOfFuel
  | S f =>
    v <- lift (load_vec p) ;;
    let subIdx := Z.land (ushr (usub (len v) 1) level) shiftBitMask in
    pa <- lift (of_result (assert_nodes parent)) ;;
    parentNode <- lift (load_nodes pa) ;;
    ret <- alloc (ArrN (replicate (Z.to_nat (uadd subIdx 1)) CNil)) ;;
    copy_nodes ret parentNode ;;;
    nodeToInsert <-
      (if level =? shiftSize then mret (CLeaf tailNode)
       else if subIdx <? Z.of_nat (length parentNode) then
         child <- lift (of_result (index parentNode subIdx)) ;;
         pushTail f p (usub level shiftSize) child tailNode
       else newPath (fuel_of level) (usub level shiftSize) (CLeaf tailNode)) ;;
    set_nodes ret subIdx nodeToInsert ;;;
    mret (CNode ret)
  end.

Definition pushLeafNode (p : loc) (node : loc) : M loc :=
  v <- lift (load_vec p) ;;
  if ushr (len v) shiftSize >? ushl 1 (shift v) then
    newNode <- newPath (fuel_of (shift v)) (shift v) (CLeaf node) ;;
    a <- alloc (ArrN [root v; newNode]) ;;
    alloc (VecS (mkVector (tail v) (CNode a) (len v) (uadd (shift v) shiftSize)))
  else
    newRoot <- pushTail (fuel_of (shift v)) p (shift v) (root v) node ;;
    alloc (VecS (mkVector (tail v) newRoot (len v) (shift v))).

(** The loop of [Append].  Every round consumes at least one item, so
    [length item] rounds are enough. *)
Fixpoint Append_loop (fuel : nat) (item : list T) (itemLen : Z)
    (insertOffset : Z) (result : loc) : M loc :=
  if insertOffset <? itemLen then
    match fuel with
    | O => mpanic OutOfFuel
    | S f =>
      r <- lift (load_vec result) ;;
      let tailLen := usub (len r) (tailOffset r) in
      let tailFree := usub nodeSize tailLen in
      st <- (if tailFree =? 0 then
               result' <- pushLeafNode result (tail r) ;;
               t <- alloc (ArrT []) ;;
               r' <- lift (load_vec result') ;;
               write result' (VecS (mkVector t (root r') (len r') (shift r'))) ;;;
               mret (result', nodeSize, 0)
             else mret (result, tailFree, tailLen)) ;;
      let '(result, tailFree, tailLen) := st in
      let batchLen := uintMin (usub itemLen insertOffset) tailFree in
      r <- lift (load_vec result) ;;
      ts <- lift (load_arr (tail r)) ;;
      newTail <- alloc (ArrT (ts ++ take (Z.to_nat batchLen)
                                      (drop (Z.to_nat insertOffset) item))) ;;
      result <- alloc (VecS (mkVector newTail (root r)
                               (uadd (len r) batchLen) (shift r))) ;;
      Append_loop f item itemLen (uadd insertOffset batchLen) result
    end
  else mret result.

Definition Append (p : loc) (item : list T) : M loc :=
  let itemLen := to_uint (Z.of_nat (length item)) in
  Append_loop (length item) item itemLen 0 p.

Definition NewVector (items : list T) : M loc :=
  t <- alloc (ArrT []) ;;
  v <- alloc (VecS (mkVector t emptyCommonNode 0 shiftSize)) ;;
  Append v items.

Definition Len (p : loc) : R Z :=
  v <~ load_vec p ;; rret (to_int (len v)).

Fixpoint sliceFor_loop (fuel : nat) (level : Z) (node : commonNode) (i : Z)
    : R commonNode :=
  match fuel with
  | O => rpanic OutOfFuel
  | S f =>
    if level >? 0 then
      a <~ of_result (assert_nodes node) ;;
      cs <~ load_nodes a ;;
      c <~ of_result (index cs (Z.land (ushr i level) shiftBitMask)) ;;
      sliceFor_loop f (usub level shiftSize) c i
    else rret node
  end.

Definition sliceFor (p : loc) (i : Z) : R loc :=
  v <~ load_vec p ;;
  if i >=? tailOffset v then rret (tail v)
  else
    node <~ sliceFor_loop (fuel_of (shift v)) (shift v) (root v) i ;;
    of_result (assert_leaf node).

Definition Get (p : loc) (i : Z) : R T :=
  v <~ load_vec p ;;
  if (i <? 0) || (to_uint i >=? len v) then rpanic IndexOutOfBounds
  else
    a <~ sliceFor p (to_uint i) ;;
    xs <~ load_arr a ;;
    of_result (index xs (Z.land i shiftBitMask)).

Fixpoint doAssoc (fuel : nat) (p : loc) (level : Z) (node : commonNode)
    (i : Z) (item : T) : M commonNode :=
  match fuel with
  | O => mpanic OutOfFuel
  | S f =>
    if level =? 0 then
      ret <- alloc (ArrT (replicate (Z.to_nat nodeSize) zeroT)) ;;
      a <- lift (of_result (assert_leaf node)) ;;
      src <- lift (load_arr a) ;;
      copy_arr ret src ;;;
      set_arr ret (Z.land i shiftBitMask) item ;;;
      mret (CLeaf ret)
    else
      ret <- alloc (ArrN (replicate (Z.to_nat nodeSize) CNil)) ;;
      a <- lift (of_result (assert_nodes node)) ;;
      src <- lift (load_nodes a) ;;
      copy_nodes ret src ;;;
      let subidx := Z.land (ushr i level) shiftBitMask in
      cs <- lift (load_nodes ret) ;;
      child <- lift (of_result (index cs subidx)) ;;
      c <- doAssoc f p (usub level shiftSize) child i item ;;
      set_nodes ret subidx c ;;;
      mret (CNode ret)
  end.

Definition Set_ (p : loc) (i : Z) (item : T) : M loc :=
  v <- lift (load_vec p) ;;
  if (i <? 0) || (to_uint i >=? len v) then mpanic IndexOutOfBounds
  else if to_uint i >=? tailOffset v then
    ts <- lift (load_arr (tail v)) ;;
    newTail <- alloc (ArrT (replicate (length ts) zeroT)) ;;
    copy_arr newTail ts ;;;
    set_arr newTail (Z.land i shiftBitMask) item ;;;
    alloc (VecS (mkVector newTail (root v) (len v) (shift v)))
  else
    r <- doAssoc (fuel_of (shift v)) p (shift v) (root v) (to_uint i) item ;;
    alloc (VecS (mkVector (tail v) r (len v) (shift v))).

(** The visitor of [Range] is a closure: it may keep state of its own
    between calls, which is threaded through as [S]. *)
Fixpoint Range_loop {S : Type} (fuel : nat) (p : loc) (f : S -> T -> bool * S)
    (i : Z) (currentNode : list T) (s : S) : R S :=
  match fuel with
  | O => rpanic OutOfFuel
  | S n =>
    v <~ load_vec p ;;
    if i <? len v then
      cur <~ (if Z.land i shiftBitMask =? 0 then
                a <~ sliceFor p i ;; load_arr a
              else rret currentNode) ;;
      x <~ of_result (index cur (Z.land i shiftBitMask)) ;;
      let '(continue, s') := f s x in
      if continue then Range_loop n p f (uadd i 1) cur s'
      else rret s'
    else rret s
  end.

Definition Range {S : Type} (p : loc) (f : S -> T -> bool * S) (s : S) : R S :=
  v <~ load_vec p ;;
  Range_loop (fuel_of (len v)) p f 0 [] s.

Definition assertSliceOk (start stop len : Z) : result unit :=
  if start <? 0 then Panic (InvalidSliceIndexNegative start)
  else if start >? stop then Panic (InvalidSliceIndexOrder start stop)
  else if stop >? len then Panic (SliceBoundsOutOfRange start stop len)
  else Ok tt.

Definition Slice (p : loc) (start stop : Z) : M loc :=
  l <- lift (Len p) ;;
  lift (of_result (assertSliceOk start stop l)) ;;;
  alloc (SliceS (mkVectorSlice p start stop)).

End VECTOR.

(** ** Hash (hash.go) *)

Definition nilinterhash {A : Type} (p : A) (h : Z) : Z := 0.

(** [uint32(nilinterhash(unsafe.Pointer(&x), 0))] *)
Definition genericHash {A : Type} (x : A) : Z := nilinterhash x 0 mod 2 ^ 32.

(** ** Map *)

(** [float64(n) / initialMapLoadFactor] truncated by [int(...)]: the load
    factors are the constants 8.0, 2.0 and (8.0 + 2.0) / 2 = 5.0, and for
    the counts a process can hold (below 2^50) the float quotient truncates
    to the integer quotient. *)
Definition upperMapLoadFactor : Z := 8.
Definition lowerMapLoadFactor : Z := 2.
Definition initialMapLoadFactor : Z := 5.

Section MAP.

Context {K V : Type} `{EqDecision K}.
Variable zeroV : V.

Record MapItem : Type := mkMapItem { Key : K; Value : V }.

(** [privateItemBucket] is a slice of items; [None] is the nil slice.
    A bucket array is written only while its builder owns it (AddItem), so
    buckets are kept as values. *)
Local Abbreviation privateItemBucket := (option (list MapItem)).

Record privateItemBuckets : Type := mkBuckets {
  buckets : list privateItemBucket;
  length_ : Z
}.

Local Abbreviation heap := (list (@obj privateItemBucket)).
Local Abbreviation R := (R heap).
Local Abbreviation M := (M heap).

Definition newPrivateItemBuckets (itemCount : Z) : privateItemBuckets :=
  let size := iadd (Z.quot itemCount initialMapLoadFactor) 1 in
  mkBuckets (replicate (Z.to_nat size) None) 0.

(** Position of the first item of the bucket with the given key. *)
Fixpoint keyIndex (key : K) (bucket : list MapItem) : option nat :=
  match bucket with
  | [] => None
  | bItem :: rest =>
    if bool_decide (key = Key bItem) then Some O
    else option_map S (keyIndex key rest)
  end.

(** [uint64(hash) % uint64(n)], then [int(...)]. *)
Definition hashPos {A : Type} (key : A) (n : Z) : result Z :=
  if to_uint n =? 0 then Panic RuntimeDivideByZero
  else Ok (to_int (genericHash key mod to_uint n)).

Definition AddItem (b : privateItemBuckets) (item : MapItem)
    : result privateItemBuckets :=
  match hashPos (Key item) (Z.of_nat (length (buckets b))) with
  | Panic e => Panic e
  | Ok ix =>
    match index (buckets b) ix with
    | Panic e => Panic e
    | Ok (Some bucket) =>
      match keyIndex (Key item) bucket with
      | Some keyIx =>
        Ok (mkBuckets (<[Z.to_nat ix := Some (<[keyIx := item]> bucket)]> (buckets b))
                      (length_ b))
      | None =>
        Ok (mkBuckets (<[Z.to_nat ix := Some (bucket ++ [mkMapItem (Key item) (Value item)])]>
                         (buckets b))
                      (iadd (length_ b) 1))
      end
    | Ok None =>
      Ok (mkBuckets (<[Z.to_nat ix := Some [item]]> (buckets b))
                    (iadd (length_ b) 1))
    end
  end.

Fixpoint AddItems (b : privateItemBuckets) (items : list MapItem)
    : result privateItemBuckets :=
  match items with
  | [] => Ok b
  | item :: rest =>
    match AddItem b item with
    | Ok b' => AddItems b' rest
    | Panic e => Panic e
    end
  end.

Definition bucketItems (bucket : privateItemBucket) : list MapItem :=
  match bucket with Some items => items | None => [] end.

(** The visitor of [AddItemsFromMap]: adds every item of the bucket and
    asks for the next one. *)
Definition addBucket (s : result privateItemBuckets) (bucket : privateItemBucket)
    : bool * result privateItemBuckets :=
  match s with
  | Ok b =>
    match AddItems b (bucketItems bucket) with
    | Ok b' => (true, Ok b')
    | Panic e => (false, Panic e)
    end
  | Panic e => (false, Panic e)
  end.

Definition AddItemsFromMap (b : privateItemBuckets) (m : loc)
    : R privateItemBuckets :=
  mp <~ load_map m ;;
  r <~ Range (backingVector mp) addBucket (Ok b) ;;
  of_result r.

Definition newMap (items : list MapItem) : M loc :=
  let buckets0 := newPrivateItemBuckets (Z.of_nat (length items)) in
  b <- lift (of_result (AddItems buckets0 items)) ;;
  v <- NewVector (buckets b) ;;
  alloc (MapS (mkMap v (length_ b))).

Definition NewMap (items : list MapItem) : M loc := newMap items.

(** The native map is given as its entries in the order the [range] over
    it yields them. *)
Definition NewMapFromNativeMap (m : list (K * V)) : M loc :=
  let buckets0 := newPrivateItemBuckets (Z.of_nat (length m)) in
  b <- lift (of_result (AddItems buckets0 (map (fun kv => mkMapItem kv.1 kv.2) m))) ;;
  v <- NewVector (buckets b) ;;
  alloc (MapS (mkMap v (length_ b))).

Definition MapLen (m : loc) : R Z :=
  mp <~ load_map m ;; rret (mlen mp).

Definition pos (m : loc) (key : K) : R Z :=
  mp <~ load_map m ;;
  n <~ Len (backingVector mp) ;;
  of_result (hashPos key n).

Fixpoint loadBucket (key : K) (bucket : list MapItem) : option V :=
  match bucket with
  | [] => None
  | item :: rest =>
    if bool_decide (Key item = key) then Some (Value item)
    else loadBucket key rest
  end.

Definition Load (m : loc) (key : K) : R (V * bool) :=
  mp <~ load_map m ;;
  ps <~ pos m key ;;
  bucket <~ Get (backingVector mp) ps ;;
  match bucket with
  | Some items =>
    match loadBucket key items with
    | Some v => rret (v, true)
    | None => rret (zeroV, false)
    end
  | None => rret (zeroV, false)
  end.

Definition Store (m : loc) (key : K) (value : V) : M loc :=
  mp <- lift (load_map m) ;;
  mlen_ <- lift (MapLen m) ;;
  vlen <- lift (Len (backingVector mp)) ;;
  if mlen_ >=? imul vlen upperMapLoadFactor then
    let buckets0 := newPrivateItemBuckets (iadd mlen_ 1) in
    b1 <- lift (AddItemsFromMap buckets0 m) ;;
    b2 <- lift (of_result (AddItem b1 (mkMapItem key value))) ;;
    v <- NewVector (buckets b2) ;;
    alloc (MapS (mkMap v (length_ b2)))
  else
    ps <- lift (pos m key) ;;
    bucket <- lift (Get (backingVector mp) ps) ;;
    match bucket with
    | Some items =>
      match keyIndex key items with
      | Some ix =>
        (* make + copy give a fresh array holding the bucket's items *)
        let newBucket := <[ix := mkMapItem key value]> items in
        v <- Set_ None (backingVector mp) ps (Some newBucket) ;;
        alloc (MapS (mkMap v (mlen mp)))
      | None =>
        let newBucket := items ++ [mkMapItem key value] in
        v <- Set_ None (backingVector mp) ps (Some newBucket) ;;
        alloc (MapS (mkMap v (iadd (mlen mp) 1)))
      end
    | None =>
      let newBucket := [mkMapItem key value] in
      v <- Set_ None (backingVector mp) ps (Some newBucket) ;;
      alloc (MapS (mkMap v (iadd (mlen mp) 1)))
    end.

Definition Delete (m : loc) (key : K) : M loc :=
  mp <- lift (load_map m) ;;
  ps <- lift (pos m key) ;;
  bucket <- lift (Get (backingVector mp) ps) ;;
  match bucket with
  | Some items =>
    let kept := filter (fun item => Key item <> key) items in
    let removedItemCount := isub (Z.of_nat (length items)) (Z.of_nat (length kept)) in
    if removedItemCount =? 0 then mret m
    else
      let newBucket := if Z.of_nat (length kept) =? 0 then None else Some kept in
      v <- Set_ None (backingVector mp) ps newBucket ;;
      newMap_ <- alloc (MapS (mkMap v (isub (mlen mp) removedItemCount))) ;;
      vlen <- lift (Len v) ;;
      nlen <- lift (MapLen newMap_) ;;
      if (vlen >? 1) && (nlen <? imul vlen lowerMapLoadFactor) then
        let buckets0 := newPrivateItemBuckets nlen in
        b <- lift (AddItemsFromMap buckets0 newMap_) ;;
        v' <- NewVector (buckets b) ;;
        alloc (MapS (mkMap v' (length_ b)))
      else mret newMap_
  | None => mret m
  end.

(** The visitor of [Map.Range] walks one bucket and stops the outer range
    as soon as [f] asks to stop. *)
Fixpoint rangeBucket {S : Type} (f : S -> K -> V -> bool * S) (s : S)
    (bucket : list MapItem) : bool * S :=
  match bucket with
  | [] => (true, s)
  | item :: rest =>
    let '(continue, s') := f s (Key item) (Value item) in
    if continue then rangeBucket f s' rest else (false, s')
  end.

Definition MapRange {S : Type} (m : loc) (f : S -> K -> V -> bool * S) (s : S) : R S :=
  mp <~ load_map m ;;
  Range (backingVector mp) (fun s bucket => rangeBucket f s (bucketItems bucket)) s.

End MAP.

(** * Properties *)

(** ** Machine-integer facts *)

Lemma wrap64_small x : 0 <= x < 2 ^ 64 -> wrap64 x = x.
Proof. intros H. unfold wrap64. apply Z.mod_small. exact H. Qed.

Lemma to_int_small x : - 2 ^ 63 <= x < 2 ^ 63 -> to_int x = x.
Proof. intros H. unfold to_int. rewrite Z.mod_small; lia. Qed.

Lemma to_uint_small x : 0 <= x < 2 ^ 64 -> to_uint x = x.
Proof. apply wrap64_small. Qed.

Lemma uadd_small a b : 0 <= a + b < 2 ^ 64 -> uadd a b = a + b.
Proof. apply wrap64_small. Qed.

Lemma usub_small a b : 0 <= a - b < 2 ^ 64 -> usub a b = a - b.
Proof. apply wrap64_small. Qed.

Lemma ushr_div a n : 0 <= n -> ushr a n = a / 2 ^ n.
Proof. intros. unfold ushr. apply Z.shiftr_div_pow2. assumption. Qed.

Lemma land_mask a : 0 <= a -> Z.land a shiftBitMask = a mod 32.
Proof. intros. unfold shiftBitMask. change 31 with (Z.ones 5). rewrite Z.land_ones by lia. reflexivity. Qed.

Lemma geb_false a b : a < b -> (a >=? b) = false.
Proof. intros. rewrite Z.geb_leb. apply Z.leb_gt. assumption. Qed.

Lemma geb_true a b : b <= a -> (a >=? b) = true.
Proof. intros. rewrite Z.geb_leb. apply Z.leb_le. assumption. Qed.

Lemma gtb_false a b : a <= b -> (a >? b) = false.
Proof. intros. rewrite Z.gtb_ltb. apply Z.ltb_ge. assumption. Qed.

Lemma gtb_true a b : b < a -> (a >? b) = true.
Proof. intros. rewrite Z.gtb_ltb. apply Z.ltb_lt. assumption. Qed.

Lemma ltb_false a b : b <= a -> (a <? b) = false.
Proof. intros. apply Z.ltb_ge. assumption. Qed.

Lemma ltb_true a b : a < b -> (a <? b) = true.
Proof. intros. apply Z.ltb_lt. assumption. Qed.

Section FRAME.

Context {T : Type}.
Variable zeroT : T.

Abbreviation heap := (list (@obj T)).
Abbreviation M := (M heap).
Abbreviation R := (R heap).

(** ** Frame: commands only extend the heap they start from

    [frames h0 c P]: run from any heap that extends [h0], the command [c]
    ends (normally or by a panic) in a heap that still extends [h0], and a
    returned value satisfies [P]. *)

Definition frames {A} (h0 : heap) (c : M A) (P : A -> Prop) : Prop :=
  forall h, h0 `prefix_of` h ->
    h0 `prefix_of` (c h).1 /\ forall a, (c h).2 = Ok a -> P a.

Definition fresh (h0 : heap) (a : loc) : Prop := (length h0 <= a)%nat.

Lemma frames_weaken {A} h0 (c : M A) (P Q : A -> Prop) :
  frames h0 c P -> (forall a, P a -> Q a) -> frames h0 c Q.
Proof. intros Hc HPQ h Hh. destruct (Hc h Hh) as [H1 H2]. split; [exact H1|]. intros a Ha. eauto. Qed.

Lemma frames_ret {A} h0 (a : A) (P : A -> Prop) : P a -> frames h0 (mret a) P.
Proof. intros HP h Hh. split; [exact Hh|]. simpl. intros a' [= <-]. exact HP. Qed.

Lemma frames_panic {A} h0 p (P : A -> Prop) : frames h0 (mpanic p) P.
Proof. intros h Hh. split; [exact Hh|]. simpl. intros a' [=]. Qed.

Lemma frames_lift {A} h0 (c : R A) : frames h0 (lift c) (fun _ => True).
Proof. intros h Hh. split; [exact Hh|]. done. Qed.

Lemma frames_alloc h0 o : frames h0 (alloc o) (fresh h0).
Proof.
  intros h Hh. simpl. split.
  - etrans; [exact Hh|]. by apply prefix_app_r.
  - intros a [= <-]. unfold fresh. by apply prefix_length.
Qed.

Lemma prefix_insert_fresh (h0 h : heap) a o :
  h0 `prefix_of` h -> fresh h0 a -> h0 `prefix_of` <[a := o]> h.
Proof.
  intros [k ->] Ha. unfold fresh in Ha.
  rewrite insert_app_r_alt by exact Ha. by apply prefix_app_r.
Qed.

Lemma frames_write h0 a o : fresh h0 a -> frames h0 (write a o) (fun _ => True).
Proof.
  intros Ha h Hh. unfold write. destruct (h !! a); simpl.
  - split; [by apply prefix_insert_fresh|done].
  - split; [exact Hh|done].
Qed.

Lemma frames_bind {A B} h0 (c : M A) (k : A -> M B) (P : A -> Prop) (Q : B -> Prop) :
  frames h0 c P -> (forall a, P a -> frames h0 (k a) Q) ->
  frames h0 (mbind c k) Q.
Proof.
  intros Hc Hk h Hh. unfold mbind.
  destruct (Hc h Hh) as [H1 H2].
  destruct (c h) as [h' [a|p]]; simpl in *.
  - apply Hk; [by apply H2|exact H1].
  - split; [exact H1|]. intros a [=].
Qed.

Ltac frames_step :=
  match goal with
  | |- frames _ (mret _) _ => apply frames_ret; try exact I
  | |- frames _ (mpanic _) _ => apply frames_panic
  | |- frames _ (mbind (lift _) _) _ =>
      eapply frames_bind; [apply frames_lift | intros ? _]
  | |- frames _ (mbind (alloc _) _) _ =>
      eapply frames_bind; [apply frames_alloc | intros ? ?]
  | |- frames _ (mbind (write _ _) _) _ =>
      eapply frames_bind; [apply frames_write; assumption | intros ? _]
  | |- frames _ (write _ _) _ => apply frames_write; assumption
  | |- frames _ (if ?b then _ else _) _ => destruct b
  end.

Lemma frames_copy_arr h0 a src :
  fresh h0 a -> frames h0 (copy_arr a src) (fun _ => True).
Proof. intros Ha. unfold copy_arr. repeat frames_step. Qed.

Lemma frames_copy_nodes h0 a src :
  fresh h0 a -> frames h0 (copy_nodes a src) (fun _ => True).
Proof. intros Ha. unfold copy_nodes. repeat frames_step. Qed.

Lemma frames_set_arr h0 a i x :
  fresh h0 a -> frames h0 (set_arr a i x) (fun _ => True).
Proof. intros Ha. unfold set_arr. repeat frames_step. Qed.

Lemma frames_set_nodes h0 a i c :
  fresh h0 a -> frames h0 (set_nodes a i c) (fun _ => True).
Proof. intros Ha. unfold set_nodes. repeat frames_step. Qed.

Ltac frames_auto :=
  repeat first
    [ frames_step
    | eapply frames_bind; [apply frames_copy_arr; assumption | intros ? _]
    | eapply frames_bind; [apply frames_copy_nodes; assumption | intros ? _]
    | eapply frames_bind; [apply frames_set_arr; assumption | intros ? _]
    | eapply frames_bind; [apply frames_set_nodes; assumption | intros ? _] ].

Lemma frames_newPath h0 fuel shift node :
  frames h0 (newPath fuel shift node) (fun _ => True).
Proof.
  revert shift node. induction fuel as [|f IH]; intros shift node; simpl.
  - apply frames_panic.
  - frames_auto. apply IH.
Qed.

Lemma frames_pushTail h0 fuel p level parent tailNode :
  frames h0 (pushTail fuel p level parent tailNode) (fun _ => True).
Proof.
  revert level parent. induction fuel as [|f IH]; intros level parent; simpl.
  - apply frames_panic.
  - frames_auto.
    eapply frames_bind with (P := fun _ => True); [|intros c _; frames_auto].
    frames_auto; [apply IH | apply frames_newPath].
Qed.

Lemma frames_pushLeafNode h0 p node :
  frames h0 (pushLeafNode p node) (fresh h0).
Proof.
  unfold pushLeafNode. frames_auto.
  - eapply frames_bind; [apply frames_newPath|intros ? _].
    frames_auto. apply frames_alloc.
  - eapply frames_bind; [apply frames_pushTail|intros ? _].
    apply frames_alloc.
Qed.

Lemma frames_doAssoc h0 fuel p level node i item :
  frames h0 (doAssoc zeroT fuel p level node i item) (fun _ => True).
Proof.
  revert level node. induction fuel as [|f IH]; intros level node; simpl.
  - apply frames_panic.
  - frames_auto.
    eapply frames_bind; [apply IH|intros ? _]. frames_auto.
Qed.

Lemma frames_Append_loop h0 fuel item itemLen off p :
  frames h0 (Append_loop fuel item itemLen off p) (fun _ => True).
Proof.
  revert off p. induction fuel as [|f IH]; intros off p; simpl.
  - frames_auto.
  - frames_auto.
    eapply frames_bind with (P := fun _ => True).
    + frames_auto.
      eapply frames_bind; [apply frames_pushLeafNode|intros ? ?].
      frames_auto.
    + intros [[r' tf] tl] _. frames_auto. apply IH.
Qed.

(** [Set] and [Append] leave every location of the heap they start in as
    it was, whether they return or panic. *)
Lemma Set_frame (h : heap) p i x : h `prefix_of` (Set_ zeroT p i x h).1.
Proof.
  assert (frames h (Set_ zeroT p i x) (fun _ => True)) as H.
  { unfold Set_. frames_auto.
    - apply frames_weaken with (P := fresh h); [apply frames_alloc|done].
    - eapply frames_bind; [apply frames_doAssoc|intros ? _].
      apply frames_weaken with (P := fresh h); [apply frames_alloc|done]. }
  by apply H.
Qed.

Lemma Append_frame (h : heap) p items : h `prefix_of` (Append p items h).1.
Proof.
  assert (frames h (Append p items) (fun _ => True)) as H
    by apply frames_Append_loop.
  by apply H.
Qed.

End FRAME.

(** ** Arithmetic of the trie: capacities and child indices *)

(** Number of elements below a full node of depth [d] (a leaf has depth 0). *)
Definition cap (d : nat) : Z := 32 ^ (Z.of_nat d + 1).

Lemma cap_0 : cap 0 = 32.
Proof. reflexivity. Qed.

Lemma cap_S d : cap (S d) = 32 * cap d.
Proof.
  unfold cap. rewrite Nat2Z.inj_succ.
  replace (Z.succ (Z.of_nat d) + 1) with (Z.succ (Z.of_nat d + 1)) by lia.
  rewrite Z.pow_succ_r by lia. reflexivity.
Qed.

Lemma cap_pos d : 0 < cap d.
Proof. unfold cap. apply Z.pow_pos_nonneg; lia. Qed.

Lemma cap_ge_32 d : 32 <= cap d.
Proof. induction d as [|d IH]; [rewrite cap_0; lia|rewrite cap_S; lia]. Qed.

Lemma cap_pow2 d : cap d = 2 ^ (5 * Z.of_nat (S d)).
Proof.
  unfold cap. change 32 with (2 ^ 5). rewrite <- Z.pow_mul_r by lia.
  f_equal. lia.
Qed.

Lemma cap_divide_32 d : (32 | cap d).
Proof.
  induction d as [|d IH]; [rewrite cap_0; apply Z.divide_refl|].
  rewrite cap_S. apply Z.divide_mul_r. exact IH.
Qed.

Lemma cap_mono d e : (d <= e)%nat -> cap d <= cap e.
Proof.
  induction 1 as [|e _ IH]; [lia|]. rewrite cap_S. pose proof (cap_pos e). lia.
Qed.

Lemma cap_bound d : cap d < 2 ^ 63 -> (d <= 11)%nat.
Proof.
  intros H. destruct (decide (d <= 11)%nat) as [|Hn]; [assumption|exfalso].
  assert (cap 12 <= cap d) by (apply cap_mono; lia).
  assert (cap 12 = 2 ^ 65) by reflexivity. lia.
Qed.

Lemma shift_index d i :
  0 <= i -> Z.land (ushr i (5 * Z.of_nat (S d))) shiftBitMask = (i / cap d) mod 32.
Proof.
  intros Hi. rewrite ushr_div by lia. rewrite <- cap_pow2.
  apply land_mask. apply Z.div_pos; [exact Hi|apply cap_pos].
Qed.

(** The child of a node of depth [S d] at base [b] that holds index [i]. *)
Lemma child_range b i d :
  (cap (S d) | b) -> b <= i < b + cap (S d) ->
  let k := (i / cap d) mod 32 in
  0 <= k < 32 /\ b + k * cap d <= i < b + (k + 1) * cap d /\
  (cap d | b + k * cap d).
Proof.
  intros [q Hq] Hi. pose proof (cap_pos d) as HC. rewrite cap_S in *.
  set (C := cap d) in *.
  assert (i / C = (i - b) / C + q * 32) as Hdiv.
  { replace i with ((i - b) + (q * 32) * C) at 1 by lia.
    apply Z.div_add. lia. }
  assert (0 <= (i - b) / C < 32) as Hr.
  { split; [apply Z.div_pos; lia|]. apply Z.div_lt_upper_bound; lia. }
  assert ((i / C) mod 32 = (i - b) / C) as Hk.
  { rewrite Hdiv, Z.mod_add by lia. apply Z.mod_small. exact Hr. }
  cbv zeta. rewrite Hk.
  pose proof (Z.div_mod (i - b) C ltac:(lia)) as Hdm.
  pose proof (Z.mod_pos_bound (i - b) C ltac:(lia)) as Hmb.
  repeat split; try lia.
  exists (q * 32 + (i - b) / C). lia.
Qed.

(** [tailOffset] without wrap-around. *)
Lemma tailOffset_val v :
  0 <= len v < 2 ^ 63 ->
  tailOffset v = if len v <? 32 then 0 else (len v - 1) / 32 * 32.
Proof.
  intros Hl. unfold tailOffset, nodeSize, shiftSize.
  destruct (len v <? 32) eqn:E; [reflexivity|]. apply Z.ltb_ge in E.
  rewrite usub_small by lia. rewrite ushr_div by lia.
  unfold ushl. rewrite Z.shiftl_mul_pow2 by lia. change (2 ^ 5) with 32.
  apply wrap64_small.
  pose proof (Z.mul_div_le (len v - 1) 32 ltac:(lia)).
  assert (0 <= (len v - 1) / 32) by (apply Z.div_pos; lia). lia.
Qed.

Lemma tailOffset_props v :
  0 <= len v < 2 ^ 63 ->
  let N := tailOffset v in
  (32 | N) /\ 0 <= N <= len v /\ len v - N <= 32 /\ (0 < len v -> N < len v).
Proof.
  intros Hl. cbv zeta. rewrite tailOffset_val by exact Hl.
  destruct (len v <? 32) eqn:E.
  - apply Z.ltb_lt in E. repeat split; try lia. apply Z.divide_0_r.
  - apply Z.ltb_ge in E.
    pose proof (Z.div_mod (len v - 1) 32 ltac:(lia)) as Hdm.
    pose proof (Z.mod_pos_bound (len v - 1) 32 ltac:(lia)) as Hmb.
    repeat split; try lia. exists ((len v - 1) / 32). lia.
Qed.

Section VECTOR_SPEC.

Context {T : Type}.
Variable zeroT : T.

Abbreviation heap := (list (@obj T)).
Abbreviation M := (M heap).
Abbreviation R := (R heap).

(** ** Representation invariant

    [node_ok strict F h xs N d b n]: in heap [h], the node [n] of depth [d]
    stores the elements [xs[b .. min (b + cap d) N)] of the sequence [xs],
    where [N] is the number of elements held by the trie, and every array
    of the subtree lies at a location in [F].  A slot past the last child
    is absent when [strict] holds; otherwise it may also be present and nil
    (as [doAssoc] leaves it). *)
Fixpoint node_ok (strict : bool) (F : loc -> Prop) (h : heap) (xs : list T)
    (N : Z) (d : nat) (b : Z) (n : commonNode) : Prop :=
  match d with
  | O =>
    exists a ys, n = CLeaf a /\ F a /\ h !! a = Some (ArrT ys) /\
      length ys = 32%nat /\
      forall k, 0 <= k < 32 -> ys !! Z.to_nat k = xs !! Z.to_nat (b + k)
  | S d' =>
    exists a cs, n = CNode a /\ F a /\ h !! a = Some (ArrN cs) /\
      (length cs <= 32)%nat /\
      forall k, 0 <= k < 32 ->
        (b + k * cap d' < N ->
           exists c, cs !! Z.to_nat k = Some c /\
                     node_ok strict F h xs N d' (b + k * cap d') c) /\
        (N <= b + k * cap d' ->
           cs !! Z.to_nat k = None \/
           (strict = false /\ cs !! Z.to_nat k = Some CNil))
  end.

Definition anywhere : loc -> Prop := fun _ => True.

(** [Vec strict h p xs]: in heap [h], the handle [p] is a vector holding
    the sequence [xs].  The trie has the least height that fits. *)
Definition Vec (strict : bool) (h : heap) (p : loc) (xs : list T) : Prop :=
  exists v ts d,
    h !! p = Some (VecS v) /\
    len v = Z.of_nat (length xs) /\ len v < 2 ^ 63 /\
    shift v = 5 * Z.of_nat d /\ (1 <= d)%nat /\
    tailOffset v <= cap d /\ (d = 1%nat \/ cap (d - 1) < tailOffset v) /\
    h !! tail v = Some (ArrT ts) /\
    ts = drop (Z.to_nat (tailOffset v)) xs /\
    node_ok strict anywhere h xs (tailOffset v) d 0 (root v).

(** A heap in which the package has been initialised. *)
Definition heap_ok (h : heap) : Prop := h !! 0%nat = Some (ArrN []).

(** *** Weakest preconditions for commands that return *)

Definition wp {A} (c : M A) (h : heap) (Q : A -> heap -> Prop) : Prop :=
  match c h with
  | (h', Ok a) => Q a h'
  | (_, Panic _) => False
  end.

Lemma wp_ret {A} (a : A) h (Q : A -> heap -> Prop) : Q a h -> wp (mret a) h Q.
Proof. done. Qed.

Lemma wp_bind {A B} (c : M A) (k : A -> M B) h (Q : B -> heap -> Prop) :
  wp c h (fun a h' => wp (k a) h' Q) -> wp (mbind c k) h Q.
Proof. unfold wp, mbind. destruct (c h) as [h' [a|e]]; done. Qed.

Lemma wp_mono {A} (c : M A) h (Q Q' : A -> heap -> Prop) :
  wp c h Q -> (forall a h', Q a h' -> Q' a h') -> wp c h Q'.
Proof. unfold wp. destruct (c h) as [h' [a|e]]; [eauto|done]. Qed.

Lemma wp_lift {A} (c : R A) h a (Q : A -> heap -> Prop) :
  c h = Ok a -> Q a h -> wp (lift c) h Q.
Proof. unfold wp, lift. intros ->. done. Qed.

Lemma wp_alloc o h (Q : loc -> heap -> Prop) :
  Q (length h) (h ++ [o]) -> wp (alloc o) h Q.
Proof. done. Qed.

Lemma wp_write a o o' h (Q : unit -> heap -> Prop) :
  h !! a = Some o' -> Q tt (<[a := o]> h) -> wp (write a o) h Q.
Proof. unfold wp, write. intros ->. done. Qed.

Lemma wp_inv {A} (c : M A) h (Q : A -> heap -> Prop) :
  wp c h Q -> exists a h', c h = (h', Ok a) /\ Q a h'.
Proof. unfold wp. destruct (c h) as [h' [a|e]]; [eauto|done]. Qed.

Lemma wp_intro {A} (c : M A) h h' a (Q : A -> heap -> Prop) :
  c h = (h', Ok a) -> Q a h' -> wp c h Q.
Proof. unfold wp. intros ->. done. Qed.

Lemma rbind_ok {A B} (c : R A) (k : A -> R B) h a :
  c h = Ok a -> rbind c k h = k a h.
Proof. unfold rbind. intros ->. done. Qed.

(** *** Heap facts *)

Lemma lookup_alloc_new (h : heap) o : (h ++ [o]) !! length h = Some o.
Proof. rewrite lookup_app_r by lia. by rewrite Nat.sub_diag. Qed.

Lemma lookup_alloc_old (h : heap) o a x :
  h !! a = Some x -> (h ++ [o]) !! a = Some x.
Proof. apply lookup_app_l_Some. Qed.

Lemma lookup_ext (h h' : heap) a x :
  h `prefix_of` h' -> h !! a = Some x -> h' !! a = Some x.
Proof. intros Hp Hx. by eapply prefix_lookup_Some. Qed.

Lemma prefix_alloc (h0 h : heap) o : h0 `prefix_of` h -> h0 `prefix_of` h ++ [o].
Proof. intros. by apply prefix_app_r. Qed.

Lemma prefix_write (h0 h : heap) a o :
  h0 `prefix_of` h -> (length h0 <= a)%nat -> h0 `prefix_of` <[a := o]> h.
Proof. intros [k ->] Ha. rewrite insert_app_r_alt by exact Ha. by apply prefix_app_r. Qed.

(** *** The invariant under change of heap, footprint and sequence *)

Lemma node_ok_agree s (F : loc -> Prop) h h' xs N d :
  (forall a, F a -> h' !! a = h !! a) ->
  forall b n, node_ok s F h xs N d b n -> node_ok s F h' xs N d b n.
Proof.
  intros Hp. induction d as [|d IH]; intros b n; simpl.
  - intros (a & ys & -> & HF & Ha & Hl & Hk). exists a, ys.
    split_and!; try done. by rewrite Hp.
  - intros (a & cs & -> & HF & Ha & Hl & Hk). exists a, cs.
    split_and!; try done; [by rewrite Hp|].
    intros k Hk0. destruct (Hk k Hk0) as [H1 H2]. split; [|exact H2].
    intros Hlt. destruct (H1 Hlt) as (c & Hc & Hn). eauto.
Qed.

Lemma node_ok_footprint s (F G : loc -> Prop) h xs N d :
  (forall a, F a -> (a < length h)%nat -> G a) ->
  forall b n, node_ok s F h xs N d b n -> node_ok s G h xs N d b n.
Proof.
  intros HFG. induction d as [|d IH]; intros b n; simpl.
  - intros (a & ys & -> & HF & Ha & Hl & Hk). exists a, ys.
    split_and!; try done. apply HFG; [done|by eapply lookup_lt_Some].
  - intros (a & cs & -> & HF & Ha & Hl & Hk). exists a, cs.
    split_and!; try done; [apply HFG; [done|by eapply lookup_lt_Some]|].
    intros k Hk0. destruct (Hk k Hk0) as [H1 H2]. split; [|exact H2].
    intros Hlt. destruct (H1 Hlt) as (c & Hc & Hn). eauto.
Qed.

Lemma node_ok_heap_mono s F h h' xs N d b n :
  h `prefix_of` h' -> node_ok s F h xs N d b n -> node_ok s F h' xs N d b n.
Proof.
  intros Hp Hn.
  apply node_ok_footprint with (F := fun a => F a /\ (a < length h)%nat); [tauto|].
  apply node_ok_agree with (h := h).
  - intros a [_ Ha]. destruct (lookup_lt_is_Some_2 h a Ha) as [o Ho].
    rewrite Ho. by eapply prefix_lookup_Some.
  - revert Hn. apply node_ok_footprint. tauto.
Qed.

Lemma node_ok_relax (s s' : bool) F h xs N d :
  (s' = true -> s = true) ->
  forall b n, node_ok s F h xs N d b n -> node_ok s' F h xs N d b n.
Proof.
  intros Hs. induction d as [|d IH]; intros b n; simpl.
  - done.
  - intros (a & cs & -> & HF & Ha & Hl & Hk). exists a, cs. split_and!; eauto.
    intros k Hk0. destruct (Hk k Hk0) as [H1 H2]. split.
    + intros Hlt. destruct (H1 Hlt) as (c & Hc & Hn). eauto.
    + intros Hge. destruct (H2 Hge) as [?|[-> ?]]; [by left|].
      right. split; [|done]. destruct s'; [by specialize (Hs eq_refl)|done].
Qed.

Lemma node_ok_weaken s F h xs N d b n :
  node_ok true F h xs N d b n -> node_ok s F h xs N d b n.
Proof. by apply node_ok_relax. Qed.

Lemma node_ok_ext s F h xs xs' N d :
  forall b n,
    (forall j, b <= j < b + cap d -> xs !! Z.to_nat j = xs' !! Z.to_nat j) ->
    node_ok s F h xs N d b n -> node_ok s F h xs' N d b n.
Proof.
  induction d as [|d IH]; intros b n Hx; simpl.
  - intros (a & ys & -> & HF & Ha & Hl & Hk). exists a, ys. split_and!; eauto.
    intros k Hk0. rewrite Hk by exact Hk0. apply Hx. rewrite cap_0. lia.
  - intros (a & cs & -> & HF & Ha & Hl & Hk). exists a, cs. split_and!; eauto.
    intros k Hk0. destruct (Hk k Hk0) as [H1 H2]. split; [|exact H2].
    intros Hlt. destruct (H1 Hlt) as (c & Hc & Hn). exists c. split; [exact Hc|].
    apply IH; [|exact Hn]. intros j Hj. apply Hx.
    rewrite cap_S. pose proof (cap_pos d). nia.
Qed.

Lemma node_ok_full s F h xs N N' d :
  forall b n, b + cap d <= N -> N <= N' ->
    node_ok s F h xs N d b n -> node_ok s F h xs N' d b n.
Proof.
  induction d as [|d IH]; intros b n Hb HN; simpl.
  - done.
  - intros (a & cs & -> & HF & Ha & Hl & Hk). exists a, cs. split_and!; eauto.
    intros k Hk0. destruct (Hk k Hk0) as [H1 H2].
    rewrite cap_S in Hb. pose proof (cap_pos d).
    split.
    + intros _. destruct H1 as (c & Hc & Hn); [nia|].
      exists c. split; [exact Hc|]. apply IH; [nia|lia|exact Hn].
    + intros Hge. nia.
Qed.

Lemma Vec_heap_mono s h h' p xs :
  h `prefix_of` h' -> Vec s h p xs -> Vec s h' p xs.
Proof.
  intros Hp (v & ts & d & Hv & Hlen & Hb & Hs & Hd & Hc & Hm & Ht & Hts & Hn).
  exists v, ts, d. split_and!; eauto using lookup_ext, node_ok_heap_mono.
Qed.

Lemma Vec_weaken s h p xs : Vec true h p xs -> Vec s h p xs.
Proof.
  intros (v & ts & d & Hv & Hlen & Hb & Hs & Hd & Hc & Hm & Ht & Hts & Hn).
  exists v, ts, d. split_and!; eauto using node_ok_weaken.
Qed.

Lemma Vec_depth_bound v d :
  0 <= len v < 2 ^ 63 -> (1 <= d)%nat ->
  (d = 1%nat \/ cap (d - 1) < tailOffset v) -> (d <= 12)%nat.
Proof.
  intros Hl Hd [->|Hm]; [lia|].
  pose proof (tailOffset_props v Hl) as (_ & HN & _).
  assert (d - 1 <= 11)%nat by (apply cap_bound; lia). lia.
Qed.

(** ** Reading *)

Lemma usub_level d : (d <= 12)%nat ->
  usub (5 * Z.of_nat (S d)) shiftSize = 5 * Z.of_nat d.
Proof. intros. unfold shiftSize. rewrite usub_small; lia. Qed.

Lemma level_pos d : (5 * Z.of_nat (S d) >? 0) = true.
Proof. apply Z.gtb_lt. lia. Qed.

Lemma block_eq b i j :
  (32 | b) -> b <= i < b + 32 -> j / 32 = i / 32 -> j = b + j mod 32.
Proof.
  intros [q Hq] Hi Hj.
  pose proof (Z.div_mod i 32 ltac:(lia)). pose proof (Z.mod_pos_bound i 32 ltac:(lia)).
  pose proof (Z.div_mod j 32 ltac:(lia)). pose proof (Z.mod_pos_bound j 32 ltac:(lia)).
  assert (i / 32 = q) by nia. lia.
Qed.

(** Descending from a node reaches the leaf that holds index [i]; the leaf
    holds the whole 32-block of [i]. *)
Lemma sliceFor_loop_spec s F h xs N d :
  forall b n i fuel,
    node_ok s F h xs N d b n -> (d <= 12)%nat ->
    (cap d | b) -> b <= i < b + cap d -> 0 <= b -> i < N -> (d < fuel)%nat ->
    exists a ys,
      sliceFor_loop fuel (5 * Z.of_nat d) n i h = Ok (CLeaf a) /\
      h !! a = Some (ArrT ys) /\ length ys = 32%nat /\
      forall j, j / 32 = i / 32 -> ys !! Z.to_nat (j mod 32) = xs !! Z.to_nat j.
Proof.
  induction d as [|d IH]; intros b n i fuel Hn Hd Hb Hi Hb0 HiN Hf;
    (destruct fuel as [|fuel]; [lia|]).
  - destruct Hn as (a & ys & -> & HF & Ha & Hl & Hk). exists a, ys.
    split_and!; try done.
    rewrite cap_0 in *. intros j Hj.
    pose proof (block_eq b i j Hb Hi Hj) as Hjb.
    pose proof (Z.mod_pos_bound j 32 ltac:(lia)).
    rewrite Hk by lia. f_equal. lia.
  - destruct Hn as (a & cs & -> & HF & Ha & Hl & Hk).
    cbn [sliceFor_loop]. rewrite level_pos.
    pose proof (child_range b i d Hb Hi) as (Hk0 & Hki & Hkd).
    set (k := (i / cap d) mod 32) in *.
    destruct (Hk k Hk0) as [H1 _].
    destruct H1 as (c & Hc & Hnc); [lia|].
    destruct (IH (b + k * cap d) c i fuel Hnc) as (a' & ys & Hs & Ha' & Hl' & Hy);
      try lia; try done.
    { pose proof (cap_pos d). nia. }
    exists a', ys. split_and!; try done.
    unfold rbind at 1. simpl.
    unfold rbind at 1. unfold load_nodes at 1. rewrite Ha.
    rewrite shift_index by lia. fold k.
    unfold rbind at 1. unfold of_result, index. rewrite Hc.
    rewrite usub_level by lia. exact Hs.
Qed.

Lemma land_tail i N :
  (32 | N) -> N <= i < N + 32 -> 0 <= N -> Z.land i shiftBitMask = i - N.
Proof.
  intros [q Hq] Hi HN. rewrite land_mask by lia.
  replace i with ((i - N) + q * 32) at 1 by lia.
  rewrite Z.mod_add by lia. apply Z.mod_small. lia.
Qed.

Lemma Vec_len s h p xs : Vec s h p xs -> Len p h = Ok (Z.of_nat (length xs)).
Proof.
  intros (v & ts & d & Hv & Hlen & Hb & _).
  unfold Len, rbind, load_vec. rewrite Hv. unfold rret.
  rewrite to_int_small by lia. by rewrite Hlen.
Qed.

Lemma load_vec_ok (h : heap) p v : h !! p = Some (VecS v) -> load_vec p h = Ok v.
Proof. unfold load_vec. by intros ->. Qed.

Lemma load_arr_ok (h : heap) a ys : h !! a = Some (ArrT ys) -> load_arr a h = Ok ys.
Proof. unfold load_arr. by intros ->. Qed.

Lemma load_nodes_ok (h : heap) a cs : h !! a = Some (ArrN cs) -> load_nodes a h = Ok cs.
Proof. unfold load_nodes. by intros ->. Qed.

(** [sliceFor] returns the array that holds index [i]; the array holds the
    whole 32-block of [i], as far as the vector reaches. *)
Lemma sliceFor_spec s h p xs i :
  Vec s h p xs -> 0 <= i < Z.of_nat (length xs) ->
  exists a ys,
    sliceFor p i h = Ok a /\ h !! a = Some (ArrT ys) /\
    forall j, 0 <= j < Z.of_nat (length xs) -> j / 32 = i / 32 ->
              ys !! Z.to_nat (j mod 32) = xs !! Z.to_nat j.
Proof.
  intros (v & ts & d & Hv & Hlen & Hb & Hs & Hd & Hc & Hm & Ht & Hts & Hn) Hi.
  assert (0 <= len v < 2 ^ 63) as Hl by lia.
  pose proof (tailOffset_props v Hl) as (HN32 & HN & HNt & HNl).
  pose proof (Vec_depth_bound v d Hl Hd Hm) as Hd12.
  unfold sliceFor. rewrite (rbind_ok (load_vec p) _ h v) by by apply load_vec_ok.
  destruct (i >=? tailOffset v) eqn:E.
  - rewrite Z.geb_leb in E. apply Z.leb_le in E.
    exists (tail v), ts. split_and!; try done.
    intros j Hj Hji.
    assert (tailOffset v <= j) as HjN.
    { destruct HN32 as [q Hq].
      assert (q <= i / 32) by (apply Z.div_le_lower_bound; lia).
      pose proof (Z.div_mod j 32 ltac:(lia)). pose proof (Z.mod_pos_bound j 32 ltac:(lia)).
      lia. }
    rewrite <- land_mask by lia.
    rewrite (land_tail j (tailOffset v)) by (done || lia).
    rewrite Hts, lookup_drop. f_equal. lia.
  - rewrite Z.geb_leb in E. apply Z.leb_gt in E.
    destruct (sliceFor_loop_spec s anywhere h xs (tailOffset v) d 0 (root v) i
                (fuel_of (shift v)) Hn Hd12) as (a & ys & Hsl & Ha & Hyl & Hy);
      try lia.
    { apply Z.divide_0_r. }
    { unfold fuel_of. lia. }
    exists a, ys. rewrite Hs in *.
    rewrite (rbind_ok _ _ h (CLeaf a)) by exact Hsl.
    split_and!; try done. intros j _ Hji. by apply Hy.
Qed.

Lemma Get_spec s h p xs i x :
  Vec s h p xs -> xs !! Z.to_nat i = Some x -> 0 <= i ->
  Get p i h = Ok x.
Proof.
  intros HV Hx Hi.
  apply lookup_lt_Some in Hx as Hlt.
  destruct (sliceFor_spec s h p xs i HV) as (a & ys & Hsl & Ha & Hy); [lia|].
  destruct HV as (v & ts & d & Hv & Hlen & Hb & _).
  unfold Get. rewrite (rbind_ok (load_vec p) _ h v) by by apply load_vec_ok.
  rewrite to_uint_small by lia.
  rewrite ltb_false, geb_false by lia. simpl.
  rewrite (rbind_ok _ _ h a) by exact Hsl.
  rewrite (rbind_ok _ _ h ys) by by apply load_arr_ok.
  unfold of_result, index. rewrite land_mask by lia.
  rewrite Hy by (done || lia). by rewrite Hx.
Qed.

(** ** Writing *)

Lemma copy_list_length {A} (dst src : list A) :
  length (copy_list dst src) = length dst.
Proof. unfold copy_list. rewrite length_app, length_take, length_drop. lia. Qed.

Lemma copy_list_lookup_src {A} (dst src : list A) j :
  (j < length dst)%nat -> (j < length src)%nat ->
  copy_list dst src !! j = src !! j.
Proof.
  intros Hd Hs. unfold copy_list.
  rewrite lookup_app_l by (rewrite length_take; lia).
  apply lookup_take_lt. lia.
Qed.

Lemma copy_list_lookup_dst {A} (dst src : list A) j :
  (length src <= j)%nat -> copy_list dst src !! j = dst !! j.
Proof.
  intros Hs. unfold copy_list.
  destruct (decide (length src <= length dst)%nat) as [Hle|Hgt].
  - rewrite take_ge by lia. rewrite lookup_app_r by lia.
    rewrite lookup_drop. f_equal. lia.
  - rewrite drop_ge by lia. rewrite app_nil_r.
    rewrite (lookup_ge_None_2 dst) by lia.
    apply lookup_ge_None_2. rewrite length_take. lia.
Qed.

Lemma copy_list_same_length {A} (dst src : list A) :
  length dst = length src -> copy_list dst src = src.
Proof.
  intros Hl. unfold copy_list. rewrite Hl, firstn_all, drop_ge by lia.
  apply app_nil_r.
Qed.

Lemma insert_alloc (h : heap) o o' : <[length h := o']> (h ++ [o]) = h ++ [o'].
Proof. rewrite insert_app_r_alt by lia. by rewrite Nat.sub_diag. Qed.

Lemma wp_bind_alloc {B} o (k : loc -> M B) h (Q : B -> heap -> Prop) :
  wp (k (length h)) (h ++ [o]) Q -> wp (mbind (alloc o) k) h Q.
Proof. intros. by apply wp_bind, wp_alloc. Qed.

Lemma wp_bind_lift {A B} (c : R A) (k : A -> M B) h a (Q : B -> heap -> Prop) :
  c h = Ok a -> wp (k a) h Q -> wp (mbind (lift c) k) h Q.
Proof. intros. by eapply wp_bind, wp_lift. Qed.

Lemma wp_bind_write {B} a o o' (k : unit -> M B) h (Q : B -> heap -> Prop) :
  h !! a = Some o' -> wp (k tt) (<[a := o]> h) Q -> wp (mbind (write a o) k) h Q.
Proof. intros. by eapply wp_bind, wp_write. Qed.

Lemma wp_bind_copy_nodes {B} a src dst (k : unit -> M B) h (Q : B -> heap -> Prop) :
  h !! a = Some (ArrN dst) ->
  wp (k tt) (<[a := ArrN (copy_list dst src)]> h) Q ->
  wp (mbind (copy_nodes a src) k) h Q.
Proof.
  intros Ha HQ. apply wp_bind. unfold copy_nodes.
  eapply wp_bind_lift; [by apply load_nodes_ok|]. by eapply wp_write.
Qed.

Lemma wp_bind_copy_arr {B} a src dst (k : unit -> M B) h (Q : B -> heap -> Prop) :
  h !! a = Some (ArrT dst) ->
  wp (k tt) (<[a := ArrT (copy_list dst src)]> h) Q ->
  wp (mbind (copy_arr a src) k) h Q.
Proof.
  intros Ha HQ. apply wp_bind. unfold copy_arr.
  eapply wp_bind_lift; [by apply load_arr_ok|]. by eapply wp_write.
Qed.

Lemma wp_bind_set_nodes {B} a i c cs (k : unit -> M B) h (Q : B -> heap -> Prop) :
  h !! a = Some (ArrN cs) -> 0 <= i < Z.of_nat (length cs) ->
  wp (k tt) (<[a := ArrN (<[Z.to_nat i := c]> cs)]> h) Q ->
  wp (mbind (set_nodes a i c) k) h Q.
Proof.
  intros Ha Hi HQ. apply wp_bind. unfold set_nodes.
  eapply wp_bind_lift; [by apply load_nodes_ok|].
  rewrite ltb_true by lia. by eapply wp_write.
Qed.

Lemma wp_bind_set_arr {B} a i x ys (k : unit -> M B) h (Q : B -> heap -> Prop) :
  h !! a = Some (ArrT ys) -> 0 <= i < Z.of_nat (length ys) ->
  wp (k tt) (<[a := ArrT (<[Z.to_nat i := x]> ys)]> h) Q ->
  wp (mbind (set_arr a i x) k) h Q.
Proof.
  intros Ha Hi HQ. apply wp_bind. unfold set_arr.
  eapply wp_bind_lift; [by apply load_arr_ok|].
  rewrite ltb_true by lia. by eapply wp_write.
Qed.

Lemma level_nonzero d : (5 * Z.of_nat (S d) =? 0) = false.
Proof. apply Z.eqb_neq. lia. Qed.

(** [doAssoc] copies the path to index [i] and leaves everything else
    shared.  The new nodes are padded to 32 slots. *)
Lemma doAssoc_spec s (L0 : nat) xs N x d :
  forall b n i fuel (h : heap) p,
    node_ok s (fun a => (a < L0)%nat) h xs N d b n ->
    (L0 <= length h)%nat -> (d <= 12)%nat ->
    (cap d | b) -> b <= i < b + cap d -> 0 <= b -> i < N -> (d < fuel)%nat ->
    wp (doAssoc zeroT fuel p (5 * Z.of_nat d) n i x) h
      (fun n' h' =>
         h `prefix_of` h' /\
         node_ok false (fun a => (a < L0)%nat \/ (length h <= a)%nat) h'
           (<[Z.to_nat i := x]> xs) N d b n').
Proof.
  induction d as [|d IH]; intros b n i fuel h p Hn HL Hd Hb Hi Hb0 HiN Hf;
    (destruct fuel as [|fuel]; [lia|]).
  - destruct Hn as (a & ys & -> & HF & Ha & Hl & Hk).
    rewrite cap_0 in *.
    cbn [doAssoc]. change (5 * Z.of_nat 0 =? 0) with true. cbv iota.
    change (Z.to_nat nodeSize) with 32%nat.
    apply wp_bind_alloc.
    eapply wp_bind_lift; [reflexivity|].
    eapply wp_bind_lift; [apply load_arr_ok; by apply lookup_alloc_old|].
    eapply wp_bind_copy_arr; [apply lookup_alloc_new|].
    rewrite insert_alloc.
    rewrite copy_list_same_length by (rewrite length_replicate; lia).
    assert (Z.land i shiftBitMask = i - b) as Hland by (apply land_tail; (done || lia)).
    eapply wp_bind_set_arr; [apply lookup_alloc_new|lia|].
    rewrite insert_alloc. apply wp_ret. split; [by apply prefix_app_r|].
    exists (length h), (<[Z.to_nat (Z.land i shiftBitMask) := x]> ys).
    split_and!; try done.
    + right. lia.
    + apply lookup_alloc_new.
    + by rewrite length_insert.
    + intros k Hk0. rewrite Hland.
      destruct (decide (k = i - b)) as [->|Hne].
      * replace (b + (i - b)) with i by lia.
        rewrite !list_lookup_insert_eq; [done| |lia].
        specialize (Hk (i - b) ltac:(lia)).
        replace (b + (i - b)) with i in Hk by lia.
        apply lookup_lt_is_Some. rewrite <- Hk. apply lookup_lt_is_Some. lia.
      * rewrite !list_lookup_insert_ne by lia. by apply Hk.
  - destruct Hn as (a & cs & -> & HF & Ha & Hl & Hk).
    pose proof (child_range b i d Hb Hi) as (Hk0 & Hki & Hkd).
    set (k := (i / cap d) mod 32) in *.
    destruct (Hk k Hk0) as [H1 _].
    destruct H1 as (c & Hc & Hnc); [lia|].
    pose proof (cap_pos d) as HC.
    cbn [doAssoc]. rewrite level_nonzero.
    change (Z.to_nat nodeSize) with 32%nat.
    apply wp_bind_alloc.
    eapply wp_bind_lift; [reflexivity|].
    eapply wp_bind_lift; [apply load_nodes_ok; by apply lookup_alloc_old|].
    eapply wp_bind_copy_nodes; [apply lookup_alloc_new|].
    rewrite insert_alloc.
    set (cs32 := copy_list (replicate 32 CNil) cs).
    assert (length cs32 = 32%nat) as Hl32
      by (unfold cs32; rewrite copy_list_length, length_replicate; done).
    assert (forall j, (j < length cs)%nat -> cs32 !! j = cs !! j) as Hsrc.
    { intros j Hj. apply copy_list_lookup_src; [rewrite length_replicate|]; lia. }
    assert (forall j, (length cs <= j < 32)%nat -> cs32 !! j = Some CNil) as Hdst.
    { intros j Hj. unfold cs32. rewrite copy_list_lookup_dst by lia.
      apply lookup_replicate_2. lia. }
    set (h2 := h ++ [ArrN cs32]).
    eapply wp_bind_lift; [apply load_nodes_ok, lookup_alloc_new|].
    rewrite shift_index by lia. fold k.
    eapply wp_bind_lift.
    { unfold of_result, index. rewrite Hsrc by (by eapply lookup_lt_Some). by rewrite Hc. }
    rewrite usub_level by lia.
    apply wp_bind. eapply wp_mono.
    { apply (IH (b + k * cap d) c i fuel h2 p); try lia; try done.
      - eapply node_ok_heap_mono; [|exact Hnc]. by apply prefix_app_r.
      - unfold h2. rewrite length_app. lia. }
    intros c' h3 [Hp3 Hn3].
    assert (h3 !! length h = Some (ArrN cs32)) as Hret.
    { eapply lookup_ext; [exact Hp3|]. apply lookup_alloc_new. }
    eapply wp_bind_set_nodes; [exact Hret|lia|].
    apply wp_ret.
    assert (h `prefix_of` h3) as Hp03.
    { etrans; [|exact Hp3]. by apply prefix_app_r. }
    split; [by apply prefix_write|].
    exists (length h), (<[Z.to_nat k := c']> cs32).
    split_and!; try done.
    + right. lia.
    + apply list_lookup_insert_eq. by eapply lookup_lt_Some.
    + rewrite length_insert. lia.
    + intros j Hj0. destruct (Hk j Hj0) as [Hj1 Hj2]. split.
      * intros Hlt. destruct (decide (j = k)) as [->|Hne].
        -- exists c'. split; [apply list_lookup_insert_eq; lia|].
           eapply node_ok_footprint; [|eapply node_ok_agree; [|exact Hn3]].
           ++ intros a' [?|Hge] _; [by left|right].
              unfold h2 in Hge. rewrite length_app in Hge. simpl in Hge. lia.
           ++ intros a' Ha'. apply list_lookup_insert_ne.
              unfold h2 in Ha'. rewrite length_app in Ha'. simpl in Ha'. lia.
        -- destruct (Hj1 Hlt) as (c0 & Hc0 & Hn0).
           exists c0. split.
           { rewrite list_lookup_insert_ne by lia.
             rewrite Hsrc by (by eapply lookup_lt_Some). exact Hc0. }
           eapply node_ok_footprint with (F := fun a => (a < L0)%nat); [by left|].
           eapply node_ok_relax with (s := s); [done|].
           eapply node_ok_agree with (h := h).
           { intros a' Ha'.
             destruct (lookup_lt_is_Some_2 h a' ltac:(lia)) as [o Ho].
             rewrite Ho. eapply lookup_ext; [|exact Ho]. by apply prefix_write. }
           eapply node_ok_ext; [|exact Hn0].
           intros j' Hj'. symmetry. apply list_lookup_insert_ne. nia.
      * intros Hge. right. split; [done|].
        assert (j <> k) by nia.
        rewrite list_lookup_insert_ne by lia.
        destruct (decide (Z.to_nat j < length cs)%nat) as [Hin|Hout].
        -- rewrite Hsrc by done.
           destruct (Hj2 Hge) as [Hnone|[_ Hnil]]; [|done].
           apply lookup_ge_None in Hnone. lia.
        -- apply Hdst. lia.
Qed.

(** The trie only looks at the elements below [N]. *)
Lemma node_ok_below s F h xs xs' N d :
  (32 | N) ->
  forall b n, (32 | b) -> 0 <= b -> (d = 0%nat -> b < N) ->
    (forall j, b <= j < N -> xs !! Z.to_nat j = xs' !! Z.to_nat j) ->
    node_ok s F h xs N d b n -> node_ok s F h xs' N d b n.
Proof.
  intros [qN HqN]. induction d as [|d IH]; intros b n [qb Hqb] Hb0 Hlt Hx; simpl.
  - intros (a & ys & -> & HF & Ha & Hl & Hk). exists a, ys. split_and!; eauto.
    intros k Hk0. rewrite Hk by exact Hk0. apply Hx.
    specialize (Hlt eq_refl). lia.
  - intros (a & cs & -> & HF & Ha & Hl & Hk). exists a, cs. split_and!; eauto.
    intros k Hk0. destruct (Hk k Hk0) as [H1 H2]. split; [|exact H2].
    intros Hlt'. destruct (H1 Hlt') as (c & Hc & Hn). exists c. split; [exact Hc|].
    pose proof (cap_pos d). destruct (cap_divide_32 d) as [qc Hqc].
    apply IH; [| |done| |exact Hn].
    + exists (qb + k * qc). lia.
    + nia.
    + intros j Hj. apply Hx. nia.
Qed.

(** [Set] returns a vector that holds the updated sequence. *)
Lemma Set_spec s (h : heap) p xs i x :
  Vec s h p xs -> 0 <= i < Z.of_nat (length xs) ->
  wp (Set_ zeroT p i x) h
    (fun p' h' => h `prefix_of` h' /\ Vec false h' p' (<[Z.to_nat i := x]> xs)).
Proof.
  intros (v & ts & d & Hv & Hlen & Hb & Hs & Hd & Hc & Hm & Ht & Hts & Hn) Hi.
  assert (0 <= len v < 2 ^ 63) as Hl by lia.
  pose proof (tailOffset_props v Hl) as (HN32 & HN & HNt & HNl).
  pose proof (Vec_depth_bound v d Hl Hd Hm) as Hd12.
  unfold Set_. eapply wp_bind_lift; [by apply load_vec_ok|].
  rewrite to_uint_small by lia.
  rewrite ltb_false, geb_false by lia. cbn [orb].
  destruct (i >=? tailOffset v) eqn:E.
  - rewrite Z.geb_leb in E. apply Z.leb_le in E.
    assert (length ts = Z.to_nat (len v - tailOffset v)) as Htl.
    { rewrite Hts, length_drop. lia. }
    eapply wp_bind_lift; [by apply load_arr_ok|].
    apply wp_bind_alloc.
    eapply wp_bind_copy_arr; [apply lookup_alloc_new|].
    rewrite insert_alloc, copy_list_same_length by by rewrite length_replicate.
    rewrite (land_tail i (tailOffset v)) by (done || lia).
    eapply wp_bind_set_arr; [apply lookup_alloc_new|lia|].
    rewrite insert_alloc. apply wp_alloc.
    set (h1 := h ++ [ArrT (<[Z.to_nat (i - tailOffset v) := x]> ts)]).
    set (v' := mkVector (length h) (root v) (len v) (shift v)).
    assert (tailOffset v' = tailOffset v) as HtO by reflexivity.
    assert (h `prefix_of` h1 ++ [VecS v']) as Hp.
    { apply prefix_app_r. by apply prefix_app_r. }
    split; [exact Hp|].
    exists v', (<[Z.to_nat (i - tailOffset v) := x]> ts), d.
    rewrite HtO.
    split_and!; try done.
    + apply lookup_alloc_new.
    + cbn [len]. by rewrite length_insert.
    + cbn [tail]. apply lookup_alloc_old. apply lookup_alloc_new.
    + rewrite drop_insert_ge by lia. rewrite Hts. f_equal. lia.
    + cbn [root]. apply node_ok_relax with (s := s); [done|].
      eapply node_ok_heap_mono; [exact Hp|].
      eapply node_ok_below; [exact HN32|apply Z.divide_0_r|lia|lia| |exact Hn].
      intros j Hj. symmetry. apply list_lookup_insert_ne. lia.
  - rewrite Z.geb_leb in E. apply Z.leb_gt in E.
    rewrite Hs. apply wp_bind. eapply wp_mono.
    { apply (doAssoc_spec s (length h) xs (tailOffset v) x d 0 (root v) i); try lia.
      - eapply node_ok_footprint; [|exact Hn]. intros a _ Ha. exact Ha.
      - apply Z.divide_0_r.
      - unfold fuel_of. lia. }
    intros r h1 [Hp1 Hn1]. apply wp_alloc.
    set (v' := mkVector (tail v) r (len v) (5 * Z.of_nat d)).
    assert (tailOffset v' = tailOffset v) as HtO by reflexivity.
    assert (h `prefix_of` h1 ++ [VecS v']) as Hp.
    { etrans; [exact Hp1|]. by apply prefix_app_r. }
    split; [exact Hp|].
    exists v', ts, d.
    rewrite HtO.
    split_and!; try done.
    + apply lookup_alloc_new.
    + cbn [len]. by rewrite length_insert.
    + cbn [tail]. eapply lookup_ext; [exact Hp|exact Ht].
    + rewrite drop_insert_lt by lia. exact Hts.
    + cbn [root]. eapply node_ok_heap_mono with (h := h1); [by apply prefix_app_r|].
      eapply node_ok_footprint; [|exact Hn1]. done.
Qed.

(** ** Appending *)

(** [newPath] wraps a node that holds the single block [B .. B + 32) in
    [j] more levels. *)
Lemma newPath_spec xs N' B j :
  B < N' <= B + 32 ->
  forall e (F : loc -> Prop) n fuel (h : heap),
    node_ok true F h xs N' e B n ->
    (e + j <= 12)%nat -> (j < fuel)%nat ->
    wp (newPath fuel (5 * Z.of_nat j) n) h
      (fun n' h' =>
         h `prefix_of` h' /\
         node_ok true (fun a => F a \/ (length h <= a)%nat) h' xs N' (e + j) B n').
Proof.
  intros HB. induction j as [|j IH]; intros e F n fuel h Hn He Hf;
    (destruct fuel as [|fuel]; [lia|]).
  - cbn [newPath]. change (5 * Z.of_nat 0 =? 0) with true. cbv iota.
    apply wp_ret. split; [done|]. rewrite Nat.add_0_r.
    eapply node_ok_footprint; [|exact Hn]. by left.
  - cbn [newPath]. rewrite level_nonzero.
    apply wp_bind_alloc. rewrite usub_level by lia.
    eapply wp_mono.
    { apply (IH (S e) (fun a => F a \/ (length h <= a)%nat)); [|lia|lia].
      exists (length h), [n]. split_and!; try done.
      - by right.
      - apply lookup_alloc_new.
      - simpl. lia.
      - intros k Hk0. pose proof (cap_ge_32 e). split.
        + intros Hlt. assert (k = 0) as -> by nia.
          exists n. split; [done|]. rewrite Z.mul_0_l, Z.add_0_r.
          eapply node_ok_heap_mono; [by apply prefix_app_r|].
          eapply node_ok_footprint; [|exact Hn]. by left.
        + intros Hge. left. assert (1 <= k) by nia.
          apply lookup_ge_None_2. simpl. lia. }
    intros n' h' [Hp Hn']. split.
    + etrans; [|exact Hp]. by apply prefix_app_r.
    + replace (e + S j)%nat with (S e + j)%nat by lia.
      eapply node_ok_footprint; [|exact Hn'].
      intros a [[?|?]|Hge] _; [by left|by right|right].
      rewrite length_app in Hge. simpl in Hge. lia.
Qed.

Lemma level_is_5 d : (5 * Z.of_nat (S d) =? shiftSize) = bool_decide (d = 0%nat).
Proof.
  unfold shiftSize. destruct d; [done|].
  rewrite bool_decide_eq_false_2 by done. apply Z.eqb_neq. lia.
Qed.

(** [pushTail] puts the full tail [tl] (the block [N .. N + 32)) below a
    node that is not yet full, copying the path to it. *)
Lemma pushTail_spec (L0 : nat) xs N v tl ts p d :
  len v = N + 32 -> 0 <= N -> N + 32 < 2 ^ 63 -> (32 | N) ->
  (tl < L0)%nat -> length ts = 32%nat ->
  (forall k, 0 <= k < 32 -> ts !! Z.to_nat k = xs !! Z.to_nat (N + k)) ->
  forall b n fuel (h : heap),
    h !! p = Some (VecS v) -> h !! tl = Some (ArrT ts) ->
    node_ok true (fun a => (a < L0)%nat) h xs N (S d) b n ->
    (L0 <= length h)%nat -> (S d <= 12)%nat ->
    (cap (S d) | b) -> b <= N < b + cap (S d) -> 0 <= b -> (S d < fuel)%nat ->
    wp (pushTail fuel p (5 * Z.of_nat (S d)) n tl) h
      (fun n' h' =>
         h `prefix_of` h' /\
         node_ok true (fun a => (a < L0)%nat \/ (length h <= a)%nat) h'
           xs (N + 32) (S d) b n').
Proof.
  intros Hlen HN0 HN63 HN32 Htl Htsl Hts.
  induction d as [d IH] using lt_wf_ind.
  intros b n fuel h Hp Htlh Hn HL Hd Hb HbN Hb0 Hf.
  destruct fuel as [|fuel]; [lia|].
  destruct Hn as (a & cs & -> & HF & Ha & Hl & Hk).
  pose proof (cap_pos d) as HCd.
  destruct HN32 as [qN HqN].
  assert (b <= N + 31 < b + cap (S d)) as Hrange.
  { destruct Hb as [qb Hqb]. destruct (cap_divide_32 (S d)) as [qc Hqc]. lia. }
  pose proof (child_range b (N + 31) d Hb Hrange) as (Hk0 & Hki & Hkd).
  set (k := ((N + 31) / cap d) mod 32) in *.
  assert (b + k * cap d <= N /\ N + 32 <= b + (k + 1) * cap d) as [HkN HNk].
  { destruct Hkd as [qk Hqk]. destruct (cap_divide_32 d) as [qc Hqc].
    split; [lia|].
    assert (b + (k + 1) * cap d = 32 * (qk * qc + qc)) by lia. lia. }
  cbn [pushTail].
  eapply wp_bind_lift; [by apply load_vec_ok|].
  rewrite Hlen, usub_small by lia.
  replace (N + 32 - 1) with (N + 31) by lia.
  rewrite shift_index by lia. fold k.
  eapply wp_bind_lift; [reflexivity|].
  eapply wp_bind_lift; [by apply load_nodes_ok|].
  rewrite uadd_small by lia.
  apply wp_bind_alloc.
  eapply wp_bind_copy_nodes; [apply lookup_alloc_new|].
  rewrite insert_alloc.
  set (csK := copy_list (replicate (Z.to_nat (k + 1)) CNil) cs).
  assert (length csK = Z.to_nat (k + 1)) as HlK
    by (unfold csK; by rewrite copy_list_length, length_replicate).
  assert (forall j, (j < length cs)%nat -> (j < Z.to_nat (k + 1))%nat ->
            csK !! j = cs !! j) as Hsrc.
  { intros j Hj1 Hj2. apply copy_list_lookup_src; [rewrite length_replicate|]; lia. }
  set (h2 := h ++ [ArrN csK]).
  assert (h `prefix_of` h2) as Hp2 by by apply prefix_app_r.
  assert (length h2 = S (length h)) as Hl2
    by (unfold h2; rewrite length_app; simpl; lia).
  (* what remains once the node to insert is known *)
  assert (forall c' (h3 : heap),
    h2 `prefix_of` h3 ->
    node_ok true (fun a => (a < L0)%nat \/ (length h2 <= a)%nat) h3 xs (N + 32)
      d (b + k * cap d) c' ->
    wp (set_nodes (length h) k c';;; mret (CNode (length h))) h3
      (fun n' h' =>
         h `prefix_of` h' /\
         node_ok true (fun a => (a < L0)%nat \/ (length h <= a)%nat) h'
           xs (N + 32) (S d) b n')) as Hfinish.
  { intros c' h3 Hp3 Hn3.
    assert (h3 !! length h = Some (ArrN csK)) as Hret.
    { eapply lookup_ext; [exact Hp3|]. apply lookup_alloc_new. }
    assert (h `prefix_of` h3) as Hp03 by (etrans; [exact Hp2|exact Hp3]).
    eapply wp_bind_set_nodes; [exact Hret|lia|].
    apply wp_ret. split; [by apply prefix_write|].
    exists (length h), (<[Z.to_nat k := c']> csK).
    split_and!; try done.
    - right. lia.
    - apply list_lookup_insert_eq. by eapply lookup_lt_Some.
    - rewrite length_insert. lia.
    - intros j Hj0. destruct (Hk j Hj0) as [Hj1 Hj2]. split.
      + intros Hlt. assert (j <= k) by nia.
        destruct (decide (j = k)) as [->|Hne].
        * exists c'. split; [apply list_lookup_insert_eq; lia|].
          eapply node_ok_footprint; [|eapply node_ok_agree; [|exact Hn3]].
          -- intros a' [?|Hge] _; [by left|right]. lia.
          -- intros a' Ha'. cbv beta in Ha'. apply list_lookup_insert_ne. lia.
        * destruct Hj1 as (c0 & Hc0 & Hn0); [nia|].
          exists c0. split.
          { rewrite list_lookup_insert_ne by lia.
            rewrite Hsrc; [exact Hc0|by eapply lookup_lt_Some|lia]. }
          eapply node_ok_footprint with (F := fun a => (a < L0)%nat); [by left|].
          eapply node_ok_agree with (h := h).
          { intros a' Ha'.
            destruct (lookup_lt_is_Some_2 h a' ltac:(lia)) as [o Ho].
            rewrite Ho. eapply lookup_ext; [|exact Ho]. by apply prefix_write. }
          eapply node_ok_full; [| |exact Hn0]; nia.
      + intros Hge. left. assert (k < j) by nia.
        apply lookup_ge_None_2. rewrite length_insert. lia. }
  apply wp_bind. rewrite level_is_5.
  destruct d as [|d'].
  - (* the children are leaves *)
    rewrite bool_decide_eq_true_2 by done.
    apply wp_ret. apply Hfinish; [done|].
    rewrite cap_0 in *.
    exists tl, ts. split_and!; try done.
    + by left.
    + eapply lookup_ext; [exact Hp2|exact Htlh].
    + intros k' Hk'. rewrite Hts by done. f_equal. lia.
  - rewrite bool_decide_eq_false_2 by done.
    destruct (k <? Z.of_nat (length cs)) eqn:E.
    + (* the child exists: push further down *)
      apply Z.ltb_lt in E.
      destruct (Hk k Hk0) as [H1 H2].
      assert (b + k * cap (S d') < N) as Hex.
      { destruct (decide (b + k * cap (S d') < N)) as [|Hn']; [done|].
        destruct H2 as [Hnone|[? _]]; [lia| |done].
        apply lookup_ge_None in Hnone. lia. }
      destruct (H1 Hex) as (c & Hc & Hnc).
      eapply wp_bind_lift.
      { unfold of_result, index. by rewrite Hc. }
      rewrite usub_level by lia.
      eapply wp_mono.
      { apply (IH d' ltac:(lia) (b + k * cap (S d')) c fuel h2); try lia; try done.
        - eapply lookup_ext; [exact Hp2|exact Hp].
        - eapply lookup_ext; [exact Hp2|exact Htlh].
        - eapply node_ok_heap_mono; [exact Hp2|exact Hnc]. }
      intros c' h3 [Hp3 Hn3]. by apply Hfinish.
    + (* no child yet: a fresh path *)
      apply Z.ltb_ge in E.
      destruct (Hk k Hk0) as [H1 _].
      assert (N = b + k * cap (S d')) as HNeq.
      { destruct (decide (b + k * cap (S d') < N)) as [Hlt|]; [|lia].
        destruct (H1 Hlt) as (c & Hc & _). apply lookup_lt_Some in Hc. lia. }
      rewrite usub_level by lia.
      eapply wp_mono.
      { apply (newPath_spec xs (N + 32) N (S d') ltac:(lia) 0%nat
                 (fun a => (a < L0)%nat) (CLeaf tl) _ h2).
        - exists tl, ts. split_and!; try done.
          eapply lookup_ext; [exact Hp2|exact Htlh].
        - lia.
        - unfold fuel_of. lia. }
      intros c' h3 [Hp3 Hn3]. apply Hfinish; [done|].
      rewrite <- HNeq. exact Hn3.
Qed.

(** The parts of the invariant, for a trie that holds [N] elements. *)
Definition TrieN (s : bool) (h : heap) (v : Vector) (xs : list T) (N : Z)
    (d : nat) : Prop :=
  len v = Z.of_nat (length xs) /\ len v < 2 ^ 63 /\
  shift v = 5 * Z.of_nat d /\ (1 <= d)%nat /\
  (32 | N) /\ 0 <= N <= len v /\ N <= cap d /\
  (d = 1%nat \/ cap (d - 1) < N) /\
  node_ok s anywhere h xs N d 0 (root v).

Definition VecN (s : bool) (h : heap) (v : Vector) (xs : list T) (N : Z)
    (d : nat) : Prop :=
  TrieN s h v xs N d /\ h !! tail v = Some (ArrT (drop (Z.to_nat N) xs)).

Lemma Vec_VecN s h p xs :
  Vec s h p xs <->
  exists v d, h !! p = Some (VecS v) /\ VecN s h v xs (tailOffset v) d.
Proof.
  split.
  - intros (v & ts & d & Hv & Hlen & Hb & Hs & Hd & Hc & Hm & Ht & Hts & Hn).
    assert (0 <= len v < 2 ^ 63) as Hl by lia.
    pose proof (tailOffset_props v Hl) as (HN32 & HN & HNt & HNl).
    exists v, d. split; [done|]. split; [|by rewrite <- Hts].
    unfold TrieN. split_and!; try done; lia.
  - intros (v & d & Hv & (Hlen & Hb & Hs & Hd & HN32 & HN & Hc & Hm & Hn) & Ht).
    exists v, (drop (Z.to_nat (tailOffset v)) xs), d. split_and!; try done.
Qed.

Lemma TrieN_depth s h v xs N d : TrieN s h v xs N d -> (d <= 12)%nat.
Proof.
  intros (Hlen & Hb & Hs & Hd & HN32 & HN & Hc & [->|Hm] & Hn); [lia|].
  assert (d - 1 <= 11)%nat by (apply cap_bound; lia). lia.
Qed.

Lemma ushl_one d : (d <= 12)%nat -> 32 * ushl 1 (5 * Z.of_nat d) = cap d.
Proof.
  intros Hd. unfold ushl. rewrite Z.shiftl_1_l.
  rewrite wrap64_small.
  - rewrite cap_pow2. replace (5 * Z.of_nat (S d)) with (5 + 5 * Z.of_nat d) by lia.
    rewrite Z.pow_add_r by lia. reflexivity.
  - split; [apply Z.pow_nonneg; lia|]. apply Z.pow_lt_mono_r; lia.
Qed.

(** The root-overflow test of [pushLeafNode]: with a full tail on top of a
    trie of [N] elements, it holds exactly when the trie is full. *)
Lemma grow_cond v d N :
  len v = N + 32 -> (32 | N) -> 0 <= N <= cap d -> N + 32 < 2 ^ 63 ->
  shift v = 5 * Z.of_nat d -> (d <= 12)%nat ->
  (ushr (len v) shiftSize >? ushl 1 (shift v)) = bool_decide (N = cap d).
Proof.
  intros Hlen [q Hq] HN Hb Hs Hd.
  pose proof (ushl_one d Hd) as Hone.
  rewrite Hs, Hlen. unfold shiftSize. rewrite ushr_div by lia.
  change (2 ^ 5) with 32.
  replace (N + 32) with ((q + 1) * 32) by lia.
  rewrite Z.div_mul by lia.
  destruct (decide (N = cap d)) as [Heq|Hne].
  - rewrite bool_decide_eq_true_2 by done. apply gtb_true. lia.
  - rewrite bool_decide_eq_false_2 by done. apply gtb_false. lia.
Qed.

(** [pushLeafNode] moves the full tail into the trie.  The returned vector
    is the last object allocated, and its [tail] field still names the old
    tail. *)
Lemma pushLeafNode_spec (h : heap) p v xs d :
  h !! p = Some (VecS v) -> 32 <= len v ->
  VecN true h v xs (len v - 32) d ->
  wp (pushLeafNode p (tail v)) h
    (fun p' h' => exists (h1 : heap) v' d',
       h' = h1 ++ [VecS v'] /\ p' = length h1 /\ h `prefix_of` h1 /\
       tail v' = tail v /\ TrieN true h1 v' xs (len v) d' /\
       if bool_decide (len v - 32 = cap d)
       then d' = S d /\
            exists a newNode, root v' = CNode a /\
                              h1 !! a = Some (ArrN [root v; newNode])
       else d' = d).
Proof.
  intros Hp Hlen32 [HT Ht].
  pose proof (TrieN_depth _ _ _ _ _ _ HT) as Hd12.
  destruct HT as (Hlen & Hb & Hs & Hd & HN32 & HN & Hc & Hm & Hn).
  set (N := len v - 32) in *.
  assert (len v = N + 32) as HlN by (unfold N; lia).
  assert (length (drop (Z.to_nat N) xs) = 32%nat) as Htsl
    by (rewrite length_drop; lia).
  assert (forall k, 0 <= k < 32 ->
            drop (Z.to_nat N) xs !! Z.to_nat k = xs !! Z.to_nat (N + k)) as Hts.
  { intros k Hk. rewrite lookup_drop. f_equal. lia. }
  assert ((tail v < length h)%nat) as Htl by (by eapply lookup_lt_Some).
  unfold pushLeafNode.
  eapply wp_bind_lift; [by apply load_vec_ok|].
  rewrite (grow_cond v d N) by (done || lia).
  destruct (decide (N = cap d)) as [Heq|Hne].
  - (* the trie is full: one more level *)
    rewrite bool_decide_eq_true_2 by done.
    assert (d <= 11)%nat as Hd11 by (apply cap_bound; lia).
    apply wp_bind. eapply wp_mono.
    { rewrite Hs.
      apply (newPath_spec xs (N + 32) N d ltac:(lia) 0%nat
               (fun a => (a < length h)%nat) (CLeaf (tail v)) _ h).
      - exists (tail v), (drop (Z.to_nat N) xs). split_and!; done.
      - lia.
      - unfold fuel_of. lia. }
    intros newNode h1 [Hp1 Hn1]. simpl in Hn1.
    apply wp_bind_alloc. apply wp_alloc.
    set (h2 := h1 ++ [ArrN [root v; newNode]]).
    set (v' := mkVector (tail v) (CNode (length h1)) (len v) (uadd (shift v) shiftSize)).
    exists h2, v', (S d). split_and!; try done.
    { etrans; [exact Hp1|]. by apply prefix_app_r. }
    2:{ exists (length h1), newNode. split; [done|]. apply lookup_alloc_new. }
    unfold TrieN. cbn [len shift root v'].
    pose proof (cap_ge_32 d) as HC32.
    split_and!; try done; try lia.
    + rewrite Hs. unfold shiftSize. rewrite uadd_small; lia.
    + rewrite HlN. destruct HN32 as [q Hq]. exists (q + 1). lia.
    + rewrite cap_S. lia.
    + right. replace (S d - 1)%nat with d by lia. lia.
    + rewrite HlN.
      exists (length h1), [root v; newNode]. split_and!; try done.
      * apply lookup_alloc_new.
      * simpl. lia.
      * intros k Hk0. split.
        -- intros Hlt.
           assert (k = 0 \/ k = 1) as [->| ->] by nia.
           ++ exists (root v). split; [done|]. rewrite Z.mul_0_l.
              eapply node_ok_heap_mono with (h := h).
              { etrans; [exact Hp1|]. by apply prefix_app_r. }
              eapply node_ok_full; [| |exact Hn]; lia.
           ++ exists newNode. split; [done|].
              rewrite Z.mul_1_l, Z.add_0_l, <- Heq.
              eapply node_ok_heap_mono with (h := h1); [by apply prefix_app_r|].
              eapply node_ok_footprint; [|exact Hn1]. done.
        -- intros Hge. left. assert (2 <= k) by nia.
           apply lookup_ge_None_2. simpl. lia.
  - (* room in the trie: copy one path *)
    rewrite bool_decide_eq_false_2 by done.
    destruct d as [|d']; [lia|].
    apply wp_bind. eapply wp_mono.
    { rewrite Hs.
      apply (pushTail_spec (length h) xs N v (tail v) (drop (Z.to_nat N) xs) p d'
               HlN ltac:(lia) ltac:(lia) HN32 Htl Htsl Hts 0 (root v) _ h);
        try done; try lia.
      - eapply node_ok_footprint; [|exact Hn]. intros a _ Ha. exact Ha.
      - apply Z.divide_0_r.
      - unfold fuel_of. lia. }
    intros newRoot h1 [Hp1 Hn1]. apply wp_alloc.
    set (v' := mkVector (tail v) newRoot (len v) (shift v)).
    exists h1, v', (S d'). split_and!; try done.
    unfold TrieN. cbn [len shift root v'].
    assert (N + 32 <= cap (S d')) as Hroom.
    { destruct HN32 as [q Hq]. destruct (cap_divide_32 (S d')) as [qc Hqc]. lia. }
    split_and!; try done; try lia.
    + rewrite HlN. destruct HN32 as [q Hq]. exists (q + 1). lia.
    + rewrite HlN. eapply node_ok_footprint; [|exact Hn1]. done.
Qed.

Lemma TrieN_heap_mono s h h' v xs N d :
  h `prefix_of` h' -> TrieN s h v xs N d -> TrieN s h' v xs N d.
Proof.
  intros Hp (Hlen & Hb & Hs & Hd & HN32 & HN & Hc & Hm & Hn).
  unfold TrieN. split_and!; try done; try lia. by eapply node_ok_heap_mono.
Qed.

Lemma TrieN_fields s h v v' xs N d :
  len v' = len v -> shift v' = shift v -> root v' = root v ->
  TrieN s h v xs N d -> TrieN s h v' xs N d.
Proof. unfold TrieN. intros -> -> ->. done. Qed.

(** The vector made of the old tail plus a batch that fits in it. *)
Lemma batch_Vec (h : heap) v xs N d batch :
  VecN true h v xs N d ->
  (1 <= length batch)%nat -> len v - N + Z.of_nat (length batch) <= 32 ->
  len v + Z.of_nat (length batch) < 2 ^ 63 ->
  Vec true
    ((h ++ [ArrT (drop (Z.to_nat N) xs ++ batch)]) ++
       [VecS (mkVector (length h) (root v) (len v + Z.of_nat (length batch)) (shift v))])
    (S (length h)) (xs ++ batch).
Proof.
  intros [(Hlen & Hb & Hs & Hd & HN32 & HN & Hc & Hm & Hn) Ht] Hb1 Hroom Hb63.
  set (v' := mkVector _ _ _ _). set (h1 := h ++ _).
  assert (tailOffset v' = N) as HtO.
  { rewrite tailOffset_val by (cbn [len v']; lia). cbn [len v'].
    destruct HN32 as [q Hq].
    destruct (len v + Z.of_nat (length batch) <? 32) eqn:E.
    - apply Z.ltb_lt in E. lia.
    - apply Z.ltb_ge in E.
      assert ((len v + Z.of_nat (length batch) - 1) / 32 = q) as ->; [|lia].
      symmetry. apply Z.div_unique with (r := len v + Z.of_nat (length batch) - 1 - N); lia. }
  apply Vec_VecN. exists v', d. split.
  { replace (S (length h)) with (length h1)
      by (unfold h1; rewrite length_app; simpl; lia).
    apply lookup_alloc_new. }
  rewrite HtO. split.
  - unfold TrieN. cbn [len shift root v']. split_and!; try done; try lia.
    + rewrite length_app. lia.
    + eapply node_ok_heap_mono with (h := h).
      { apply prefix_app_r. by apply prefix_app_r. }
      eapply node_ok_below; [exact HN32|apply Z.divide_0_r|lia|lia| |exact Hn].
      intros j Hj. symmetry. apply lookup_app_l. lia.
  - cbn [tail v']. apply lookup_alloc_old.
    rewrite drop_app_le by lia. apply lookup_alloc_new.
Qed.

Lemma Append_loop_spec xs0 items :
  Z.of_nat (length xs0 + length items) < 2 ^ 63 ->
  forall fuel off p (h : heap),
    Vec true h p (xs0 ++ take (Z.to_nat off) items) ->
    0 <= off <= Z.of_nat (length items) ->
    (length items - Z.to_nat off <= fuel)%nat ->
    wp (Append_loop fuel items (Z.of_nat (length items)) off p) h
      (fun p' h' => h `prefix_of` h' /\ Vec true h' p' (xs0 ++ items)).
Proof.
  intros Hbound. set (itemLen := Z.of_nat (length items)).
  induction fuel as [|fuel IH]; intros off p h HV Hoff Hfuel.
  - cbn [Append_loop]. rewrite ltb_false by lia.
    apply wp_ret. split; [done|].
    rewrite take_ge in HV by lia. exact HV.
  - cbn [Append_loop].
    destruct (off <? itemLen) eqn:E; [apply Z.ltb_lt in E|apply Z.ltb_ge in E].
    2:{ apply wp_ret. split; [done|]. rewrite take_ge in HV by lia. exact HV. }
    set (ys := xs0 ++ take (Z.to_nat off) items) in *.
    assert (length ys = (length xs0 + Z.to_nat off)%nat) as Hys.
    { unfold ys. rewrite length_app, length_take. lia. }
    (* the round once the tail has room *)
    assert (forall (h1 : heap) p1 v1 N1 d1 tailFree (tailLen : Z),
      h `prefix_of` h1 -> h1 !! p1 = Some (VecS v1) ->
      VecN true h1 v1 ys N1 d1 ->
      tailFree = 32 - (len v1 - N1) -> 1 <= tailFree ->
      wp (let batchLen := uintMin (itemLen - off) tailFree in
          r <- lift (load_vec p1);;
          ts <- lift (load_arr (tail r));;
          newTail <- alloc (ArrT (ts ++ take (Z.to_nat batchLen)
                                          (drop (Z.to_nat off) items)));;
          result <- alloc (VecS (mkVector newTail (root r)
                                   (uadd (len r) batchLen) (shift r)));;
          Append_loop fuel items itemLen (uadd off batchLen) result) h1
        (fun p' h' => h `prefix_of` h' /\ Vec true h' p' (xs0 ++ items))) as Hstep.
    { intros h1 p1 v1 N1 d1 tailFree tailLen Hp1 Hv1 HVN HtF HtF1.
      pose proof HVN as [(Hlen & Hb & Hs & Hd & HN32 & HN & Hc & Hm & Hn) Ht].
      cbv zeta.
      set (batchLen := uintMin (itemLen - off) tailFree).
      assert (1 <= batchLen /\ batchLen <= itemLen - off /\ batchLen <= tailFree)
        as (HbL1 & HbL2 & HbL3).
      { unfold batchLen, uintMin. destruct (Z.ltb_spec (itemLen - off) tailFree); lia. }
      set (batch := take (Z.to_nat batchLen) (drop (Z.to_nat off) items)).
      assert (Z.of_nat (length batch) = batchLen) as HbLen.
      { unfold batch. rewrite length_take, length_drop. lia. }
      eapply wp_bind_lift; [by apply load_vec_ok|].
      eapply wp_bind_lift; [by apply load_arr_ok|].
      apply wp_bind_alloc. apply wp_bind_alloc.
      rewrite !uadd_small by lia.
      rewrite <- HbLen.
      pose proof (batch_Vec h1 v1 ys N1 d1 batch HVN ltac:(lia) ltac:(lia) ltac:(lia)) as HV'.
      set (h2 := (h1 ++ _) ++ _) in *.
      replace (length (h1 ++ [ArrT (drop (Z.to_nat N1) ys ++ batch)]))
        with (S (length h1)) by (rewrite length_app; simpl; lia).
      eapply wp_mono.
      { apply IH.
        - replace (xs0 ++ take (Z.to_nat (off + Z.of_nat (length batch))) items)
            with (ys ++ batch); [exact HV'|].
          rewrite HbLen. unfold ys, batch. rewrite <- app_assoc. f_equal.
          rewrite take_take_drop. f_equal. lia.
        - lia.
        - lia. }
      intros p' h' [Hp' HVf]. split; [|done].
      etrans; [exact Hp1|]. etrans; [|exact Hp'].
      unfold h2. apply prefix_app_r. by apply prefix_app_r. }
    apply Vec_VecN in HV as (v & d & Hv & HVN).
    pose proof HVN as [(Hlen & Hb & Hs & Hd & HN32 & HN & Hc & Hm & Hn) Ht].
    assert (0 <= len v < 2 ^ 63) as Hl by lia.
    pose proof (tailOffset_props v Hl) as (_ & _ & HNt & HNl).
    eapply wp_bind_lift; [by apply load_vec_ok|].
    unfold nodeSize. rewrite !usub_small by (rewrite ?usub_small; lia).
    apply wp_bind.
    destruct (32 - (len v - tailOffset v) =? 0) eqn:Efull;
      [apply Z.eqb_eq in Efull|apply Z.eqb_neq in Efull].
    + (* the tail is full: flush it *)
      assert (tailOffset v = len v - 32) as HNeq by lia.
      rewrite HNeq in HVN.
      apply wp_bind. eapply wp_mono.
      { apply (pushLeafNode_spec h p v ys d Hv ltac:(lia) HVN). }
      intros p' h' (h1 & v' & d' & -> & -> & Hp1 & Htl' & HT' & _).
      apply wp_bind_alloc.
      eapply wp_bind_lift.
      { apply load_vec_ok. apply lookup_alloc_old, lookup_alloc_new. }
      eapply wp_bind_write.
      { apply lookup_alloc_old, lookup_alloc_new. }
      apply wp_ret.
      rewrite insert_app_l by (rewrite length_app; simpl; lia).
      rewrite insert_alloc.
      set (v'' := mkVector _ (root v') (len v') (shift v')).
      pose proof HT' as (Hlen' & _).
      eapply (Hstep _ (length h1) v'' (len v) d' 32 0).
      * etrans; [exact Hp1|]. apply prefix_app_r. by apply prefix_app_r.
      * apply lookup_alloc_old, lookup_alloc_new.
      * split.
        -- eapply TrieN_heap_mono with (h := h1).
           { apply prefix_app_r. by apply prefix_app_r. }
           eapply TrieN_fields; [| | |exact HT']; done.
        -- cbn [tail v'']. rewrite drop_ge by lia.
           rewrite length_app. simpl.
           replace (length h1 + 1)%nat with (length (h1 ++ [VecS v'']))
             by (rewrite length_app; simpl; lia).
           apply lookup_alloc_new.
      * cbn [len v'']. lia.
      * lia.
    + apply wp_ret.
      eapply (Hstep h p v (tailOffset v) d _ (len v - tailOffset v)); try done. lia.
Qed.

(** [Append] on a vector that was built by appending only. *)
Lemma Append_spec (h : heap) p xs items :
  Vec true h p xs -> Z.of_nat (length xs + length items) < 2 ^ 63 ->
  wp (Append p items) h
    (fun p' h' => h `prefix_of` h' /\ Vec true h' p' (xs ++ items)).
Proof.
  intros HV Hb. unfold Append. rewrite to_uint_small by lia.
  apply Append_loop_spec; try lia; try done.
  by rewrite take_0, app_nil_r.
Qed.

Lemma Vec_empty (h : heap) :
  heap_ok h ->
  Vec true ((h ++ [ArrT []]) ++
            [VecS (mkVector (length h) emptyCommonNode 0 shiftSize)])
      (S (length h)) [].
Proof.
  intros Hok. apply Vec_VecN. eexists _, 1%nat. split.
  { replace (S (length h)) with (length (h ++ [ArrT (@nil T)]))
      by (rewrite length_app; simpl; lia).
    apply lookup_alloc_new. }
  split.
  - unfold TrieN. cbn. split_and!; try done; try lia.
    + apply Z.divide_0_r.
    + exists 0%nat, []. split_and!; try done.
      * apply lookup_alloc_old, lookup_alloc_old. exact Hok.
      * simpl. lia.
      * intros k Hk. split; [intros ?; pose proof (cap_pos 0); nia|].
        intros _. by left.
  - cbn. apply lookup_alloc_old, lookup_alloc_new.
Qed.

(** [NewVector] builds a vector that holds its arguments. *)
Lemma NewVector_spec (h : heap) items :
  heap_ok h -> Z.of_nat (length items) < 2 ^ 63 ->
  wp (NewVector items) h
    (fun p h' => h `prefix_of` h' /\ Vec true h' p items).
Proof.
  intros Hok Hb. unfold NewVector.
  apply wp_bind_alloc. apply wp_bind_alloc.
  replace (length (h ++ [ArrT []])) with (S (length h))
    by (rewrite length_app; simpl; lia).
  eapply wp_mono.
  { apply (Append_spec _ _ [] items); [by apply Vec_empty|simpl; lia]. }
  intros p h' [Hp HV]. split; [|done].
  etrans; [|exact Hp]. apply prefix_app_r. by apply prefix_app_r.
Qed.

(** ** Range *)

(** What a visitor does to a sequence: called on the elements in order
    until it asks to stop. *)
Fixpoint visit {S : Type} (f : S -> T -> bool * S) (s : S) (xs : list T) : S :=
  match xs with
  | [] => s
  | x :: rest =>
    let '(continue, s') := f s x in
    if continue then visit f s' rest else s'
  end.

Lemma Range_loop_spec {S : Type} sb (h : heap) p xs (f : S -> T -> bool * S) :
  Vec sb h p xs ->
  forall fuel i cur s,
    0 <= i <= Z.of_nat (length xs) ->
    (length xs - Z.to_nat i < fuel)%nat ->
    (i mod 32 <> 0 ->
       forall j, 0 <= j < Z.of_nat (length xs) -> j / 32 = i / 32 ->
                 cur !! Z.to_nat (j mod 32) = xs !! Z.to_nat j) ->
    Range_loop fuel p f i cur s h = Ok (visit f s (drop (Z.to_nat i) xs)).
Proof.
  intros HV. pose proof HV as (v & ts & d & Hv & Hlen & Hb & _).
  induction fuel as [|fuel IH]; intros i cur s Hi Hf Hcur; [lia|].
  cbn [Range_loop].
  rewrite (rbind_ok (load_vec p) _ h v) by by apply load_vec_ok.
  destruct (i <? len v) eqn:E; [apply Z.ltb_lt in E|apply Z.ltb_ge in E].
  2:{ rewrite drop_ge by lia. done. }
  destruct (lookup_lt_is_Some_2 xs (Z.to_nat i) ltac:(lia)) as [x Hx].
  assert (exists cur',
    (if Z.land i shiftBitMask =? 0
     then a <~ sliceFor p i;; load_arr a else rret cur) h = Ok cur' /\
    forall j, 0 <= j < Z.of_nat (length xs) -> j / 32 = i / 32 ->
              cur' !! Z.to_nat (j mod 32) = xs !! Z.to_nat j) as (cur' & Hc & Hcur').
  { rewrite land_mask by lia.
    destruct (i mod 32 =? 0) eqn:E0; [apply Z.eqb_eq in E0|apply Z.eqb_neq in E0].
    - destruct (sliceFor_spec sb h p xs i HV ltac:(lia)) as (a & ys & Hsl & Ha & Hy).
      exists ys. split; [|exact Hy].
      rewrite (rbind_ok _ _ h a) by exact Hsl. by apply load_arr_ok.
    - exists cur. split; [done|]. by apply Hcur. }
  rewrite (rbind_ok _ _ h cur') by exact Hc.
  rewrite (rbind_ok _ _ h x).
  2:{ unfold of_result, index. rewrite land_mask by lia.
      rewrite Hcur' by (done || lia). by rewrite Hx. }
  rewrite (drop_S xs x (Z.to_nat i)) by exact Hx. cbn [visit].
  destruct (f s x) as [[|] s']; [|done].
  rewrite uadd_small by lia.
  rewrite IH; [f_equal; f_equal; f_equal; lia|lia|lia|].
  intros Hne j Hj Hji. apply Hcur'; [done|]. rewrite Hji.
  (* i + 1 is not a block start, so it lies in the block of i *)
  pose proof (Z.div_mod i 32 ltac:(lia)). pose proof (Z.mod_pos_bound i 32 ltac:(lia)).
  pose proof (Z.div_mod (i + 1) 32 ltac:(lia)).
  pose proof (Z.mod_pos_bound (i + 1) 32 ltac:(lia)).
  nia.
Qed.

(** [Range] calls the visitor on the elements in index order and stops
    when the visitor asks for it. *)
Lemma Range_spec {S : Type} sb (h : heap) p xs (f : S -> T -> bool * S) s :
  Vec sb h p xs -> Range p f s h = Ok (visit f s xs).
Proof.
  intros HV. pose proof HV as (v & ts & d & Hv & Hlen & Hb & _).
  unfold Range. rewrite (rbind_ok (load_vec p) _ h v) by by apply load_vec_ok.
  rewrite (Range_loop_spec sb h p xs f HV); [done|lia| |done].
  unfold fuel_of. lia.
Qed.

End VECTOR_SPEC.

Section MAP_SPEC.

Context {K V : Type} `{EqDecision K}.
Variable zeroV : V.

Abbreviation item := (@MapItem K V).
Abbreviation bucket := (option (list item)).
Abbreviation mheap := (list (@obj bucket)).

(** ** Hash positions *)

Lemma genericHash_range {A : Type} (x : A) : 0 <= genericHash x < 2 ^ 32.
Proof. unfold genericHash. apply Z.mod_pos_bound. lia. Qed.

Lemma hashPos_ok {A : Type} (k : A) n :
  1 <= n < 2 ^ 63 -> exists i, hashPos k n = Ok i /\ 0 <= i < n.
Proof.
  intros Hn. unfold hashPos. rewrite to_uint_small by lia.
  rewrite (proj2 (Z.eqb_neq n 0)) by lia.
  pose proof (Z.mod_pos_bound (genericHash k) n ltac:(lia)).
  eexists. split; [reflexivity|]. rewrite to_int_small; lia.
Qed.

(** ** One bucket *)

Lemma keyIndex_Some k (l : list item) ix :
  keyIndex k l = Some ix -> exists it, l !! ix = Some it /\ Key it = k.
Proof.
  revert ix. induction l as [|it l IH]; intros ix; simpl; [done|].
  case_bool_decide as Hk.
  - intros [= <-]. eauto.
  - destruct (keyIndex k l) as [j|]; simpl; [|done].
    intros [= <-]. by apply IH.
Qed.

Lemma keyIndex_loadBucket k (l : list item) :
  keyIndex k l = None <-> loadBucket k l = None.
Proof.
  induction l as [|it l IH]; simpl; [done|].
  repeat case_bool_decide; try done; try congruence.
  destruct (keyIndex k l); simpl; [|tauto].
  split; [done|]. intros Hl. apply IH in Hl. done.
Qed.

Lemma loadBucket_None k (l : list item) :
  loadBucket k l = None <-> k ∉ (Key <$> l).
Proof.
  induction l as [|it l IH]; simpl.
  - split; [intros _; apply not_elem_of_nil|done].
  - rewrite elem_of_cons. case_bool_decide as Hk.
    + split; [done|]. intros Hn. destruct Hn. by left.
    + rewrite IH. split; [|tauto]. intros Hn [?|?]; [congruence|done].
Qed.

Lemma loadBucket_Some k v (l : list item) :
  loadBucket k l = Some v -> mkMapItem k v ∈ l.
Proof.
  induction l as [|it l IH]; simpl; [done|].
  case_bool_decide as Hk.
  - intros [= <-]. subst k. destruct it. by left.
  - intros Hl. right. by apply IH.
Qed.

Lemma loadBucket_insert k v (l : list item) ix k' :
  keyIndex k l = Some ix ->
  loadBucket k' (<[ix := mkMapItem k v]> l) =
    if decide (k' = k) then Some v else loadBucket k' l.
Proof.
  revert ix. induction l as [|it l IH]; intros ix; simpl; [done|].
  case_bool_decide as Hk.
  - intros [= <-]. simpl. subst k.
    repeat case_bool_decide; destruct (decide _); try done; congruence.
  - destruct (keyIndex k l) as [j|] eqn:Ej; simpl; [|done].
    intros [= <-]. simpl. rewrite (IH j eq_refl).
    repeat case_bool_decide; destruct (decide _); try done; congruence.
Qed.

Lemma keys_insert k v (l : list item) ix :
  keyIndex k l = Some ix -> Key <$> <[ix := mkMapItem k v]> l = Key <$> l.
Proof.
  intros Hix. destruct (keyIndex_Some _ _ _ Hix) as (it & Hit & Hk).
  rewrite list_fmap_insert. apply list_insert_id.
  rewrite list_lookup_fmap, Hit. simpl. by rewrite Hk.
Qed.

Lemma loadBucket_snoc k v (l : list item) k' :
  loadBucket k l = None ->
  loadBucket k' (l ++ [mkMapItem k v]) =
    if decide (k' = k) then Some v else loadBucket k' l.
Proof.
  induction l as [|it l IH]; simpl.
  - intros _. case_bool_decide; destruct (decide _); try done; congruence.
  - case_bool_decide as Hk; [done|]. intros Hl. rewrite (IH Hl).
    case_bool_decide; destruct (decide _); try done; congruence.
Qed.

Lemma loadBucket_filter k (l : list item) k' :
  loadBucket k' (filter (fun it => Key it <> k) l) =
    if decide (k' = k) then None else loadBucket k' l.
Proof.
  induction l as [|it l IH]; simpl.
  - by destruct (decide _).
  - rewrite filter_cons. destruct (decide (Key it <> k)) as [Hne|Heq]; simpl.
    + rewrite IH. case_bool_decide; destruct (decide _); try done; congruence.
    + rewrite IH. apply dec_stable in Heq.
      case_bool_decide; destruct (decide _); try done; congruence.
Qed.

Lemma filter_keys_elem k (l : list item) x :
  x ∈ (Key <$> filter (fun it => Key it <> k) l) -> x ∈ (Key <$> l).
Proof.
  rewrite !list_elem_of_fmap. intros (it & -> & Hit).
  apply list_elem_of_filter in Hit as [_ Hit]. eauto.
Qed.

Lemma filter_keys_NoDup k (l : list item) :
  NoDup (Key <$> l) -> NoDup (Key <$> filter (fun it => Key it <> k) l).
Proof.
  induction l as [|it l IH]; simpl; [done|].
  rewrite NoDup_cons. intros [Hn Hl]. rewrite filter_cons.
  destruct (decide _); [|by apply IH].
  simpl. apply NoDup_cons. split; [|by apply IH].
  intros Hin. apply Hn. by eapply filter_keys_elem.
Qed.

(** With distinct keys, filtering out [k] removes one item when [k] is in
    the bucket and none otherwise. *)
Lemma filter_length k (l : list item) :
  NoDup (Key <$> l) ->
  Z.of_nat (length l) - Z.of_nat (length (filter (fun it => Key it <> k) l)) =
    match loadBucket k l with Some _ => 1 | None => 0 end.
Proof.
  induction l as [|it l IH]; simpl; [done|].
  rewrite NoDup_cons. intros [Hn Hl]. rewrite filter_cons.
  specialize (IH Hl).
  destruct (decide (Key it <> k)) as [Hne|Heq]; simpl.
  - rewrite bool_decide_eq_false_2 by done. lia.
  - apply dec_stable in Heq. rewrite bool_decide_eq_true_2 by done.
    assert (loadBucket k l = None) as Hnone.
    { apply loadBucket_None. by rewrite <- Heq. }
    rewrite Hnone in IH. lia.
Qed.

Lemma loadBucket_elem k v (l : list item) :
  NoDup (Key <$> l) -> mkMapItem k v ∈ l -> loadBucket k l = Some v.
Proof.
  induction l as [|it l IH]; simpl.
  - intros _ Hin. by apply elem_of_nil in Hin.
  - rewrite NoDup_cons, elem_of_cons. intros [Hn Hl] [Heq|Hin].
    + subst it. simpl. by rewrite bool_decide_eq_true_2.
    + case_bool_decide as Hk; [|by apply IH].
      exfalso. apply Hn. apply list_elem_of_fmap.
      exists (mkMapItem k v). split; [by rewrite Hk|done].
Qed.

Lemma elem_of_insert_inv {A} (l : list A) i x y :
  y ∈ <[i := x]> l -> y = x \/ y ∈ l.
Proof.
  intros Hy. apply list_elem_of_lookup in Hy as [j Hj].
  destruct (decide (i = j)) as [->|Hne].
  - left. apply lookup_lt_Some in Hj as Hlt. rewrite length_insert in Hlt.
    rewrite list_lookup_insert_eq in Hj by done. congruence.
  - right. rewrite list_lookup_insert_ne in Hj by done.
    by eapply list_elem_of_lookup_2.
Qed.

(** ** A vector of buckets *)

Fixpoint all_items (bs : list bucket) : list item :=
  match bs with
  | [] => []
  | b :: rest => bucketItems b ++ all_items rest
  end.

(** The value the buckets hold for a key: what [Load] finds. *)
Definition lookupB (bs : list bucket) (k : K) : option V :=
  match hashPos k (Z.of_nat (length bs)) with
  | Ok i =>
    match bs !! Z.to_nat i with
    | Some b => loadBucket k (bucketItems b)
    | None => None
    end
  | Panic _ => None
  end.

(** Bucket [i] of [n]: distinct keys, each hashing to [i]. *)
Definition bucket_ok (n : Z) (i : nat) (b : bucket) : Prop :=
  NoDup (Key <$> bucketItems b) /\
  forall it, it ∈ bucketItems b -> hashPos (Key it) n = Ok (Z.of_nat i).

Definition buckets_ok (bs : list bucket) : Prop :=
  (1 <= length bs)%nat /\ Z.of_nat (length bs) < 2 ^ 60 /\
  forall i b, bs !! i = Some b -> bucket_ok (Z.of_nat (length bs)) i b.

Lemma buckets_ok_pos bs k :
  buckets_ok bs ->
  exists i b, hashPos k (Z.of_nat (length bs)) = Ok (Z.of_nat i) /\
              bs !! i = Some b /\ lookupB bs k = loadBucket k (bucketItems b).
Proof.
  intros (Hl1 & Hl2 & _).
  destruct (hashPos_ok k (Z.of_nat (length bs)) ltac:(lia)) as (i & Hi & Hr).
  destruct (lookup_lt_is_Some_2 bs (Z.to_nat i) ltac:(lia)) as [b Hb].
  exists (Z.to_nat i), b. rewrite Z2Nat.id by lia. split_and!; try done.
  unfold lookupB. by rewrite Hi, Hb.
Qed.

Lemma length_all_items_insert (bs : list bucket) i b b' :
  bs !! i = Some b ->
  Z.of_nat (length (all_items (<[i := b']> bs))) =
    Z.of_nat (length (all_items bs)) - Z.of_nat (length (bucketItems b))
      + Z.of_nat (length (bucketItems b')).
Proof.
  revert i. induction bs as [|b0 bs IH]; intros [|i]; simpl; try done.
  - intros [= ->]. rewrite !length_app. lia.
  - intros Hb. rewrite !length_app, Nat2Z.inj_add, (IH i Hb). lia.
Qed.

Lemma elem_of_all_items (bs : list bucket) it :
  it ∈ all_items bs <-> exists j b, bs !! j = Some b /\ it ∈ bucketItems b.
Proof.
  induction bs as [|b0 bs IH]; simpl.
  - split; [intros Hin; by apply elem_of_nil in Hin|by intros (j & b & ? & _)].
  - rewrite elem_of_app, IH. split.
    + intros [Hin|(j & b & Hj & Hin)]; [by exists 0%nat, b0|by exists (S j), b].
    + intros ([|j] & b & Hj & Hin); simpl in Hj; [left; congruence|right; eauto].
Qed.

Lemma all_items_NoDup_off (n : Z) (bs : list bucket) :
  forall off : nat,
    (forall i b, bs !! i = Some b -> bucket_ok n (off + i) b) ->
    NoDup (Key <$> all_items bs) /\
    forall it, it ∈ all_items bs ->
      exists j : nat, (off <= j)%nat /\ hashPos (Key it) n = Ok (Z.of_nat j).
Proof.
  induction bs as [|b0 bs IH]; intros off Hok; simpl.
  - split; [apply NoDup_nil_2|]. intros it Hin. by apply elem_of_nil in Hin.
  - destruct (Hok 0%nat b0 eq_refl) as [Hnd0 Hpl0].
    destruct (IH (S off)) as [Hnd Hpl].
    { intros i b Hb. replace (S off + i)%nat with (off + S i)%nat by lia.
      by apply Hok. }
    split.
    + rewrite fmap_app. apply NoDup_app. split_and!; try done.
      intros x Hx0 Hx.
      apply list_elem_of_fmap in Hx0 as (it0 & -> & Hit0).
      apply list_elem_of_fmap in Hx as (it & Heq & Hit).
      apply Hpl0 in Hit0. apply Hpl in Hit as (j & Hj & Hit).
      rewrite Heq, Hit in Hit0. injection Hit0. lia.
    + intros it Hin. apply elem_of_app in Hin as [Hin|Hin].
      * exists off. split; [lia|]. rewrite (Hpl0 it Hin). f_equal. lia.
      * destruct (Hpl it Hin) as (j & Hj & Hit). exists j. split; [lia|done].
Qed.

Lemma all_items_NoDup bs : buckets_ok bs -> NoDup (Key <$> all_items bs).
Proof.
  intros (_ & _ & Hok).
  by apply (all_items_NoDup_off (Z.of_nat (length bs)) bs 0%nat).
Qed.

(** Looking a key up in its bucket is looking it up among all items. *)
Lemma lookupB_all_items bs k :
  buckets_ok bs -> lookupB bs k = loadBucket k (all_items bs).
Proof.
  intros Hok. pose proof (all_items_NoDup bs Hok) as Hnd.
  destruct (buckets_ok_pos bs k Hok) as (i & b & Hi & Hb & ->).
  destruct Hok as (_ & _ & Hok).
  destruct (loadBucket k (bucketItems b)) as [v|] eqn:El.
  - symmetry. apply loadBucket_elem; [done|].
    apply elem_of_all_items. exists i, b. split; [done|].
    by apply loadBucket_Some.
  - symmetry. apply loadBucket_None. intros Hin.
    apply list_elem_of_fmap in Hin as (it & Hk & Hit).
    apply elem_of_all_items in Hit as (j & b' & Hj & Hit).
    destruct (Hok j b' Hj) as [_ Hpl]. specialize (Hpl it Hit).
    rewrite <- Hk, Hi in Hpl. injection Hpl as Hij.
    assert (j = i) as -> by lia. rewrite Hb in Hj. injection Hj as <-.
    apply loadBucket_None in El. apply El.
    apply list_elem_of_fmap. eauto.
Qed.

Lemma buckets_ok_insert bs i b' :
  buckets_ok bs -> (i < length bs)%nat ->
  bucket_ok (Z.of_nat (length bs)) i b' ->
  buckets_ok (<[i := b']> bs).
Proof.
  intros (Hl1 & Hl2 & Hok) Hi Hb'. unfold buckets_ok.
  rewrite length_insert. split_and!; try done.
  intros j b Hj. destruct (decide (i = j)) as [->|Hne].
  - rewrite list_lookup_insert_eq in Hj by done. by injection Hj as <-.
  - rewrite list_lookup_insert_ne in Hj by done. by apply Hok.
Qed.

(** Replacing the bucket of key [k] changes the lookup of [k] only. *)
Lemma lookupB_set bs i (b b' : bucket) k (o : option V) :
  bs !! i = Some b ->
  hashPos k (Z.of_nat (length bs)) = Ok (Z.of_nat i) ->
  (forall k', loadBucket k' (bucketItems b') =
              if decide (k' = k) then o else loadBucket k' (bucketItems b)) ->
  forall k', lookupB (<[i := b']> bs) k' =
             if decide (k' = k) then o else lookupB bs k'.
Proof.
  intros Hb Hk Hload k'. unfold lookupB. rewrite length_insert.
  apply lookup_lt_Some in Hb as Hlt.
  destruct (decide (k' = k)) as [->|Hne].
  - rewrite Hk, Nat2Z.id, list_lookup_insert_eq by done.
    rewrite Hload. by rewrite decide_True.
  - destruct (hashPos k' (Z.of_nat (length bs))) as [j|]; [|done].
    destruct (decide (Z.to_nat j = i)) as [->|Hji].
    + rewrite list_lookup_insert_eq by done. rewrite Hb, Hload.
      by rewrite decide_False.
    + by rewrite list_lookup_insert_ne.
Qed.

(** ** The bucket builder *)

Definition BOk (b : @privateItemBuckets K V) : Prop :=
  buckets_ok (buckets b) /\
  length_ b = Z.of_nat (length (all_items (buckets b))).

Definition upd (f : K -> option V) (k : K) (o : option V) : K -> option V :=
  fun k' => if decide (k' = k) then o else f k'.

Definition found {A} (o : option A) : bool :=
  match o with Some _ => true | None => false end.

Lemma AddItem_spec b (it : item) :
  BOk b -> length_ b + 1 < 2 ^ 63 ->
  exists b',
    AddItem b it = Ok b' /\ BOk b' /\
    length (buckets b') = length (buckets b) /\
    (forall k', lookupB (buckets b') k' =
                upd (lookupB (buckets b)) (Key it) (Some (Value it)) k') /\
    length_ b' = length_ b +
                 (if found (lookupB (buckets b) (Key it)) then 0 else 1).
Proof.
  intros [Hok Hcnt] Hb63. destruct it as [k v]. cbn [Key Value].
  destruct (buckets_ok_pos (buckets b) k Hok) as (i & bk & Hi & Hbk & Hlk).
  apply lookup_lt_Some in Hbk as Hlt.
  pose proof Hok as (Hl1 & Hl2 & Hoks).
  destruct (Hoks i bk Hbk) as [Hnd Hpl].
  unfold AddItem. cbn [Key Value]. rewrite Hi. unfold index. rewrite Nat2Z.id, Hbk.
  (* the three ways the bucket is replaced share the rest of the proof *)
  assert (forall (items' : list item) d b',
    b' = mkBuckets (<[i := Some items']> (buckets b)) (length_ b + d) ->
    NoDup (Key <$> items') ->
    (forall x, x ∈ items' -> x = mkMapItem k v \/ x ∈ bucketItems bk) ->
    (forall k', loadBucket k' items' =
                if decide (k' = k) then Some v
                else loadBucket k' (bucketItems bk)) ->
    Z.of_nat (length items') = Z.of_nat (length (bucketItems bk)) + d ->
    d = (if found (lookupB (buckets b) k) then 0 else 1) ->
    BOk b' /\ length (buckets b') = length (buckets b) /\
    (forall k', lookupB (buckets b') k' =
                upd (lookupB (buckets b)) k (Some v) k') /\
    length_ b' = length_ b +
                 (if found (lookupB (buckets b) k) then 0 else 1)) as Hgen.
  { intros items' d b' -> Hnd' Hin' Hload' Hlen' Hd. cbn [buckets length_].
    split_and!.
    - split.
      + apply buckets_ok_insert; [done|done|]. split; [done|].
        intros x Hx. destruct (Hin' x Hx) as [->|Hx']; [done|by apply Hpl].
      + cbn [buckets length_].
        rewrite (length_all_items_insert _ _ bk) by done. simpl. lia.
    - by rewrite length_insert.
    - apply (lookupB_set (buckets b) i bk (Some items')); done.
    - by rewrite Hd. }
  destruct bk as [items|]; simpl in *.
  - destruct (keyIndex k items) as [keyIx|] eqn:Ek.
    + (* the key is in the bucket: overwrite in place *)
      eexists. split; [reflexivity|].
      apply (Hgen (<[keyIx := mkMapItem k v]> items) 0).
      * f_equal. lia.
      * by rewrite keys_insert.
      * intros x Hx. apply elem_of_insert_inv in Hx as [->|?]; [by left|by right].
      * intros k'. by apply loadBucket_insert.
      * rewrite length_insert. lia.
      * rewrite Hlk. destruct (loadBucket k items) eqn:El; [done|].
        apply keyIndex_loadBucket in El. congruence.
    + (* a new key: append to the bucket *)
      apply keyIndex_loadBucket in Ek.
      eexists. split; [reflexivity|].
      apply (Hgen (items ++ [mkMapItem k v]) 1).
      * f_equal. unfold iadd. rewrite to_int_small; lia.
      * rewrite fmap_app. apply NoDup_app. split_and!; [done| |apply NoDup_singleton].
        intros x Hx Hx'. apply list_elem_of_singleton in Hx'. subst x.
        by apply loadBucket_None in Ek.
      * intros x Hx. apply elem_of_app in Hx as [?|Hx]; [by right|left].
        by apply list_elem_of_singleton in Hx.
      * intros k'. by apply loadBucket_snoc.
      * rewrite length_app. simpl. lia.
      * by rewrite Hlk, Ek.
  - (* no bucket yet *)
    eexists. split; [reflexivity|].
    apply (Hgen [mkMapItem k v] 1).
    + f_equal. unfold iadd. rewrite to_int_small; lia.
    + apply NoDup_singleton.
    + intros x Hx. left. by apply list_elem_of_singleton in Hx.
    + intros k'. simpl.
      case_bool_decide; destruct (decide _); try done; congruence.
    + simpl. lia.
    + by rewrite Hlk.
Qed.

(** Adding many items.  With distinct keys that the builder does not hold
    yet, every item counts and can be looked up afterwards. *)
Lemma AddItems_spec (items : list item) :
  forall b,
    BOk b -> length_ b + Z.of_nat (length items) < 2 ^ 63 ->
    exists b',
      AddItems b items = Ok b' /\ BOk b' /\
      length (buckets b') = length (buckets b) /\
      length_ b <= length_ b' <= length_ b + Z.of_nat (length items) /\
      (NoDup (Key <$> items) ->
       (forall it, it ∈ items -> lookupB (buckets b) (Key it) = None) ->
       length_ b' = length_ b + Z.of_nat (length items) /\
       forall k', lookupB (buckets b') k' =
                  match loadBucket k' items with
                  | Some v => Some v
                  | None => lookupB (buckets b) k'
                  end).
Proof.
  induction items as [|it items IH]; intros b Hok Hb63.
  - exists b. simpl. split_and!; try done; try lia.
    intros _ _. split; [lia|done].
  - destruct (AddItem_spec b it Hok) as (b1 & Hadd & Hok1 & Hl1 & Hlk1 & Hc1).
    { simpl in Hb63. lia. }
    assert (length_ b <= length_ b1 <= length_ b + 1) as Hc1'
      by (destruct (found _); lia).
    destruct (IH b1 Hok1) as (b' & Hadds & Hok' & Hl' & Hc' & Hfresh).
    { simpl in Hb63. lia. }
    exists b'. simpl. rewrite Hadd. split_and!; try done; try lia.
    intros Hnd Hfr. apply NoDup_cons in Hnd as [Hnin Hnd].
    destruct Hfresh as [Hc2 Hlk2]; [done| |].
    { intros it' Hit'. rewrite Hlk1. unfold upd.
      rewrite decide_False.
      - apply Hfr. by right.
      - intros Heq. apply Hnin. apply list_elem_of_fmap. eauto. }
    rewrite (Hfr it) in Hc1 by by left. simpl in Hc1.
    split; [lia|].
    intros k'. rewrite Hlk2, Hlk1. unfold upd.
    case_bool_decide as Hk; destruct (decide _) as [Hd|Hd]; try congruence.
    assert (loadBucket k' items = None) as ->; [|done].
    apply loadBucket_None. by rewrite Hd.
Qed.

Lemma AddItems_app (l1 l2 : list item) b :
  AddItems b (l1 ++ l2) =
    match AddItems b l1 with Ok b' => AddItems b' l2 | Panic e => Panic e end.
Proof.
  revert b. induction l1 as [|it l1 IH]; intros b; simpl; [done|].
  destruct (AddItem b it); [apply IH|done].
Qed.

(** The range of [AddItemsFromMap] adds all items of all buckets. *)
Lemma visit_addBucket (bs : list bucket) b :
  visit addBucket (Ok b) bs = AddItems b (all_items bs).
Proof.
  revert b. induction bs as [|b0 bs IH]; intros b; simpl; [done|].
  rewrite AddItems_app.
  destruct (AddItems b (bucketItems b0)); [apply IH|done].
Qed.

Lemma all_items_replicate n : all_items (replicate n (@None (list item))) = [].
Proof. induction n; simpl; done. Qed.

Lemma newPrivateItemBuckets_spec itemCount :
  0 <= itemCount < 2 ^ 60 ->
  let b0 := @newPrivateItemBuckets K V itemCount in
  BOk b0 /\ length_ b0 = 0 /\
  Z.of_nat (length (buckets b0)) = itemCount / 5 + 1 /\
  forall k, lookupB (buckets b0) k = None.
Proof.
  intros Hc. cbv zeta.
  unfold newPrivateItemBuckets, initialMapLoadFactor, iadd. simpl.
  rewrite Z.quot_div_nonneg by lia.
  assert (0 <= itemCount / 5 <= itemCount).
  { split; [apply Z.div_pos; lia|]. apply Z.div_le_upper_bound; lia. }
  pose proof (Z.mul_div_le itemCount 5 ltac:(lia)).
  rewrite to_int_small by lia.
  rewrite length_replicate.
  split_and!; try done; try lia.
  - split; simpl; [|by rewrite all_items_replicate].
    unfold buckets_ok. rewrite length_replicate. split_and!; try lia.
    intros i b Hb. apply lookup_replicate in Hb as [-> _].
    split; simpl; [apply NoDup_nil_2|]. intros it Hin. by apply elem_of_nil in Hin.
  - intros k. unfold lookupB.
    destruct (hashPos _ _); [|done].
    destruct (replicate _ _ !! _) as [b|] eqn:Eb; [|done].
    apply lookup_replicate in Eb as [-> _]. done.
Qed.

(** ** Maps in the heap *)

(** [MapRep h m f n]: in heap [h], the handle [m] is a map that holds the
    value [f k] for every key [k], [n] keys in all. *)
Definition MapRep (h : mheap) (m : loc) (f : K -> option V) (n : Z) : Prop :=
  exists mp bs,
    heap_ok h /\ h !! m = Some (MapS mp) /\
    Vec false h (backingVector mp) bs /\ buckets_ok bs /\
    mlen mp = n /\ n = Z.of_nat (length (all_items bs)) /\ n < 2 ^ 60 /\
    forall k, f k = lookupB bs k.

Lemma heap_ok_mono (h h' : mheap) : h `prefix_of` h' -> heap_ok h -> heap_ok h'.
Proof. intros Hp Hok. by eapply lookup_ext. Qed.

Lemma MapRep_heap_mono h h' m f n :
  h `prefix_of` h' -> MapRep h m f n -> MapRep h' m f n.
Proof.
  intros Hp (mp & bs & Hok & Hm & HV & Hbs & Hn & Hcnt & Hb & Hf).
  exists mp, bs. split_and!; try done.
  - by eapply heap_ok_mono.
  - by eapply lookup_ext.
  - by eapply Vec_heap_mono.
Qed.

Lemma load_map_ok (h : mheap) m mp : h !! m = Some (MapS mp) -> load_map m h = Ok mp.
Proof. unfold load_map. by intros ->. Qed.

Lemma MapLen_spec h m f n : MapRep h m f n -> MapLen m h = Ok n.
Proof.
  intros (mp & bs & Hok & Hm & HV & Hbs & Hn & _).
  unfold MapLen. rewrite (rbind_ok _ _ h mp) by by apply load_map_ok.
  unfold rret. by rewrite Hn.
Qed.

Lemma pos_spec (h : mheap) m mp bs sb k :
  h !! m = Some (MapS mp) -> Vec sb h (backingVector mp) bs -> buckets_ok bs ->
  exists i b,
    pos m k h = Ok (Z.of_nat i) /\
    hashPos k (Z.of_nat (length bs)) = Ok (Z.of_nat i) /\
    bs !! i = Some b /\ lookupB bs k = loadBucket k (bucketItems b) /\
    Get (backingVector mp) (Z.of_nat i) h = Ok b.
Proof.
  intros Hm HV Hbs.
  destruct (buckets_ok_pos bs k Hbs) as (i & b & Hi & Hb & Hlk).
  exists i, b. split_and!; try done.
  - unfold pos. rewrite (rbind_ok _ _ h mp) by by apply load_map_ok.
    rewrite (rbind_ok _ _ h (Z.of_nat (length bs))) by by eapply Vec_len.
    done.
  - eapply Get_spec; [exact HV| |lia]. by rewrite Nat2Z.id.
Qed.

(** [Load] finds the value the map holds for the key, or reports that
    there is none together with the zero value. *)
Lemma Load_spec h m f n k :
  MapRep h m f n ->
  Load zeroV m k h =
    Ok (match f k with Some v => (v, true) | None => (zeroV, false) end).
Proof.
  intros (mp & bs & Hok & Hm & HV & Hbs & Hn & Hcnt & Hb & Hf).
  destruct (pos_spec h m mp bs false k Hm HV Hbs) as (i & b & Hpos & Hi & Hbi & Hlk & Hget).
  unfold Load. rewrite (rbind_ok _ _ h mp) by by apply load_map_ok.
  rewrite (rbind_ok _ _ h (Z.of_nat i)) by done.
  rewrite (rbind_ok _ _ h b) by done.
  rewrite Hf, Hlk. destruct b as [items|]; simpl; [|done].
  by destruct (loadBucket k items).
Qed.

(** Publishing a builder: a vector of its buckets and a map on top. *)
Lemma publish_spec (h : mheap) b :
  heap_ok h -> BOk b -> length_ b < 2 ^ 60 ->
  wp (v <- NewVector (buckets b);; alloc (MapS (mkMap v (length_ b)))) h
    (fun m' h' => h `prefix_of` h' /\
                  MapRep h' m' (lookupB (buckets b)) (length_ b)).
Proof.
  intros Hok [Hbs Hcnt] Hb.
  pose proof Hbs as (Hl1 & Hl2 & _).
  apply wp_bind. eapply wp_mono.
  { apply NewVector_spec; [done|lia]. }
  intros v h1 [Hp1 HV]. apply wp_alloc.
  split; [etrans; [exact Hp1|]; by apply prefix_app_r|].
  exists (mkMap v (length_ b)), (buckets b). split_and!; try done.
  - eapply heap_ok_mono; [|exact Hok]. etrans; [exact Hp1|]. by apply prefix_app_r.
  - apply lookup_alloc_new.
  - simpl. eapply Vec_heap_mono with (h := h1); [by apply prefix_app_r|].
    by apply Vec_weaken.
Qed.

Lemma AddItemsFromMap_spec h m f n b0 :
  MapRep h m f n -> BOk b0 -> length_ b0 = 0 ->
  (forall k, lookupB (buckets b0) k = None) ->
  exists b1,
    AddItemsFromMap b0 m h = Ok b1 /\ BOk b1 /\
    length (buckets b1) = length (buckets b0) /\
    length_ b1 = n /\ forall k, lookupB (buckets b1) k = f k.
Proof.
  intros (mp & bs & Hok & Hm & HV & Hbs & Hn & Hcnt & Hb & Hf) Hb0 Hl0 Hemp.
  destruct (AddItems_spec (all_items bs) b0 Hb0 ltac:(lia))
    as (b1 & Hadd & Hb1 & Hlen1 & Hc1 & Hfresh).
  destruct Hfresh as [Hc Hlk]; [by apply all_items_NoDup|by intros; apply Hemp|].
  exists b1. split_and!; try done; try lia.
  - unfold AddItemsFromMap.
    rewrite (rbind_ok _ _ h mp) by by apply load_map_ok.
    rewrite (rbind_ok _ _ h (Ok b1)).
    + done.
    + rewrite (Range_spec false h _ bs) by done.
      by rewrite visit_addBucket, Hadd.
  - intros k. rewrite Hlk, Hemp, Hf, lookupB_all_items by done.
    by destruct (loadBucket k (all_items bs)).
Qed.

Lemma MapRep_ext h m f g n n' :
  (forall k, f k = g k) -> n = n' -> MapRep h m f n -> MapRep h m g n'.
Proof.
  intros Hfg <- (mp & bs & Hok & Hm & HV & Hbs & Hn & Hcnt & Hb & Hf).
  exists mp, bs. split_and!; try done. intros k. by rewrite <- Hfg.
Qed.

(** The map made by replacing the bucket of key [k] in the vector. *)
Lemma set_bucket_rep (h h1 : mheap) bv bs i (b b' : bucket) k o n' :
  heap_ok h -> h `prefix_of` h1 -> buckets_ok bs ->
  bs !! i = Some b ->
  hashPos k (Z.of_nat (length bs)) = Ok (Z.of_nat i) ->
  bucket_ok (Z.of_nat (length bs)) i b' ->
  (forall k', loadBucket k' (bucketItems b') =
              if decide (k' = k) then o else loadBucket k' (bucketItems b)) ->
  n' = Z.of_nat (length (all_items bs)) - Z.of_nat (length (bucketItems b))
       + Z.of_nat (length (bucketItems b')) ->
  n' < 2 ^ 60 ->
  Vec false h1 bv (<[i := b']> bs) ->
  MapRep (h1 ++ [MapS (mkMap bv n')]) (length h1) (upd (lookupB bs) k o) n'.
Proof.
  intros Hok Hp Hbs Hb Hk Hb' Hload Hn' Hb60 HV.
  apply lookup_lt_Some in Hb as Hlt.
  exists (mkMap bv n'), (<[i := b']> bs). split_and!; try done.
  - eapply heap_ok_mono; [|exact Hok]. etrans; [exact Hp|]. by apply prefix_app_r.
  - apply lookup_alloc_new.
  - simpl. eapply Vec_heap_mono with (h := h1); [by apply prefix_app_r|done].
  - by apply buckets_ok_insert.
  - by rewrite (length_all_items_insert bs i b).
  - intros k'. unfold upd. symmetry. by apply (lookupB_set bs i b b').
Qed.

Lemma imul_small a b : - 2 ^ 63 <= a * b < 2 ^ 63 -> imul a b = a * b.
Proof. apply to_int_small. Qed.

Lemma iadd_small a b : - 2 ^ 63 <= a + b < 2 ^ 63 -> iadd a b = a + b.
Proof. apply to_int_small. Qed.

Lemma isub_small a b : - 2 ^ 63 <= a - b < 2 ^ 63 -> isub a b = a - b.
Proof. apply to_int_small. Qed.

Lemma all_items_bucket_le (bs : list bucket) i b :
  bs !! i = Some b -> (length (bucketItems b) <= length (all_items bs))%nat.
Proof.
  revert i. induction bs as [|b0 bs IH]; intros [|i]; simpl; try done.
  - intros [= ->]. rewrite length_app. lia.
  - intros Hb. rewrite length_app. specialize (IH i Hb). lia.
Qed.

(** [Store] returns a map that holds the value under the key and is
    otherwise as before. *)
Lemma Store_spec h m f n k v :
  MapRep h m f n -> n + 1 < 2 ^ 60 ->
  wp (Store m k v) h
    (fun m' h' =>
       h `prefix_of` h' /\
       MapRep h' m' (upd f k (Some v)) (n + (if found (f k) then 0 else 1))).
Proof.
  intros HM Hn1.
  pose proof HM as (mp & bs & Hok & Hm & HV & Hbs & Hn & Hcnt & Hb & Hf).
  pose proof Hbs as (Hl1 & Hl2 & Hoks).
  unfold Store.
  eapply wp_bind_lift; [by apply load_map_ok|].
  eapply wp_bind_lift; [by eapply MapLen_spec|].
  eapply wp_bind_lift; [by eapply Vec_len|].
  unfold upperMapLoadFactor. rewrite imul_small by lia.
  destruct (n >=? Z.of_nat (length bs) * 8) eqn:Egrow.
  - (* grow: rebuild with more buckets *)
    rewrite iadd_small by lia.
    destruct (newPrivateItemBuckets_spec (n + 1) ltac:(lia)) as (Hb0 & Hl0 & _ & Hemp).
    destruct (AddItemsFromMap_spec h m f n _ HM Hb0 Hl0 Hemp)
      as (b1 & Hadd & Hb1 & Hlen1 & Hc1 & Hlk1).
    eapply wp_bind_lift; [exact Hadd|].
    destruct (AddItem_spec b1 (mkMapItem k v) Hb1 ltac:(lia))
      as (b2 & Hadd2 & Hb2 & Hlen2 & Hlk2 & Hc2).
    eapply wp_bind_lift; [exact Hadd2|].
    simpl in Hc2, Hlk2. rewrite Hlk1 in Hc2.
    eapply wp_mono.
    { apply publish_spec; [done|done|]. destruct (found (f k)); lia. }
    intros m' h' [Hp HM']. split; [done|].
    eapply MapRep_ext; [| |exact HM'].
    + intros k'. rewrite Hlk2. unfold upd. destruct (decide _); [done|apply Hlk1].
    + lia.
  - (* update one bucket *)
    destruct (pos_spec h m mp bs false k Hm HV Hbs) as (i & b & Hpos & Hi & Hbi & Hlk & Hget).
    apply lookup_lt_Some in Hbi as Hlt.
    destruct (Hoks i b Hbi) as [Hnd Hpl].
    pose proof (all_items_bucket_le bs i b Hbi) as Hble.
    eapply wp_bind_lift; [exact Hpos|].
    eapply wp_bind_lift; [exact Hget|].
    assert (forall (items' : list item) n',
      NoDup (Key <$> items') ->
      (forall x, x ∈ items' -> x = mkMapItem k v \/ x ∈ bucketItems b) ->
      (forall k', loadBucket k' items' =
                  if decide (k' = k) then Some v
                  else loadBucket k' (bucketItems b)) ->
      n' = n - Z.of_nat (length (bucketItems b)) + Z.of_nat (length items') ->
      n' = n + (if found (f k) then 0 else 1) ->
      wp (v0 <- Set_ None (backingVector mp) (Z.of_nat i) (Some items');;
          alloc (MapS (mkMap v0 n'))) h
        (fun m' h' =>
           h `prefix_of` h' /\
           MapRep h' m' (upd f k (Some v)) (n + (if found (f k) then 0 else 1))))
      as Hgen.
    { intros items' n' Hnd' Hin' Hload' Hn' Hn''.
      apply wp_bind. eapply wp_mono.
      { apply (Set_spec None false h (backingVector mp) bs (Z.of_nat i)); [done|lia]. }
      intros v0 h1 [Hp1 HV1]. rewrite Nat2Z.id in HV1. apply wp_alloc.
      split; [etrans; [exact Hp1|]; by apply prefix_app_r|].
      assert (bucket_ok (Z.of_nat (length bs)) i (Some items')) as Hbok.
      { split; [done|]. intros x Hx.
        destruct (Hin' x Hx) as [->|Hx']; [done|by apply Hpl]. }
      assert (n' < 2 ^ 60) as Hb60 by (destruct (found (f k)); lia).
      pose proof (set_bucket_rep h h1 v0 bs i b (Some items') k (Some v) n'
                    Hok Hp1 Hbs Hbi Hi Hbok Hload' ltac:(simpl; lia) Hb60 HV1) as HR.
      eapply MapRep_ext; [| |exact HR]; [|done].
      intros k'. unfold upd. destruct (decide _); [done|by rewrite Hf]. }
    destruct b as [items|]; simpl in *.
    + destruct (keyIndex k items) as [ix|] eqn:Ek.
      * apply Hgen.
        -- by rewrite keys_insert.
        -- intros x Hx. apply elem_of_insert_inv in Hx as [->|?]; [by left|by right].
        -- intros k'. by apply loadBucket_insert.
        -- rewrite length_insert. lia.
        -- rewrite Hf, Hlk. destruct (loadBucket k items) eqn:El; [simpl; lia|].
           apply keyIndex_loadBucket in El. congruence.
      * apply keyIndex_loadBucket in Ek. rewrite iadd_small by lia.
        apply Hgen.
        -- rewrite fmap_app. apply NoDup_app. split_and!; [done| |apply NoDup_singleton].
           intros x Hx Hx'. apply list_elem_of_singleton in Hx'. subst x.
           by apply loadBucket_None in Ek.
        -- intros x Hx. apply elem_of_app in Hx as [?|Hx]; [by right|left].
           by apply list_elem_of_singleton in Hx.
        -- intros k'. by apply loadBucket_snoc.
        -- rewrite length_app. simpl. lia.
        -- rewrite Hf, Hlk, Ek. simpl. lia.
    + rewrite iadd_small by lia. apply Hgen.
      * apply NoDup_singleton.
      * intros x Hx. left. by apply list_elem_of_singleton in Hx.
      * intros k'. simpl.
        case_bool_decide; destruct (decide _); try done; congruence.
      * simpl. lia.
      * rewrite Hf, Hlk. simpl. lia.
Qed.

(** [Delete] of a key the map does not hold returns the map it was given,
    in the heap it was given. *)
Lemma Delete_absent h m f n k :
  MapRep h m f n -> f k = None -> Delete m k h = (h, Ok m).
Proof.
  intros (mp & bs & Hok & Hm & HV & Hbs & Hn & Hcnt & Hb & Hf) Hfk.
  pose proof Hbs as (Hl1 & Hl2 & Hoks).
  destruct (pos_spec h m mp bs false k Hm HV Hbs) as (i & b & Hpos & Hi & Hbi & Hlk & Hget).
  destruct (Hoks i b Hbi) as [Hnd Hpl].
  pose proof (all_items_bucket_le bs i b Hbi) as Hble.
  unfold Delete, mbind, lift.
  rewrite (load_map_ok h m mp Hm), Hpos, Hget.
  destruct b as [items|]; [|done]. simpl in *.
  pose proof (filter_length k items Hnd) as Hfl.
  rewrite Hf, Hlk in Hfk. rewrite Hfk in Hfl.
  rewrite !(isub_small (Z.of_nat (length items))) by lia.
  rewrite Hfl. done.
Qed.

(** [Delete] returns a map without the key that is otherwise as before. *)
Lemma Delete_spec h m f n k :
  MapRep h m f n ->
  wp (Delete m k) h
    (fun m' h' =>
       h `prefix_of` h' /\
       MapRep h' m' (upd f k None) (n - (if found (f k) then 1 else 0))).
Proof.
  intros HM.
  destruct (f k) as [v|] eqn:Efk.
  2:{ eapply wp_intro; [by eapply Delete_absent|]. split; [done|].
      eapply MapRep_ext; [| |exact HM]; [|simpl; lia].
      intros k'. unfold upd. destruct (decide _); [by subst|done]. }
  pose proof HM as (mp & bs & Hok & Hm & HV & Hbs & Hn & Hcnt & Hb & Hf).
  pose proof Hbs as (Hl1 & Hl2 & Hoks).
  destruct (pos_spec h m mp bs false k Hm HV Hbs) as (i & b & Hpos & Hi & Hbi & Hlk & Hget).
  apply lookup_lt_Some in Hbi as Hlt.
  destruct (Hoks i b Hbi) as [Hnd Hpl].
  pose proof (all_items_bucket_le bs i b Hbi) as Hble.
  rewrite Hf, Hlk in Efk.
  unfold Delete.
  eapply wp_bind_lift; [by apply load_map_ok|].
  eapply wp_bind_lift; [exact Hpos|].
  eapply wp_bind_lift; [exact Hget|].
  destruct b as [items|]; [|done]. simpl in *.
  set (kept := filter (fun it : item => Key it <> k) items).
  pose proof (filter_length k items Hnd) as Hfl. fold kept in Hfl.
  rewrite Efk in Hfl.
  rewrite !(isub_small (Z.of_nat (length items))) by lia. rewrite !Hfl. simpl.
  set (newBucket := if Z.of_nat (length kept) =? 0 then None else Some kept).
  assert (bucketItems newBucket = kept) as HnB.
  { unfold newBucket. destruct (Z.of_nat (length kept) =? 0) eqn:E0; [|done].
    apply Z.eqb_eq in E0. destruct kept; [done|simpl in E0; lia]. }
  apply wp_bind. eapply wp_mono.
  { apply (Set_spec None false h (backingVector mp) bs (Z.of_nat i)); [done|lia]. }
  intros v0 h1 [Hp1 HV1]. rewrite Nat2Z.id in HV1.
  assert (bucket_ok (Z.of_nat (length bs)) i newBucket) as Hbok.
  { unfold bucket_ok. rewrite HnB. split; [by apply filter_keys_NoDup|].
    intros x Hx. apply Hpl. by apply list_elem_of_filter in Hx as [_ Hx]. }
  rewrite isub_small by lia.
  assert (forall k', loadBucket k' (bucketItems newBucket) =
            if decide (k' = k) then None
            else loadBucket k' (bucketItems (Some items))) as Hload.
  { intros k'. rewrite HnB. simpl. apply loadBucket_filter. }
  assert (n - 1 = Z.of_nat (length (all_items bs))
                  - Z.of_nat (length (bucketItems (Some items)))
                  + Z.of_nat (length (bucketItems newBucket))) as Hn1
    by (rewrite HnB; simpl; lia).
  pose proof (set_bucket_rep h h1 v0 bs i (Some items) newBucket k None (n - 1)
                Hok Hp1 Hbs Hbi Hi Hbok Hload Hn1 ltac:(lia) HV1) as HR0.
  assert (MapRep (h1 ++ [MapS (mkMap v0 (mlen mp - 1))]) (length h1)
            (upd f k None) (n - 1)) as HR.
  { rewrite Hn. eapply MapRep_ext; [| |exact HR0]; [|done].
    intros k'. unfold upd. destruct (decide _); [done|by rewrite Hf]. }
  apply wp_bind_alloc.
  assert (h `prefix_of` h1 ++ [MapS (mkMap v0 (mlen mp - 1))]) as Hp2.
  { etrans; [exact Hp1|]. by apply prefix_app_r. }
  eapply wp_bind_lift.
  { eapply Vec_len. eapply Vec_heap_mono with (h := h1); [by apply prefix_app_r|done]. }
  eapply wp_bind_lift; [by eapply MapLen_spec|].
  rewrite length_insert. unfold lowerMapLoadFactor. rewrite imul_small by lia.
  destruct ((Z.of_nat (length bs) >? 1) && (n - 1 <? Z.of_nat (length bs) * 2)) eqn:Eshrink.
  - (* shrink: rebuild with fewer buckets *)
    assert (1 <= n).
    { rewrite Hcnt. assert (1 <= length items)%nat; [|lia].
      destruct items; [done|simpl; lia]. }
    destruct (newPrivateItemBuckets_spec (n - 1) ltac:(lia)) as (Hb0 & Hl0 & _ & Hemp).
    destruct (AddItemsFromMap_spec _ _ _ _ _ HR Hb0 Hl0 Hemp)
      as (b1 & Hadd & Hb1 & Hlen1 & Hc1 & Hlk1).
    eapply wp_bind_lift; [exact Hadd|].
    eapply wp_mono.
    { apply publish_spec; [|done|lia].
      eapply heap_ok_mono; [exact Hp2|done]. }
    intros m' h' [Hp HM']. split; [by etrans|].
    eapply MapRep_ext; [| |exact HM']; [apply Hlk1|lia].
  - apply wp_ret. split; [done|exact HR].
Qed.

(** [NewMap] and [NewMapFromNativeMap] build a map; when the keys given
    are distinct, it holds exactly the items given. *)
Lemma newMap_spec (h : mheap) (items : list item) :
  heap_ok h -> Z.of_nat (length items) < 2 ^ 60 ->
  wp (newMap items) h
    (fun m h' =>
       h `prefix_of` h' /\
       exists f n, MapRep h' m f n /\ 0 <= n <= Z.of_nat (length items) /\
         (NoDup (Key <$> items) ->
          n = Z.of_nat (length items) /\ forall k, f k = loadBucket k items)).
Proof.
  intros Hok Hb. unfold newMap.
  destruct (newPrivateItemBuckets_spec (Z.of_nat (length items)) ltac:(lia))
    as (Hb0 & Hl0 & _ & Hemp).
  destruct (AddItems_spec items _ Hb0 ltac:(lia))
    as (b1 & Hadd & Hb1 & Hlen1 & Hc1 & Hfresh).
  eapply wp_bind_lift; [exact Hadd|].
  eapply wp_mono.
  { apply publish_spec; [done|done|lia]. }
  intros m h' [Hp HM]. split; [done|].
  exists (lookupB (buckets b1)), (length_ b1). split_and!; try done; try lia.
  intros Hnd. destruct Hfresh as [Hc Hlk]; [done|by intros; apply Hemp|].
  split; [lia|]. intros k. rewrite Hlk, Hemp. by destruct (loadBucket k items).
Qed.

Lemma NewMapFromNativeMap_spec (h : mheap) (nm : list (K * V)) :
  heap_ok h -> Z.of_nat (length nm) < 2 ^ 60 ->
  wp (NewMapFromNativeMap nm) h
    (fun m h' =>
       h `prefix_of` h' /\
       exists f n, MapRep h' m f n /\ 0 <= n <= Z.of_nat (length nm) /\
         (NoDup (nm.*1) ->
          n = Z.of_nat (length nm) /\
          forall k, f k = loadBucket k (map (fun kv => mkMapItem kv.1 kv.2) nm))).
Proof.
  intros Hok Hb.
  assert (NewMapFromNativeMap nm = newMap (map (fun kv => mkMapItem kv.1 kv.2) nm)) as ->.
  { unfold NewMapFromNativeMap, newMap. by rewrite length_map. }
  eapply wp_mono; [apply newMap_spec; [done|by rewrite length_map]|].
  intros m h' (Hp & f & n & HM & Hn & Hnd). split; [done|].
  exists f, n. rewrite length_map in Hn, Hnd.
  split; [done|]. split; [done|].
  intros Hnd'. apply Hnd.
  replace (Key <$> map (fun kv : K * V => mkMapItem kv.1 kv.2) nm) with (nm.*1); [done|].
  clear. induction nm as [|[k v] nm IH]; [done|].
  cbn. f_equal. exact IH.
Qed.

End MAP_SPEC.

(** * The claims *)

(** The handle a command returned, for stating examples. *)
Definition run_loc {H : Type} (o : H * result nat) : nat :=
  match o.2 with Ok p => p | Panic _ => 0%nat end.

Lemma wp_run {T : Type} (c : M (list (@obj T)) nat) h Q :
  wp c h Q -> Q (run_loc (c h)) (c h).1 /\ (c h).2 = Ok (run_loc (c h)).
Proof. unfold wp, run_loc. destruct (c h) as [h' [a|e]]; simpl; done. Qed.

Definition iota (n : nat) : list Z := map Z.of_nat (seq 0 n).

(** The vectors of the examples: [NewVector(1, 2, 3)] and a vector of 32
    elements (its tail is full), in the initial heap. *)
Definition ex3 : list (@obj Z) * result nat := NewVector [1; 2; 3] init_heap.
Definition ex32 : list (@obj Z) * result nat := NewVector (iota 32) init_heap.

Lemma heap_ok_init {T : Type} : heap_ok (@init_heap T).
Proof. reflexivity. Qed.

Lemma NewVector_Vec {T : Type} (items : list T) :
  Z.of_nat (length items) < 2 ^ 63 ->
  Vec true (NewVector items init_heap).1 (run_loc (NewVector items init_heap)) items.
Proof.
  intros Hb.
  destruct (wp_run _ _ _ (NewVector_spec init_heap items heap_ok_init Hb)) as [[_ HV] _].
  exact HV.
Qed.

Lemma ex3_Vec : Vec true ex3.1 (run_loc ex3) [1; 2; 3].
Proof. apply NewVector_Vec. simpl. lia. Qed.

Lemma ex32_Vec : Vec true ex32.1 (run_loc ex32) (iota 32).
Proof. apply NewVector_Vec. simpl. lia. Qed.

(** Scenario A of the specification: [NewVector(1,2,3).Append(4)] has
    length 4 and holds 1, 2, 3, 4. *)
Example scenario_A :
  let v := Append (run_loc ex3) [4] ex3.1 in
  Len (run_loc v) v.1 = Ok 4 /\
  map (fun i => Get (run_loc v) i v.1) [0; 1; 2; 3] = [Ok 1; Ok 2; Ok 3; Ok 4].
Proof. vm_compute. done. Qed.

(** C1 (persistence).  Whatever [Set] or [Append] on a vector do, return or
    panic, every index of the vector they were called on still holds the
    element it held, and the vector's length is the same. *)
Theorem C1_persistence {T : Type} (zeroT : T) s (h : list (@obj T)) p xs i x
    items j :
  Vec s h p xs -> 0 <= j < Z.of_nat (length xs) ->
  exists e,
    Get p j h = Ok e /\
    Get p j (Set_ zeroT p i x h).1 = Ok e /\
    Len p (Set_ zeroT p i x h).1 = Len p h /\
    Get p j (Append p items h).1 = Ok e /\
    Len p (Append p items h).1 = Len p h.
Proof.
  intros HV Hj.
  destruct (lookup_lt_is_Some_2 xs (Z.to_nat j) ltac:(lia)) as [e He].
  pose proof (Vec_heap_mono _ _ _ _ _ (Set_frame zeroT h p i x) HV) as HV1.
  pose proof (Vec_heap_mono _ _ _ _ _ (Append_frame h p items) HV) as HV2.
  exists e. split_and!.
  - eapply Get_spec; [exact HV|exact He|lia].
  - eapply Get_spec; [exact HV1|exact He|lia].
  - by rewrite (Vec_len _ _ _ _ HV1), (Vec_len _ _ _ _ HV).
  - eapply Get_spec; [exact HV2|exact He|lia].
  - by rewrite (Vec_len _ _ _ _ HV2), (Vec_len _ _ _ _ HV).
Qed.

Lemma C1_persistence_witness :
  exists e,
    Get (run_loc ex3) 0 ex3.1 = Ok e /\
    Get (run_loc ex3) 0 (Set_ 0 (run_loc ex3) 1 9 ex3.1).1 = Ok e /\
    Len (run_loc ex3) (Set_ 0 (run_loc ex3) 1 9 ex3.1).1 = Len (run_loc ex3) ex3.1 /\
    Get (run_loc ex3) 0 (Append (run_loc ex3) [4] ex3.1).1 = Ok e /\
    Len (run_loc ex3) (Append (run_loc ex3) [4] ex3.1).1 = Len (run_loc ex3) ex3.1.
Proof.
  apply (C1_persistence 0 true ex3.1 (run_loc ex3) [1; 2; 3] 1 9 [4] 0 ex3_Vec).
  simpl. lia.
Defined.

(** C2 (index law).  For an index [i] of the vector, [Set] returns a vector
    that holds the new element at [i] and, at every other index, what the
    old vector holds there. *)
Theorem C2_index_law {T : Type} (zeroT : T) s (h : list (@obj T)) p xs i x :
  Vec s h p xs -> 0 <= i < Z.of_nat (length xs) ->
  exists h' p',
    Set_ zeroT p i x h = (h', Ok p') /\
    Get p' i h' = Ok x /\
    forall j, 0 <= j < Z.of_nat (length xs) -> j <> i ->
              Get p' j h' = Get p j h.
Proof.
  intros HV Hi.
  destruct (wp_inv _ _ _ (Set_spec zeroT s h p xs i x HV Hi)) as (p' & h' & Heq & Hp & HV').
  exists h', p'. split_and!; [done| |].
  - eapply Get_spec; [exact HV'| |lia]. apply list_lookup_insert_eq. lia.
  - intros j Hj Hne.
    destruct (lookup_lt_is_Some_2 xs (Z.to_nat j) ltac:(lia)) as [e He].
    rewrite (Get_spec _ _ _ _ _ e HV He) by lia.
    eapply Get_spec; [exact HV'| |lia].
    rewrite list_lookup_insert_ne by lia. exact He.
Qed.

Lemma C2_index_law_witness :
  exists h' p',
    Set_ 0 (run_loc ex3) 1 9 ex3.1 = (h', Ok p') /\
    Get p' 1 h' = Ok 9 /\
    forall j, 0 <= j < Z.of_nat (length [1; 2; 3]) -> j <> 1 ->
              Get p' j h' = Get (run_loc ex3) j ex3.1.
Proof.
  apply (C2_index_law 0 true ex3.1 (run_loc ex3) [1; 2; 3] 1 9 ex3_Vec).
  simpl. lia.
Defined.

(** C5 (boundary failures).  [Get] and [Set] at an index outside
    [0, len), among them -1 and len, panic with "Index out of bounds";
    [Slice] with start < 0, start > stop or stop > len panics with one of
    its three messages.  The heap after the panic is the heap before the
    call: no handle was made and none was changed. *)
Theorem C5_boundary_failures {T : Type} (zeroT : T) s (h : list (@obj T)) p xs
    i x start stop :
  Vec s h p xs -> - 2 ^ 63 <= i < 2 ^ 63 ->
  ((i < 0 \/ Z.of_nat (length xs) <= i) ->
     Get p i h = Panic IndexOutOfBounds /\
     Set_ zeroT p i x h = (h, Panic IndexOutOfBounds) /\
     invalid_argument IndexOutOfBounds = true) /\
  ((start < 0 \/ start > stop \/ stop > Z.of_nat (length xs)) ->
     exists e, Slice p start stop h = (h, Panic e) /\ invalid_argument e = true).
Proof.
  intros HV Hi. pose proof HV as (v & ts & d & Hv & Hlen & Hb & _).
  split.
  - intros Hout.
    assert ((i <? 0) || (to_uint i >=? len v) = true) as Hc.
    { destruct (Z.ltb_spec i 0) as [|Hge]; [done|]. simpl.
      rewrite to_uint_small by lia. apply geb_true. lia. }
    split_and!; [| |done].
    + unfold Get. rewrite (rbind_ok _ _ h v) by by apply load_vec_ok. by rewrite Hc.
    + unfold Set_, mbind, lift. rewrite (load_vec_ok h p v Hv). by rewrite Hc.
  - intros Hbad. unfold Slice, mbind, lift.
    rewrite (Vec_len _ _ _ _ HV). unfold of_result, assertSliceOk.
    destruct (Z.ltb_spec start 0) as [|Hs0]; [by eexists|].
    destruct (start >? stop) eqn:E1; [by eexists|].
    rewrite Z.gtb_ltb in E1. apply Z.ltb_ge in E1.
    rewrite gtb_true by lia. by eexists.
Qed.

Lemma C5_boundary_failures_witness :
  (Get (run_loc ex3) (-1) ex3.1 = Panic IndexOutOfBounds /\
   Set_ 0 (run_loc ex3) (-1) 9 ex3.1 = (ex3.1, Panic IndexOutOfBounds)) /\
  (Get (run_loc ex3) 3 ex3.1 = Panic IndexOutOfBounds /\
   Set_ 0 (run_loc ex3) 3 9 ex3.1 = (ex3.1, Panic IndexOutOfBounds)) /\
  exists e, Slice (run_loc ex3) 0 4 ex3.1 = (ex3.1, Panic e) /\
            invalid_argument e = true.
Proof.
  destruct (C5_boundary_failures 0 true ex3.1 (run_loc ex3) [1; 2; 3] (-1) 9 0 4
              ex3_Vec ltac:(lia)) as [H1 H2].
  destruct (C5_boundary_failures 0 true ex3.1 (run_loc ex3) [1; 2; 3] 3 9 0 4
              ex3_Vec ltac:(lia)) as [H3 _].
  split; [|split].
  - destruct H1 as (? & ? & _); [left; lia|done].
  - destruct H3 as (? & ? & _); [right; simpl; lia|done].
  - apply H2. right. right. simpl. lia.
Defined.

(** ** Size laws *)

(** [Append] on a vector built by [NewVector] and [Append] alone adds the
    number of items to the length. *)
Lemma Append_Len {T : Type} (h : list (@obj T)) p xs items :
  Vec true h p xs -> Z.of_nat (length xs + length items) < 2 ^ 63 ->
  exists h' p',
    Append p items h = (h', Ok p') /\
    Len p' h' = Ok (Z.of_nat (length xs) + Z.of_nat (length items)) /\
    Len p h = Ok (Z.of_nat (length xs)).
Proof.
  intros HV Hb.
  destruct (wp_inv _ _ _ (Append_spec h p xs items HV Hb)) as (p' & h' & Heq & Hp & HV').
  exists h', p'. split_and!; [done| |by eapply Vec_len].
  rewrite (Vec_len _ _ _ _ HV'), length_app. f_equal. lia.
Qed.

(** [Store] adds one to the length when the key is new and nothing when
    the map holds it; [Delete] takes one off when the map holds the key
    and nothing otherwise. *)
Lemma Store_Delete_Len {K V : Type} `{EqDecision K} (h : list obj) m
    (f : K -> option V) n k x :
  MapRep h m f n -> n + 1 < 2 ^ 60 ->
  MapLen m h = Ok n /\
  (exists h' m', Store m k x h = (h', Ok m') /\
     MapLen m' h' = Ok (n + (if found (f k) then 0 else 1))) /\
  (exists h' m', Delete m k h = (h', Ok m') /\
     MapLen m' h' = Ok (n - (if found (f k) then 1 else 0))).
Proof.
  intros HM Hb. split_and!.
  - by eapply MapLen_spec.
  - destruct (wp_inv _ _ _ (Store_spec h m f n k x HM Hb)) as (m' & h' & Heq & _ & HM').
    exists h', m'. split; [done|]. by eapply MapLen_spec.
  - destruct (wp_inv _ _ _ (Delete_spec h m f n k HM)) as (m' & h' & Heq & _ & HM').
    exists h', m'. split; [done|]. by eapply MapLen_spec.
Qed.

(** C3 (size laws), at the input where the code breaks the law of
    [Append]: [NewVector(0, ..., 2079).Set(0, 99)] has length 2080 and its
    [Append(1)] panics in [pushTail], on the nil child that [doAssoc] left
    in the root; the same [Append] on the vector before the [Set] returns a
    vector of length 2081. *)
Theorem C3_append_after_set_panics :
  let v := NewVector (iota 2080) init_heap in
  let v1 := Set_ 0 (run_loc v) 0 99 v.1 in
  let v2 := Append (run_loc v) [1] v.1 in
  v1.2 = Ok (run_loc v1) /\
  Len (run_loc v1) v1.1 = Ok 2080 /\
  (Append (run_loc v1) [1] v1.1).2 = Panic RuntimeTypeAssertion /\
  Len (run_loc v2) v2.1 = Ok 2081.
Proof. vm_compute. done. Qed.

(** ** Trie growth *)





(** ** Maps *)

(** The maps of the examples: the empty map and a map of two items, keys
    and values integers. *)
Definition exm0 : list (@obj (option (list (@MapItem Z Z)))) * result nat :=
  NewMap [] init_heap.
Definition exm2 : list (@obj (option (list (@MapItem Z Z)))) * result nat :=
  NewMap [mkMapItem 1 10; mkMapItem 2 20] init_heap.

Lemma NewMap_MapRep {K V : Type} `{EqDecision K} (items : list (@MapItem K V)) :
  NoDup (Key <$> items) -> Z.of_nat (length items) < 2 ^ 60 ->
  MapRep (NewMap items init_heap).1 (run_loc (NewMap items init_heap))
    (fun k => loadBucket k items) (Z.of_nat (length items)).
Proof.
  intros Hnd Hb.
  destruct (wp_run _ _ _ (newMap_spec init_heap items heap_ok_init Hb))
    as [(_ & f & n & HM & _ & Hf) _].
  destruct (Hf Hnd) as [-> Hfk].
  eapply MapRep_ext; [|reflexivity|exact HM]. done.
Qed.

Lemma exm0_MapRep : MapRep exm0.1 (run_loc exm0) (fun _ => None) 0.
Proof. apply (NewMap_MapRep (@nil (@MapItem Z Z))); [apply NoDup_nil_2|simpl; lia]. Qed.

Lemma exm2_MapRep :
  MapRep exm2.1 (run_loc exm2)
    (fun k => loadBucket k [mkMapItem 1 10; mkMapItem 2 20]) 2.
Proof.
  apply (NewMap_MapRep [mkMapItem 1 10; mkMapItem 2 20]); [|simpl; lia].
  simpl. apply NoDup_cons. split; [|apply NoDup_singleton].
  intros Hin. apply list_elem_of_singleton in Hin. lia.
Qed.

(** Scenario B of the specification: after eight stores, storing "a" again
    gives a second map; the first still maps "a" to 1, the second maps it
    to 11, and both hold eight keys.  (Keys are numbered 1 to 8 here.) *)
Example scenario_B :
  let store := fun (o : list obj * result nat) (kv : Z * Z) =>
                 Store (run_loc o) kv.1 kv.2 o.1 in
  let m := fold_left store [(1, 1); (2, 2); (3, 3); (4, 4); (5, 5); (6, 6);
                            (7, 7); (8, 8)] exm0 in
  let m2 := Store (run_loc m) 1 11 m.1 in
  Load 0 (run_loc m) 1 m2.1 = Ok (1, true) /\
  Load 0 (run_loc m2) 1 m2.1 = Ok (11, true) /\
  MapLen (run_loc m) m2.1 = Ok 8 /\ MapLen (run_loc m2) m2.1 = Ok 8.
Proof. vm_compute. done. Qed.

(** C6 (Load).  [Load] never panics.  For a key the map does not hold it
    returns the zero value and false, for a key it holds the value and
    true; after [Store] of a key, [Load] of that key returns the value
    stored and [Load] of any other key what it returned before; in a new
    empty map every key is absent. *)
Theorem C6_load {K V : Type} `{EqDecision K} (zeroV : V) (h : list obj) m
    (f : K -> option V) n k :
  MapRep h m f n ->
  (f k = None -> Load zeroV m k h = Ok (zeroV, false)) /\
  (forall v, f k = Some v -> Load zeroV m k h = Ok (v, true)) /\
  (n + 1 < 2 ^ 60 -> forall x, exists h' m',
     Store m k x h = (h', Ok m') /\
     Load zeroV m' k h' = Ok (x, true) /\
     forall k', k' <> k -> Load zeroV m' k' h' = Load zeroV m k' h) /\
  (exists h0 m0, NewMap [] (@init_heap (option (list (@MapItem K V)))) = (h0, Ok m0) /\
                 Load zeroV m0 k h0 = Ok (zeroV, false)).
Proof.
  intros HM. split_and!.
  - intros Hk. by rewrite (Load_spec zeroV h m f n k HM), Hk.
  - intros v Hk. by rewrite (Load_spec zeroV h m f n k HM), Hk.
  - intros Hb x.
    destruct (wp_inv _ _ _ (Store_spec h m f n k x HM Hb)) as (m' & h' & Heq & _ & HM').
    exists h', m'. split_and!; [done| |].
    + rewrite (Load_spec zeroV _ _ _ _ k HM'). unfold upd. by rewrite decide_True.
    + intros k' Hne. rewrite (Load_spec zeroV _ _ _ _ k' HM').
      rewrite (Load_spec zeroV _ _ _ _ k' HM). unfold upd. by rewrite decide_False.
  - destruct (wp_run _ _ _ (newMap_spec init_heap (@nil (@MapItem K V)) heap_ok_init
                              ltac:(simpl; lia)))
      as [(_ & f0 & n0 & HM0 & _ & Hf0) Hr].
    destruct (Hf0 ltac:(apply NoDup_nil_2)) as [_ Hf0'].
    eexists _, _. split.
    + unfold NewMap. rewrite <- Hr. apply surjective_pairing.
    + by rewrite (Load_spec zeroV _ _ _ _ k HM0), Hf0'.
Qed.

Lemma C6_load_witness :
  ((fun _ : Z => @None Z) 5 = None -> Load 0 (run_loc exm0) 5 exm0.1 = Ok (0, false)) /\
  (forall v, (fun _ : Z => @None Z) 5 = Some v ->
             Load 0 (run_loc exm0) 5 exm0.1 = Ok (v, true)) /\
  (0 + 1 < 2 ^ 60 -> forall x, exists h' m',
     Store (run_loc exm0) 5 x exm0.1 = (h', Ok m') /\
     Load 0 m' 5 h' = Ok (x, true) /\
     forall k', k' <> 5 -> Load 0 m' k' h' = Load 0 (run_loc exm0) k' exm0.1) /\
  (exists h0 m0, NewMap [] (@init_heap (option (list (@MapItem Z Z)))) = (h0, Ok m0) /\
                 Load 0 m0 5 h0 = Ok (0, false)).
Proof.
  apply (C6_load 0 exm0.1 (run_loc exm0) (fun _ => None) 0 5 exm0_MapRep).
Defined.



(** C9 (hashing), as the code has it.  [genericHash] returns 0 for every
    key of every type: equal keys get equal hashes, and so do unequal
    ones. *)
Theorem C9_genericHash_constant (A : Type) (x : A) : genericHash x = 0.
Proof. reflexivity. Qed.

(** No two keys, of any type, have different hashes. *)
Lemma C9_counterexample :
  ~ (exists x y : Z, genericHash x <> genericHash y).
Proof. intros (x & y & Hne). apply Hne. reflexivity. Qed.

(** The maps a program can reach: made by [NewMap] or
    [NewMapFromNativeMap], or by [Store] or [Delete] on a reachable map, in
    the heap where it was made or a later one.  The bounds keep the item
    count within the range of Go's int. *)
Inductive Reach {K V : Type} `{EqDecision K} :
    list (@obj (option (list (@MapItem K V)))) -> nat -> Prop :=
| Reach_NewMap h items h' m :
    heap_ok h -> Z.of_nat (length items) < 2 ^ 60 ->
    NewMap items h = (h', Ok m) -> Reach h' m
| Reach_NewMapFromNativeMap h (nm : list (K * V)) h' m :
    heap_ok h -> Z.of_nat (length nm) < 2 ^ 60 ->
    NewMapFromNativeMap nm h = (h', Ok m) -> Reach h' m
| Reach_Store h m k v h' m' :
    Reach h m -> (forall n, MapLen m h = Ok n -> n + 1 < 2 ^ 60) ->
    Store m k v h = (h', Ok m') -> Reach h' m'
| Reach_Delete h m k h' m' :
    Reach h m -> Delete m k h = (h', Ok m') -> Reach h' m'
| Reach_later h m h' :
    Reach h m -> h `prefix_of` h' -> Reach h' m.

Lemma Reach_MapRep {K V : Type} `{EqDecision K}
    (h : list (@obj (option (list (@MapItem K V))))) m :
  Reach h m -> exists f n, MapRep h m f n.
Proof.
  induction 1 as [h items h' m Hok Hb Heq|h nm h' m Hok Hb Heq
                 |h m k v h' m' _ IH Hn Heq|h m k h' m' _ IH Heq|h m h' _ IH Hp].
  - destruct (wp_inv _ _ _ (newMap_spec h items Hok Hb)) as (m1 & h1 & Heq1 & _ & f & n & HM & _).
    unfold NewMap in Heq. rewrite Heq1 in Heq. injection Heq as <- <-. eauto.
  - destruct (wp_inv _ _ _ (NewMapFromNativeMap_spec h nm Hok Hb))
      as (m1 & h1 & Heq1 & _ & f & n & HM & _).
    rewrite Heq1 in Heq. injection Heq as <- <-. eauto.
  - destruct IH as (f & n & HM).
    pose proof (Hn n (MapLen_spec _ _ _ _ HM)) as Hb.
    destruct (wp_inv _ _ _ (Store_spec h m f n k v HM Hb)) as (m1 & h1 & Heq1 & _ & HM').
    rewrite Heq1 in Heq. injection Heq as <- <-. eauto.
  - destruct IH as (f & n & HM).
    destruct (wp_inv _ _ _ (Delete_spec h m f n k HM)) as (m1 & h1 & Heq1 & _ & HM').
    rewrite Heq1 in Heq. injection Heq as <- <-. eauto.
  - destruct IH as (f & n & HM). exists f, n. eapply MapRep_heap_mono; eauto.
Qed.

(** C10 (the bucket vector is never empty).  For every reachable map the
    backing vector holds at least one bucket, so [pos] never divides by
    zero and returns an index of the backing vector; [Load], [Delete] and
    [Store] return for every key. *)
Theorem C10_buckets_nonempty {K V : Type} `{EqDecision K} (zeroV : V)
    (h : list (@obj (option (list (@MapItem K V))))) m :
  Reach h m ->
  exists mp nb,
    load_map m h = Ok mp /\ Len (backingVector mp) h = Ok nb /\ 1 <= nb /\
    (forall k, exists i, pos m k h = Ok i /\ 0 <= i < nb) /\
    (forall k, exists r, Load zeroV m k h = Ok r) /\
    (forall k, exists h' m', Delete m k h = (h', Ok m')) /\
    (forall k v n, MapLen m h = Ok n -> n + 1 < 2 ^ 60 ->
                   exists h' m', Store m k v h = (h', Ok m')).
Proof.
  intros HR. destruct (Reach_MapRep h m HR) as (f & n & HM).
  pose proof HM as (mp & bs & Hok & Hm & HV & Hbs & Hn & Hcnt & Hb & Hf).
  pose proof Hbs as (Hl1 & Hl2 & _).
  exists mp, (Z.of_nat (length bs)). split_and!.
  - by apply load_map_ok.
  - by eapply Vec_len.
  - lia.
  - intros k. destruct (pos_spec h m mp bs false k Hm HV Hbs) as (i & b & Hp & _ & Hi & _).
    exists (Z.of_nat i). split; [done|]. apply lookup_lt_Some in Hi. lia.
  - intros k. rewrite (Load_spec zeroV h m f n k HM). eauto.
  - intros k. destruct (wp_inv _ _ _ (Delete_spec h m f n k HM)) as (m' & h' & Heq & _).
    eauto.
  - intros k v n' Hlen Hb'. rewrite (MapLen_spec _ _ _ _ HM) in Hlen.
    injection Hlen as <-.
    destruct (wp_inv _ _ _ (Store_spec h m f n k v HM Hb')) as (m' & h' & Heq & _).
    eauto.
Qed.

Lemma C10_buckets_nonempty_witness :
  exists mp nb,
    load_map (run_loc exm0) exm0.1 = Ok mp /\
    Len (backingVector mp) exm0.1 = Ok nb /\ 1 <= nb /\
    (forall k : Z, exists i, pos (run_loc exm0) k exm0.1 = Ok i /\ 0 <= i < nb) /\
    (forall k : Z, exists r, Load 0 (run_loc exm0) k exm0.1 = Ok r) /\
    (forall k : Z, exists h' m', Delete (run_loc exm0) k exm0.1 = (h', Ok m')) /\
    (forall (k : Z) (v : Z) n, MapLen (run_loc exm0) exm0.1 = Ok n -> n + 1 < 2 ^ 60 ->
                   exists h' m', Store (run_loc exm0) k v exm0.1 = (h', Ok m')).
Proof.
  apply (C10_buckets_nonempty 0 exm0.1 (run_loc exm0)).
  apply (Reach_NewMap init_heap [] exm0.1 (run_loc exm0)).
  - reflexivity.
  - simpl. lia.
  - reflexivity.
Defined.

(** ** Range *)

(** A visitor is a function of its own state and the element; it returns
    the continue flag and its new state.  [traced f] is [f] with a record of
    its calls: every call appends the element it was given. *)
Definition traced {S A : Type} (f : S -> A -> bool * S) (st : S * list A) (x : A)
    : bool * (S * list A) :=
  let '(continue, s') := f st.1 x in (continue, (s', st.2 ++ [x])).

Definition tracedKV {S K V : Type} (g : S -> K -> V -> bool * S)
    (st : S * list (@MapItem K V)) (k : K) (v : V) : bool * (S * list (@MapItem K V)) :=
  let '(continue, s') := g st.1 k v in (continue, (s', st.2 ++ [mkMapItem k v])).

(** The visitor of a map, as a visitor of items. *)
Definition onItem {S K V : Type} (g : S -> K -> V -> bool * S) (s : S)
    (it : @MapItem K V) : bool * S :=
  g s (Key it) (Value it).

(** Started in state [s] and given the elements of [xs] one after the
    other, the visitor returns stop on its [k]-th call and not before. *)
Fixpoint stops_at {S A : Type} (f : S -> A -> bool * S) (s : S) (xs : list A)
    (k : nat) : Prop :=
  match xs, k with
  | x :: rest, S k' =>
    if (f s x).1 then stops_at f (f s x).2 rest k' else k' = 0%nat
  | _, _ => False
  end.

Fixpoint never_stops {S A : Type} (f : S -> A -> bool * S) (s : S) (xs : list A)
    : Prop :=
  match xs with
  | [] => True
  | x :: rest => (f s x).1 = true /\ never_stops f (f s x).2 rest
  end.

Lemma visit_traced_stop {S A : Type} (f : S -> A -> bool * S) (xs : list A) :
  forall k s tr, stops_at f s xs k ->
    exists s', visit (traced f) (s, tr) xs = (s', tr ++ take k xs) /\
               length (take k xs) = k.
Proof.
  induction xs as [|x xs IH]; intros [|k] s tr Hst; simpl in Hst; try done.
  simpl. unfold traced at 1. simpl. destruct (f s x) as [c s1] eqn:Ef. simpl in Hst.
  destruct c.
  - destruct (IH k s1 (tr ++ [x]) Hst) as (s' & -> & Hl).
    exists s'. rewrite <- app_assoc. simpl. by rewrite Hl.
  - subst k. exists s1. by rewrite take_0.
Qed.

Lemma visit_traced_all {S A : Type} (f : S -> A -> bool * S) (xs : list A) :
  forall s tr, never_stops f s xs ->
    exists s', visit (traced f) (s, tr) xs = (s', tr ++ xs).
Proof.
  induction xs as [|x xs IH]; intros s tr Hns; simpl in *.
  - exists s. by rewrite app_nil_r.
  - unfold traced at 1. simpl. destruct (f s x) as [c s1] eqn:Ef. simpl in Hns.
    destruct Hns as [-> Hns].
    destruct (IH s1 (tr ++ [x]) Hns) as (s' & ->).
    exists s'. by rewrite <- app_assoc.
Qed.

Lemma tracedKV_onItem {S K V : Type} (g : S -> K -> V -> bool * S) st
    (it : @MapItem K V) :
  onItem (tracedKV g) st it = traced (onItem g) st it.
Proof. by destruct it. Qed.

(** Visiting the buckets, and in each bucket its items, is visiting all
    items in the order of the buckets. *)
Lemma rangeBucket_visit {S K V : Type} (g : S -> K -> V -> bool * S)
    (items rest : list (@MapItem K V)) :
  forall s,
    visit (onItem g) s (items ++ rest) =
    (let '(continue, s') := rangeBucket g s items in
     if continue then visit (onItem g) s' rest else s').
Proof.
  induction items as [|it items IH]; intros s; simpl; [done|].
  unfold onItem at 1. destruct (g s (Key it) (Value it)) as [c s1].
  destruct c; [apply IH|done].
Qed.

Lemma visit_buckets {S K V : Type} (g : S -> K -> V -> bool * S)
    (bs : list (option (list (@MapItem K V)))) :
  forall s,
    visit (fun s b => rangeBucket g s (bucketItems b)) s bs =
    visit (onItem g) s (all_items bs).
Proof.
  induction bs as [|b bs IH]; intros s; simpl; [done|].
  rewrite rangeBucket_visit.
  destruct (rangeBucket g s (bucketItems b)) as [c s1].
  destruct c; [apply IH|done].
Qed.

Lemma visit_ext {S A : Type} (f f' : S -> A -> bool * S) (xs : list A) :
  (forall s x, f s x = f' s x) -> forall s, visit f s xs = visit f' s xs.
Proof.
  intros Hf. induction xs as [|x xs IH]; intros s; simpl; [done|].
  rewrite Hf. destruct (f' s x) as [c s1]. destruct c; [apply IH|done].
Qed.

(** What [MapRange] computes: the visit of all items of the map, which are
    as many as the map's length and hold each key once, with its value. *)
Lemma MapRange_spec {S K V : Type} `{EqDecision K}
    (h : list (@obj (option (list (@MapItem K V))))) m (f : K -> option V) n :
  MapRep h m f n ->
  exists items,
    Z.of_nat (length items) = n /\ NoDup (Key <$> items) /\
    (forall k, f k = loadBucket k items) /\
    forall (g : S -> K -> V -> bool * S) s,
      MapRange m g s h = Ok (visit (onItem g) s items).
Proof.
  intros (mp & bs & Hok & Hm & HV & Hbs & Hn & Hcnt & Hb & Hf).
  exists (all_items bs). split_and!.
  - lia.
  - by apply all_items_NoDup.
  - intros k. rewrite Hf. by apply lookupB_all_items.
  - intros g s. unfold MapRange.
    rewrite (rbind_ok _ _ h mp) by by apply load_map_ok.
    rewrite (Range_spec false h (backingVector mp) bs _ s HV).
    by rewrite visit_buckets.
Qed.

(** C8 (Range cancellation).  For a vector of elements [xs]: when the
    visitor returns stop on its [k]-th call, [Range] calls it [k] times, on
    the first [k] elements in index order, and on no other; a visitor that
    never returns stop is called once on each element, in index order.
    The same holds for a map, whose elements are its items, each key
    once, in the order of the buckets. *)
Theorem C8_range_cancellation {T K V S S' : Type} `{EqDecision K}
    sb (h : list (@obj T)) p (xs : list T) (f : S -> T -> bool * S) s0 k
    (hm : list (@obj (option (list (@MapItem K V))))) m (phi : K -> option V) n
    (g : S' -> K -> V -> bool * S') t0 k' :
  Vec sb h p xs -> MapRep hm m phi n ->
  (stops_at f s0 xs k ->
     exists s', Range p (traced f) (s0, []) h = Ok (s', take k xs) /\
                length (take k xs) = k) /\
  (never_stops f s0 xs ->
     exists s', Range p (traced f) (s0, []) h = Ok (s', xs)) /\
  exists items,
    Z.of_nat (length items) = n /\ NoDup (Key <$> items) /\
    (forall key, phi key = loadBucket key items) /\
    (stops_at (onItem g) t0 items k' ->
       exists t', MapRange m (tracedKV g) (t0, []) hm = Ok (t', take k' items) /\
                  length (take k' items) = k') /\
    (never_stops (onItem g) t0 items ->
       exists t', MapRange m (tracedKV g) (t0, []) hm = Ok (t', items)).
Proof.
  intros HV HM. split_and!.
  - intros Hst. rewrite (Range_spec sb h p xs _ _ HV).
    destruct (visit_traced_stop f xs k s0 [] Hst) as (s' & -> & Hl). eauto.
  - intros Hns. rewrite (Range_spec sb h p xs _ _ HV).
    destruct (visit_traced_all f xs s0 [] Hns) as (s' & ->). eauto.
  - destruct (MapRange_spec (S := S' * list (@MapItem K V)) hm m phi n HM)
      as (items & Hlen & Hnd & Hphi & HR).
    exists items. split_and!; try done.
    + intros Hst. rewrite HR.
      rewrite (visit_ext _ _ items (tracedKV_onItem g)).
      destruct (visit_traced_stop (onItem g) items k' t0 [] Hst) as (t' & -> & Hl). eauto.
    + intros Hns. rewrite HR.
      rewrite (visit_ext _ _ items (tracedKV_onItem g)).
      destruct (visit_traced_all (onItem g) items t0 [] Hns) as (t' & ->). eauto.
Qed.

(** A visitor that counts its calls and returns stop on the second, and a
    map visitor that returns stop on the first. *)
Definition stop2 (c : nat) (_ : Z) : bool * nat := (negb (Nat.eqb c 1), S c).
Definition stop1 (c : nat) (_ _ : Z) : bool * nat := (false, S c).

Lemma C8_range_cancellation_witness :
  stops_at stop2 0%nat [1; 2; 3] 2 /\
  (stops_at stop2 0%nat [1; 2; 3] 2 ->
     exists s', Range (run_loc ex3) (traced stop2) (0%nat, []) ex3.1
                = Ok (s', take 2 [1; 2; 3]) /\
                length (take 2 [1; 2; 3]) = 2%nat) /\
  (never_stops stop2 0%nat [1; 2; 3] ->
     exists s', Range (run_loc ex3) (traced stop2) (0%nat, []) ex3.1
                = Ok (s', [1; 2; 3])) /\
  exists items,
    Z.of_nat (length items) = 2 /\ NoDup (Key <$> items) /\
    (forall key, loadBucket key [mkMapItem 1 10; mkMapItem 2 20]
                 = loadBucket key items) /\
    (stops_at (onItem stop1) 0%nat items 1 ->
       exists t', MapRange (run_loc exm2) (tracedKV stop1) (0%nat, []) exm2.1
                  = Ok (t', take 1 items) /\
                  length (take 1 items) = 1%nat) /\
    (never_stops (onItem stop1) 0%nat items ->
       exists t', MapRange (run_loc exm2) (tracedKV stop1) (0%nat, []) exm2.1
                  = Ok (t', items)).
Proof.
  split; [reflexivity|].
  apply (C8_range_cancellation true ex3.1 (run_loc ex3) [1; 2; 3] stop2 0%nat 2%nat
           exm2.1 (run_loc exm2) _ 2 stop1 0%nat 1%nat ex3_Vec exm2_MapRep).
Defined.

(** Scenario C of the specification, on a small vector: the visitor stops
    on its second call; [Range] has called it twice, on the elements at
    indices 0 and 1. *)
Example scenario_C :
  Range (run_loc ex3) (traced stop2) (0%nat, []) ex3.1 = Ok (2%nat, [1; 2]) /\
  MapRange (run_loc exm2) (tracedKV stop1) (0%nat, []) exm2.1
    = Ok (1%nat, [mkMapItem 1 10]).
Proof. vm_compute. done. Qed.

(** * The rest of the package: native slices, vector slices, native maps *)

Section SLICE.

Context {T : Type}.
Variable zeroT : T.

Local Abbreviation heap := (list (@obj T)).

(** ** Vector.ToNativeSlice *)

(** The loop of [ToNativeSlice] appends one node of the vector per round;
    the result is a slice of its own, kept as a value. *)
Fixpoint ToNativeSlice_loop (fuel : nat) (p : loc) (i : Z) (result : list T)
    : R heap (list T) :=
  match fuel with
  | O => rpanic OutOfFuel
  | S n =>
    v <~ load_vec p ;;
    if i <? len v then
      a <~ sliceFor p i ;;
      node <~ load_arr a ;;
      ToNativeSlice_loop n p (uadd i nodeSize) (result ++ node)
    else rret result
  end.

Definition ToNativeSlice (p : loc) : R heap (list T) :=
  v <~ load_vec p ;;
  ToNativeSlice_loop (fuel_of (len v)) p 0 [].

(** ** VectorSlice *)

Definition NewVectorSlice (items : list T) : M heap loc :=
  v <- NewVector items ;;
  alloc (SliceS (mkVectorSlice v 0 (to_int (Z.of_nat (length items))))).

Definition SliceLen (s : loc) : R heap Z :=
  sl <~ load_slice s ;; rret (isub (stop sl) (start sl)).

Definition SliceGet (s : loc) (i : Z) : R heap T :=
  sl <~ load_slice s ;;
  if (i <? 0) || (iadd (start sl) i >=? stop sl) then rpanic IndexOutOfBounds
  else Get (vector sl) (iadd (start sl) i).

Definition SliceSet (s : loc) (i : Z) (item : T) : M heap loc :=
  sl <- lift (load_slice s) ;;
  if (i <? 0) || (iadd (start sl) i >=? stop sl) then mpanic IndexOutOfBounds
  else
    v <- Set_ zeroT (vector sl) (iadd (start sl) i) item ;;
    Slice v (start sl) (stop sl).

(** [items[itemPos:]] with its bounds check. *)
Definition slice_from {A} (items : list A) (itemPos : Z) : result (list A) :=
  if (itemPos <? 0) || (itemPos >? Z.of_nat (length items)) then Panic RuntimeIndex
  else Ok (drop (Z.to_nat itemPos) items).

(** The first loop of [VectorSlice.Append]: [vec] is [newSlice.vector].
    Every round consumes one item. *)
Fixpoint SliceAppend_loop (fuel : nat) (s : loc) (items : list T) (itemPos : Z)
    (vec : loc) : M heap (Z * loc) :=
  sl <- lift (load_slice s) ;;
  l <- lift (Len (vector sl)) ;;
  if (iadd (stop sl) itemPos <? l) && (itemPos <? to_int (Z.of_nat (length items)))
  then
    match fuel with
    | O => mpanic OutOfFuel
    | S f =>
      x <- lift (of_result (index items itemPos)) ;;
      vec' <- Set_ zeroT vec (iadd (stop sl) itemPos) x ;;
      SliceAppend_loop f s items (iadd itemPos 1) vec'
    end
  else mret (itemPos, vec).

Definition SliceAppend (s : loc) (items : list T) : M heap loc :=
  sl <- lift (load_slice s) ;;
  let newStop := iadd (stop sl) (to_int (Z.of_nat (length items))) in
  st <- SliceAppend_loop (length items) s items 0 (vector sl) ;;
  let '(itemPos, vec) := st in
  rest <- lift (of_result (slice_from items itemPos)) ;;
  vec' <- Append vec rest ;;
  alloc (SliceS (mkVectorSlice vec' (start sl) newStop)).

Definition SliceSlice (s : loc) (start_ stop_ : Z) : M heap loc :=
  sl <- lift (load_slice s) ;;
  lift (of_result (assertSliceOk start_ stop_ (isub (stop sl) (start sl)))) ;;;
  alloc (SliceS (mkVectorSlice (vector sl) (iadd (start sl) start_)
                               (iadd (start sl) stop_))).

(** The loop of [VectorSlice.Range]; [i] is unsigned. *)
Fixpoint SliceRange_loop {St : Type} (fuel : nat) (s : loc)
    (f : St -> T -> bool * St) (i : Z) (currentNode : list T) (st : St)
    : R heap St :=
  match fuel with
  | O => rpanic OutOfFuel
  | S n =>
    sl <~ load_slice s ;;
    if i <? to_uint (stop sl) then
      cur <~ (if (Z.land i shiftBitMask =? 0) || (i =? to_uint (start sl)) then
                a <~ sliceFor (vector sl) i ;; load_arr a
              else rret currentNode) ;;
      x <~ of_result (index cur (Z.land i shiftBitMask)) ;;
      let '(continue, st') := f st x in
      if continue then SliceRange_loop n s f (uadd i 1) cur st'
      else rret st'
    else rret st
  end.

Definition SliceRange {St : Type} (s : loc) (f : St -> T -> bool * St) (st : St)
    : R heap St :=
  sl <~ load_slice s ;;
  SliceRange_loop (fuel_of (isub (stop sl) (start sl))) s f
                  (to_uint (start sl)) [] st.

End SLICE.

Section NATIVE_MAP.

Context {K V : Type} `{EqDecision K}.

(** A native map under construction is kept as its entries; [m[key] =
    value] replaces the entry of the key or adds one. *)
Fixpoint native_set (m : list (K * V)) (key : K) (value : V) : list (K * V) :=
  match m with
  | [] => [(key, value)]
  | (k, v) :: rest =>
    if bool_decide (k = key) then (key, value) :: rest
    else (k, v) :: native_set rest key value
  end.

Fixpoint native_get (m : list (K * V)) (key : K) : option V :=
  match m with
  | [] => None
  | (k, v) :: rest => if bool_decide (k = key) then Some v else native_get rest key
  end.

Definition ToNativeMap (m : loc)
    : R (list (@obj (option (list (@MapItem K V))))) (list (K * V)) :=
  MapRange m (fun result key value => (true, native_set result key value)) [].

End NATIVE_MAP.

(** * Properties of the rest of the package *)

Section SLICE_SPEC.

Context {T : Type}.
Variable zeroT : T.

Local Abbreviation heap := (list (@obj T)).

(** ** ToNativeSlice *)

(** The array [sliceFor] returns for an index holds exactly the 32-block
    of the index, cut at the end of the vector. *)
Lemma sliceFor_block s (h : heap) p (xs : list T) i :
  Vec s h p xs -> 0 <= i < Z.of_nat (length xs) ->
  exists a,
    sliceFor p i h = Ok a /\
    h !! a = Some (ArrT (take 32 (drop (Z.to_nat (i / 32 * 32)) xs))).
Proof.
  intros HV Hi.
  destruct (sliceFor_spec s h p xs i HV Hi) as (a & ys & Hsl & Ha & Hy).
  exists a. split; [exact Hsl|]. rewrite Ha. do 2 f_equal.
  pose proof (Z.div_mod i 32 ltac:(lia)) as Hdm.
  pose proof (Z.mod_pos_bound i 32 ltac:(lia)) as Hmb.
  set (b := i / 32 * 32) in *.
  assert (0 <= b <= i) as Hb by lia.
  (* the length of the array *)
  assert (Z.of_nat (length ys) = Z.min 32 (Z.of_nat (length xs) - b)) as Hlen.
  { destruct HV as (v & ts & d & Hv & Hlen & Hb63 & Hs & Hd & Hc & Hm & Ht & Hts & Hn).
    assert (0 <= len v < 2 ^ 63) as Hl by lia.
    pose proof (tailOffset_props v Hl) as (HN32 & HN & HNt & HNl).
    pose proof (Vec_depth_bound v d Hl Hd Hm) as Hd12.
    unfold sliceFor in Hsl.
    rewrite (rbind_ok (load_vec p) _ h v) in Hsl by by apply load_vec_ok.
    destruct (i >=? tailOffset v) eqn:E.
    - rewrite Z.geb_leb in E. apply Z.leb_le in E.
      injection Hsl as <-. rewrite Ht in Ha. injection Ha as <-.
      rewrite Hts, length_drop.
      assert (b = tailOffset v) as ->; [|lia].
      destruct HN32 as [q Hq]. unfold b.
      assert (i / 32 = q); [|lia].
      symmetry. apply Z.div_unique with (r := i - q * 32); lia.
    - rewrite Z.geb_leb in E. apply Z.leb_gt in E.
      destruct (sliceFor_loop_spec s anywhere h xs (tailOffset v) d 0 (root v) i
                  (fuel_of (shift v)) Hn Hd12) as (a' & ys' & Hsl' & Ha' & Hyl & _);
        try lia.
      { apply Z.divide_0_r. }
      { unfold fuel_of. lia. }
      rewrite Hs in Hsl, Hsl'.
      rewrite (rbind_ok _ _ h (CLeaf a')) in Hsl by exact Hsl'.
      injection Hsl as <-. rewrite Ha' in Ha. injection Ha as <-.
      assert (b + 32 <= tailOffset v); [|lia].
      destruct HN32 as [q Hq]. unfold b.
      assert (i / 32 < q); [|lia].
      apply Z.div_lt_upper_bound; lia. }
  apply list_eq. intros k.
  destruct (decide (k < length ys)%nat) as [Hk|Hk].
  - rewrite lookup_take_lt by lia. rewrite lookup_drop.
    assert (Z.of_nat k = (b + Z.of_nat k) mod 32) as Hkm.
    { unfold b. rewrite Z.add_comm, Z.mod_add by lia. symmetry. apply Z.mod_small. lia. }
    specialize (Hy (b + Z.of_nat k) ltac:(lia)).
    rewrite <- Hkm, Nat2Z.id in Hy. rewrite Hy.
    + f_equal. lia.
    + unfold b. rewrite Z.add_comm, Z.div_add by lia.
      rewrite Z.div_small by lia. lia.
  - rewrite lookup_ge_None_2 by lia. symmetry. apply lookup_ge_None_2.
    rewrite length_take, length_drop. lia.
Qed.

Lemma ToNativeSlice_loop_spec s (h : heap) p (xs : list T) :
  Vec s h p xs ->
  forall fuel i acc,
    0 <= i -> i mod 32 = 0 ->
    (length xs - Z.to_nat i < fuel)%nat ->
    ToNativeSlice_loop fuel p i acc h = Ok (acc ++ drop (Z.to_nat i) xs).
Proof.
  intros HV. pose proof HV as (v & ts & d & Hv & Hlen & Hb & _).
  induction fuel as [|fuel IH]; intros i acc Hi Hm Hf; [lia|].
  cbn [ToNativeSlice_loop].
  rewrite (rbind_ok (load_vec p) _ h v) by by apply load_vec_ok.
  destruct (i <? len v) eqn:E; [apply Z.ltb_lt in E|apply Z.ltb_ge in E].
  2:{ rewrite drop_ge by lia. by rewrite app_nil_r. }
  destruct (sliceFor_block s h p xs i HV ltac:(lia)) as (a & Hsl & Ha).
  rewrite (rbind_ok _ _ h a) by exact Hsl.
  rewrite (rbind_ok _ _ h _) by (apply load_arr_ok; exact Ha).
  assert (i / 32 * 32 = i) as -> by (pose proof (Z.div_mod i 32 ltac:(lia)); lia).
  unfold nodeSize. rewrite uadd_small by lia.
  rewrite IH.
  - rewrite <- app_assoc. do 2 f_equal.
    replace (Z.to_nat (i + 32)) with (Z.to_nat i + 32)%nat by lia.
    rewrite <- drop_drop. by rewrite take_drop.
  - lia.
  - rewrite <- Zplus_mod_idemp_l, Hm. reflexivity.
  - lia.
Qed.

Lemma ToNativeSlice_spec s (h : heap) p (xs : list T) :
  Vec s h p xs -> ToNativeSlice p h = Ok xs.
Proof.
  intros HV. pose proof HV as (v & ts & d & Hv & Hlen & Hb & _).
  unfold ToNativeSlice.
  rewrite (rbind_ok (load_vec p) _ h v) by by apply load_vec_ok.
  rewrite (ToNativeSlice_loop_spec s h p xs HV); [done|lia|done|].
  unfold fuel_of. lia.
Qed.

(** ** Vector slices *)

(** [SliceRep sb h s ys lo hi]: in heap [h], the handle [s] is a slice of
    a vector that holds [ys], from index [lo] up to, not including,
    [hi].  Its elements are [elems ys lo hi]. *)
Definition SliceRep (sb : bool) (h : heap) (s : loc) (ys : list T) (lo hi : nat)
    : Prop :=
  exists sl,
    h !! s = Some (SliceS sl) /\ Vec sb h (vector sl) ys /\
    start sl = Z.of_nat lo /\ stop sl = Z.of_nat hi /\
    (lo <= hi <= length ys)%nat.

Definition elems (ys : list T) (lo hi : nat) : list T :=
  take (hi - lo) (drop lo ys).

Lemma elems_length ys lo hi :
  (lo <= hi <= length ys)%nat -> length (elems ys lo hi) = (hi - lo)%nat.
Proof. intros H. unfold elems. rewrite length_take, length_drop. lia. Qed.

Lemma elems_lookup ys lo hi i :
  (i < hi - lo)%nat -> elems ys lo hi !! i = ys !! (lo + i)%nat.
Proof. intros H. unfold elems. rewrite lookup_take_lt by lia. apply lookup_drop. Qed.

Lemma elems_insert ys lo hi i x :
  (i < hi - lo)%nat ->
  elems (<[(lo + i)%nat := x]> ys) lo hi = <[i := x]> (elems ys lo hi).
Proof.
  intros H. unfold elems. rewrite drop_insert_ge by lia.
  replace (lo + i - lo)%nat with i by lia.
  by rewrite take_insert_lt by lia.
Qed.

Lemma elems_elems ys lo hi a b :
  (a <= b <= hi - lo)%nat ->
  elems ys (lo + a) (lo + b) = elems (elems ys lo hi) a b.
Proof.
  intros H. apply list_eq. intros k.
  destruct (decide (k < b - a)%nat) as [Hk|Hk].
  - rewrite !elems_lookup by lia. f_equal. lia.
  - unfold elems at 1 2. rewrite !lookup_take_ge; [done|lia|lia].
Qed.

Lemma SliceRep_heap_mono sb (h h' : heap) s ys lo hi :
  h `prefix_of` h' -> SliceRep sb h s ys lo hi -> SliceRep sb h' s ys lo hi.
Proof.
  intros Hp (sl & Hs & HV & Hlo & Hhi & Hb). exists sl.
  split; [by eapply lookup_ext|]. split; [by eapply Vec_heap_mono|done].
Qed.

Lemma SliceRep_intro sb (h : heap) s sl (ys : list T) lo hi :
  h !! s = Some (SliceS sl) -> Vec sb h (vector sl) ys ->
  start sl = Z.of_nat lo -> stop sl = Z.of_nat hi ->
  (lo <= hi)%nat -> (hi <= length ys)%nat ->
  SliceRep sb h s ys lo hi.
Proof. intros. exists sl. done. Qed.

Lemma load_slice_ok (h : heap) s sl :
  h !! s = Some (SliceS sl) -> load_slice s h = Ok sl.
Proof. unfold load_slice. by intros ->. Qed.

Lemma Vec_bound sb (h : heap) p (ys : list T) :
  Vec sb h p ys -> Z.of_nat (length ys) < 2 ^ 63.
Proof. intros (v & ts & d & Hv & Hlen & Hb & _). lia. Qed.

Lemma Slice_spec sb (h : heap) p (ys : list T) lo hi :
  Vec sb h p ys -> (lo <= hi <= length ys)%nat ->
  wp (Slice p (Z.of_nat lo) (Z.of_nat hi)) h
    (fun s h' => h `prefix_of` h' /\ SliceRep sb h' s ys lo hi).
Proof.
  intros HV Hb. unfold Slice.
  eapply wp_bind_lift; [by eapply Vec_len|].
  eapply wp_bind_lift with (a := tt).
  { unfold of_result, assertSliceOk.
    by rewrite ltb_false, gtb_false, gtb_false by lia. }
  apply wp_alloc. split; [by apply prefix_app_r|].
  eapply SliceRep_intro; [apply lookup_alloc_new| |done|done|lia|lia].
  eapply Vec_heap_mono; [|exact HV]. by apply prefix_app_r.
Qed.

Lemma NewVectorSlice_spec (h : heap) (items : list T) :
  heap_ok h -> Z.of_nat (length items) < 2 ^ 63 ->
  wp (NewVectorSlice items) h
    (fun s h' => h `prefix_of` h' /\ SliceRep true h' s items 0 (length items)).
Proof.
  intros Hok Hb. unfold NewVectorSlice. apply wp_bind.
  eapply wp_mono; [by apply NewVector_spec|].
  intros p h1 [Hp HV]. apply wp_alloc.
  split; [etrans; [exact Hp|]; by apply prefix_app_r|].
  eapply SliceRep_intro; [apply lookup_alloc_new| | | |lia|lia].
  - eapply Vec_heap_mono; [|exact HV]. by apply prefix_app_r.
  - done.
  - cbn [stop]. apply to_int_small. lia.
Qed.

Lemma SliceLen_spec sb (h : heap) s (ys : list T) lo hi :
  SliceRep sb h s ys lo hi -> SliceLen s h = Ok (Z.of_nat hi - Z.of_nat lo).
Proof.
  intros (sl & Hs & HV & Hlo & Hhi & Hb). pose proof (Vec_bound _ _ _ _ HV).
  unfold SliceLen. rewrite (rbind_ok _ _ h sl) by by apply load_slice_ok.
  unfold rret. rewrite Hlo, Hhi. by rewrite isub_small by lia.
Qed.

Lemma SliceGet_spec sb (h : heap) s (ys : list T) lo hi i x :
  SliceRep sb h s ys lo hi -> elems ys lo hi !! i = Some x ->
  SliceGet s (Z.of_nat i) h = Ok x.
Proof.
  intros (sl & Hs & HV & Hlo & Hhi & Hb) Hx. pose proof (Vec_bound _ _ _ _ HV).
  apply lookup_lt_Some in Hx as Hlt. rewrite elems_length in Hlt by done.
  rewrite elems_lookup in Hx by done.
  unfold SliceGet. rewrite (rbind_ok _ _ h sl) by by apply load_slice_ok.
  rewrite Hlo, Hhi. rewrite iadd_small by lia.
  rewrite ltb_false, geb_false by lia. cbn [orb].
  eapply Get_spec; [exact HV| |lia].
  by replace (Z.to_nat (Z.of_nat lo + Z.of_nat i)) with (lo + i)%nat by lia.
Qed.

(** Outside the slice [Get] panics, also when [start + i] overflows: the
    sum is then negative and the vector's [Get] refuses it. *)
Lemma SliceGet_out sb (h : heap) s (ys : list T) lo hi i :
  SliceRep sb h s ys lo hi -> - 2 ^ 63 <= i < 2 ^ 63 ->
  i < 0 \/ Z.of_nat hi - Z.of_nat lo <= i ->
  SliceGet s i h = Panic IndexOutOfBounds.
Proof.
  intros (sl & Hs & HV & Hlo & Hhi & Hb) Hi Hout. pose proof (Vec_bound _ _ _ _ HV).
  unfold SliceGet. rewrite (rbind_ok _ _ h sl) by by apply load_slice_ok.
  rewrite Hlo, Hhi.
  destruct (i <? 0) eqn:E; [done|]. apply Z.ltb_ge in E. cbn [orb].
  destruct (iadd (Z.of_nat lo) i >=? Z.of_nat hi) eqn:E2; [done|].
  rewrite Z.geb_leb in E2. apply Z.leb_gt in E2.
  (* the sum has wrapped around *)
  assert (iadd (Z.of_nat lo) i < 0) as Hneg.
  { destruct (decide (Z.of_nat lo + i < 2 ^ 63)) as [Hs'|Hs'].
    - rewrite iadd_small in E2 by lia. lia.
    - unfold iadd, to_int.
      replace (Z.of_nat lo + i + 2 ^ 63) with
        ((Z.of_nat lo + i - 2 ^ 63) + 1 * 2 ^ 64) by lia.
      rewrite Z.mod_add by lia. rewrite Z.mod_small by lia. lia. }
  destruct HV as (v & ts & d & Hv & _).
  unfold Get. rewrite (rbind_ok _ _ h v) by by apply load_vec_ok.
  by rewrite ltb_true by lia.
Qed.

Lemma SliceSet_spec sb (h : heap) s (ys : list T) lo hi i x :
  SliceRep sb h s ys lo hi -> (i < hi - lo)%nat ->
  wp (SliceSet zeroT s (Z.of_nat i) x) h
    (fun s' h' => h `prefix_of` h' /\
                  SliceRep false h' s' (<[(lo + i)%nat := x]> ys) lo hi).
Proof.
  intros (sl & Hs & HV & Hlo & Hhi & Hb) Hi. pose proof (Vec_bound _ _ _ _ HV).
  unfold SliceSet. eapply wp_bind_lift; [by apply load_slice_ok|].
  rewrite Hlo, Hhi. rewrite iadd_small by lia.
  rewrite ltb_false, geb_false by lia. cbn [orb].
  apply wp_bind. eapply wp_mono.
  { apply (Set_spec zeroT sb h (vector sl) ys (Z.of_nat lo + Z.of_nat i) x HV). lia. }
  intros p' h1 [Hp HV'].
  replace (Z.to_nat (Z.of_nat lo + Z.of_nat i)) with (lo + i)%nat in HV' by lia.
  eapply wp_mono.
  { apply (Slice_spec false h1 p' _ lo hi HV'). rewrite length_insert. lia. }
  intros s' h2 [Hp2 HS]. split; [by etrans|done].
Qed.

Lemma SliceSet_out sb (h : heap) s (ys : list T) lo hi i x :
  SliceRep sb h s ys lo hi -> - 2 ^ 63 <= i < 2 ^ 63 ->
  i < 0 \/ Z.of_nat hi - Z.of_nat lo <= i ->
  SliceSet zeroT s i x h = (h, Panic IndexOutOfBounds).
Proof.
  intros (sl & Hs & HV & Hlo & Hhi & Hb) Hi Hout. pose proof (Vec_bound _ _ _ _ HV).
  unfold SliceSet, mbind, lift. rewrite (load_slice_ok h s sl Hs).
  rewrite Hlo, Hhi.
  destruct (i <? 0) eqn:E; [done|]. apply Z.ltb_ge in E. cbn [orb].
  destruct (iadd (Z.of_nat lo) i >=? Z.of_nat hi) eqn:E2; [done|].
  rewrite Z.geb_leb in E2. apply Z.leb_gt in E2.
  assert (iadd (Z.of_nat lo) i < 0) as Hneg.
  { destruct (decide (Z.of_nat lo + i < 2 ^ 63)) as [Hs'|Hs'].
    - rewrite iadd_small in E2 by lia. lia.
    - unfold iadd, to_int.
      replace (Z.of_nat lo + i + 2 ^ 63) with
        ((Z.of_nat lo + i - 2 ^ 63) + 1 * 2 ^ 64) by lia.
      rewrite Z.mod_add by lia. rewrite Z.mod_small by lia. lia. }
  destruct HV as (v & ts & d & Hv & _).
  unfold Set_, mbind, lift. rewrite (load_vec_ok h _ v Hv).
  by rewrite ltb_true by lia.
Qed.

Lemma SliceSlice_spec sb (h : heap) s (ys : list T) lo hi a b :
  SliceRep sb h s ys lo hi -> (a <= b <= hi - lo)%nat ->
  wp (SliceSlice s (Z.of_nat a) (Z.of_nat b)) h
    (fun s' h' => h `prefix_of` h' /\ SliceRep sb h' s' ys (lo + a) (lo + b)).
Proof.
  intros (sl & Hs & HV & Hlo & Hhi & Hb) Hab. pose proof (Vec_bound _ _ _ _ HV).
  unfold SliceSlice. eapply wp_bind_lift; [by apply load_slice_ok|].
  rewrite Hlo, Hhi. rewrite isub_small by lia.
  eapply wp_bind_lift with (a := tt).
  { unfold of_result, assertSliceOk.
    by rewrite ltb_false, gtb_false, gtb_false by lia. }
  apply wp_alloc. split; [by apply prefix_app_r|].
  eapply SliceRep_intro; [apply lookup_alloc_new| | | |lia|lia].
  - eapply Vec_heap_mono; [|exact HV]. by apply prefix_app_r.
  - cbn [start]. rewrite iadd_small by lia. lia.
  - cbn [stop]. rewrite iadd_small by lia. lia.
Qed.

Lemma SliceSlice_out sb (h : heap) s (ys : list T) lo hi a b :
  SliceRep sb h s ys lo hi ->
  a < 0 \/ a > b \/ b > Z.of_nat hi - Z.of_nat lo ->
  exists e, SliceSlice s a b h = (h, Panic e) /\ invalid_argument e = true.
Proof.
  intros (sl & Hs & HV & Hlo & Hhi & Hb) Hab. pose proof (Vec_bound _ _ _ _ HV).
  unfold SliceSlice, mbind, lift. rewrite (load_slice_ok h s sl Hs).
  rewrite Hlo, Hhi. rewrite isub_small by lia.
  unfold of_result, assertSliceOk.
  destruct (a <? 0) eqn:E1; [by eexists|]. apply Z.ltb_ge in E1.
  destruct (a >? b) eqn:E2; [by eexists|].
  destruct (b >? Z.of_nat hi - Z.of_nat lo) eqn:E3; [by eexists|].
  rewrite Z.gtb_ltb in E2, E3. apply Z.ltb_ge in E2, E3. lia.
Qed.

Lemma elems_cons ys lo hi x :
  (lo < hi)%nat -> ys !! lo = Some x -> elems ys lo hi = x :: elems ys (S lo) hi.
Proof.
  intros H Hx. unfold elems. rewrite (drop_S ys x lo Hx).
  by replace (hi - lo)%nat with (S (hi - S lo)) by lia.
Qed.

Lemma elems_nil ys lo hi : (hi <= lo)%nat -> elems ys lo hi = [].
Proof. intros H. unfold elems. by replace (hi - lo)%nat with 0%nat by lia. Qed.

Lemma SliceRange_loop_spec {St : Type} sb (h : heap) s (ys : list T) lo hi
    (f : St -> T -> bool * St) :
  SliceRep sb h s ys lo hi ->
  forall fuel i cur st,
    (lo <= i <= hi)%nat -> (hi - i < fuel)%nat ->
    (Z.of_nat i mod 32 <> 0 -> i <> lo ->
       forall j, 0 <= j < Z.of_nat (length ys) -> j / 32 = Z.of_nat i / 32 ->
                 cur !! Z.to_nat (j mod 32) = ys !! Z.to_nat j) ->
    SliceRange_loop fuel s f (Z.of_nat i) cur st h
    = Ok (visit f st (elems ys i hi)).
Proof.
  intros (sl & Hs & HV & Hlo & Hhi & Hb). pose proof (Vec_bound _ _ _ _ HV) as Hb63.
  induction fuel as [|fuel IH]; intros i cur st Hi Hf Hcur; [lia|].
  cbn [SliceRange_loop].
  rewrite (rbind_ok (load_slice s) _ h sl) by by apply load_slice_ok.
  rewrite Hlo, Hhi, !to_uint_small by lia.
  destruct (Z.of_nat i <? Z.of_nat hi) eqn:E; [apply Z.ltb_lt in E|apply Z.ltb_ge in E].
  2:{ rewrite elems_nil by lia. done. }
  destruct (lookup_lt_is_Some_2 ys i ltac:(lia)) as [x Hx].
  assert (exists cur',
    (if (Z.land (Z.of_nat i) shiftBitMask =? 0) || (Z.of_nat i =? Z.of_nat lo)
     then a <~ sliceFor (vector sl) (Z.of_nat i);; load_arr a else rret cur) h
    = Ok cur' /\
    forall j, 0 <= j < Z.of_nat (length ys) -> j / 32 = Z.of_nat i / 32 ->
              cur' !! Z.to_nat (j mod 32) = ys !! Z.to_nat j) as (cur' & Hc & Hcur').
  { rewrite land_mask by lia.
    destruct ((Z.of_nat i mod 32 =? 0) || (Z.of_nat i =? Z.of_nat lo)) eqn:E0.
    - destruct (sliceFor_spec sb h (vector sl) ys (Z.of_nat i) HV ltac:(lia))
        as (a & zs & Hsl & Ha & Hy).
      exists zs. split; [|exact Hy].
      rewrite (rbind_ok _ _ h a) by exact Hsl. by apply load_arr_ok.
    - apply orb_false_iff in E0 as [E1 E2].
      apply Z.eqb_neq in E1, E2.
      exists cur. split; [done|]. apply Hcur; [done|lia]. }
  rewrite (rbind_ok _ _ h cur') by exact Hc.
  rewrite (rbind_ok _ _ h x).
  2:{ unfold of_result, index. rewrite land_mask by lia.
      rewrite Hcur' by (done || lia). by rewrite Nat2Z.id, Hx. }
  rewrite (elems_cons ys i hi x) by (done || lia). cbn [visit].
  destruct (f st x) as [[|] st']; [|done].
  rewrite uadd_small by lia.
  replace (Z.of_nat i + 1) with (Z.of_nat (S i)) by lia.
  apply IH; [lia|lia|].
  intros Hne _ j Hj Hji. apply Hcur'; [done|]. rewrite Hji.
  pose proof (Z.div_mod (Z.of_nat i) 32 ltac:(lia)).
  pose proof (Z.mod_pos_bound (Z.of_nat i) 32 ltac:(lia)).
  pose proof (Z.div_mod (Z.of_nat (S i)) 32 ltac:(lia)).
  pose proof (Z.mod_pos_bound (Z.of_nat (S i)) 32 ltac:(lia)).
  nia.
Qed.

Lemma SliceRange_spec {St : Type} sb (h : heap) s (ys : list T) lo hi
    (f : St -> T -> bool * St) st :
  SliceRep sb h s ys lo hi ->
  SliceRange s f st h = Ok (visit f st (elems ys lo hi)).
Proof.
  intros HS. pose proof HS as (sl & Hs & HV & Hlo & Hhi & Hb).
  pose proof (Vec_bound _ _ _ _ HV) as Hb63.
  unfold SliceRange.
  rewrite (rbind_ok (load_slice s) _ h sl) by by apply load_slice_ok.
  rewrite Hlo, Hhi, to_uint_small, isub_small by lia.
  apply (SliceRange_loop_spec sb h s ys lo hi f HS); [lia| |done].
  unfold fuel_of. lia.
Qed.

(** *** VectorSlice.Append *)

(** [Set] at an index of the tail copies the tail and leaves the trie as
    it is: a trie without nil padding stays without. *)
Lemma Set_tail_spec s (h : heap) p (xs : list T) i x :
  Vec s h p xs -> 0 <= i < Z.of_nat (length xs) ->
  (Z.of_nat (length xs) - 1) / 32 * 32 <= i ->
  wp (Set_ zeroT p i x) h
    (fun p' h' => h `prefix_of` h' /\ Vec s h' p' (<[Z.to_nat i := x]> xs)).
Proof.
  intros (v & ts & d & Hv & Hlen & Hb & Hs & Hd & Hc & Hm & Ht & Hts & Hn) Hi Htail.
  assert (0 <= len v < 2 ^ 63) as Hl by lia.
  pose proof (tailOffset_props v Hl) as (HN32 & HN & HNt & HNl).
  assert (tailOffset v <= i) as E.
  { rewrite tailOffset_val by done. rewrite Hlen.
    destruct (Z.of_nat (length xs) <? 32); lia. }
  unfold Set_. eapply wp_bind_lift; [by apply load_vec_ok|].
  rewrite to_uint_small by lia.
  rewrite ltb_false, geb_false by lia. cbn [orb].
  rewrite geb_true by lia.
  assert (length ts = Z.to_nat (len v - tailOffset v)) as Htl.
  { rewrite Hts, length_drop. lia. }
  eapply wp_bind_lift; [by apply load_arr_ok|].
  apply wp_bind_alloc.
  eapply wp_bind_copy_arr; [apply lookup_alloc_new|].
  rewrite insert_alloc, copy_list_same_length by by rewrite length_replicate.
  rewrite (land_tail i (tailOffset v)) by (done || lia).
  eapply wp_bind_set_arr; [apply lookup_alloc_new|lia|].
  rewrite insert_alloc. apply wp_alloc.
  set (h1 := h ++ [ArrT (<[Z.to_nat (i - tailOffset v) := x]> ts)]).
  set (v' := mkVector (length h) (root v) (len v) (shift v)).
  assert (tailOffset v' = tailOffset v) as HtO by reflexivity.
  assert (h `prefix_of` h1 ++ [VecS v']) as Hp.
  { apply prefix_app_r. by apply prefix_app_r. }
  split; [exact Hp|].
  exists v', (<[Z.to_nat (i - tailOffset v) := x]> ts), d.
  rewrite HtO.
  split_and!; try done.
  - apply lookup_alloc_new.
  - cbn [len]. by rewrite length_insert.
  - cbn [tail]. apply lookup_alloc_old. apply lookup_alloc_new.
  - rewrite drop_insert_ge by lia. rewrite Hts. f_equal. lia.
  - cbn [root]. eapply node_ok_heap_mono; [exact Hp|].
    eapply node_ok_below; [exact HN32|apply Z.divide_0_r|lia|lia| |exact Hn].
    intros j Hj. symmetry. apply list_lookup_insert_ne. lia.
Qed.

Lemma Vec_relax s (h : heap) p (xs : list T) : Vec s h p xs -> Vec false h p xs.
Proof.
  intros (v & ts & d & Hv & Hlen & Hb & Hs & Hd & Hc & Hm & Ht & Hts & Hn).
  exists v, ts, d. split_and!; try done.
  eapply node_ok_relax; [|exact Hn]. done.
Qed.

(** [overwrite ys hi l]: [ys] with the elements from index [hi] on
    replaced by those of [l], and made longer where [l] reaches past the
    end. *)
Definition overwrite (ys : list T) (hi : nat) (l : list T) : list T :=
  take hi ys ++ l ++ drop (hi + length l) ys.

Lemma overwrite_length ys hi l :
  (hi <= length ys)%nat ->
  length (overwrite ys hi l) = Nat.max (length ys) (hi + length l).
Proof. intros H. unfold overwrite. rewrite !length_app, length_take, length_drop. lia. Qed.

Lemma overwrite_nil ys hi : overwrite ys hi [] = ys.
Proof. unfold overwrite. simpl. rewrite Nat.add_0_r. apply take_drop. Qed.

Lemma overwrite_step ys hi (items : list T) k x :
  (hi + k < length ys)%nat -> items !! k = Some x ->
  <[(hi + k)%nat := x]> (overwrite ys hi (take k items))
  = overwrite ys hi (take (S k) items).
Proof.
  intros Hk Hx. apply lookup_lt_Some in Hx as Hlt. unfold overwrite.
  rewrite (take_S_r items k x Hx), !length_app, !length_take. simpl.
  replace (k `min` length items)%nat with k by lia.
  destruct (lookup_lt_is_Some_2 ys (hi + k) Hk) as [y Hy].
  rewrite (drop_S ys y (hi + k) Hy).
  rewrite insert_app_r_alt by (rewrite length_take; lia).
  rewrite length_take. replace (hi + k - hi `min` length ys)%nat with k by lia.
  rewrite insert_app_r_alt by (rewrite length_take; lia).
  rewrite length_take. replace (k - k `min` length items)%nat with 0%nat by lia.
  simpl. rewrite <- app_assoc. simpl. do 4 f_equal. lia.
Qed.

Lemma overwrite_finish ys hi (items : list T) :
  (hi <= length ys)%nat ->
  let kf := Nat.min (length items) (length ys - hi) in
  overwrite ys hi (take kf items) ++ drop kf items = overwrite ys hi items.
Proof.
  intros H kf. unfold overwrite. rewrite length_take.
  destruct (decide (length items <= length ys - hi)%nat) as [Hc|Hc].
  - replace kf with (length items) by lia.
    rewrite firstn_all, drop_all, app_nil_r. do 3 f_equal. lia.
  - replace kf with (length ys - hi)%nat by lia.
    rewrite !(drop_ge ys) by lia. rewrite !app_nil_r.
    by rewrite <- app_assoc, take_drop.
Qed.

Lemma elems_overwrite ys lo hi (items : list T) :
  (lo <= hi <= length ys)%nat ->
  elems (overwrite ys hi items) lo (hi + length items) = elems ys lo hi ++ items.
Proof.
  intros H. unfold elems, overwrite.
  rewrite drop_app_le by (rewrite length_take; lia).
  rewrite app_assoc, take_app_le by (rewrite length_app, length_drop, length_take; lia).
  rewrite take_ge by (rewrite length_app, length_drop, length_take; lia).
  f_equal. rewrite skipn_firstn_comm. done.
Qed.

Lemma Append_nil (h : heap) p : Append p (@nil T) h = (h, Ok p).
Proof. reflexivity. Qed.

Lemma SliceAppend_loop_spec sb t (h0 : heap) s (ys : list T) lo hi (items : list T) :
  SliceRep sb h0 s ys lo hi ->
  Z.of_nat (length ys) + Z.of_nat (length items) < 2 ^ 63 ->
  (t = true -> (Z.of_nat (length ys) - 1) / 32 * 32 <= Z.of_nat hi) ->
  forall fuel k (h : heap) vec,
    h0 `prefix_of` h ->
    Vec t h vec (overwrite ys hi (take k items)) ->
    (k <= length items)%nat -> (hi + k <= length ys)%nat ->
    (length items - k <= fuel)%nat ->
    wp (SliceAppend_loop zeroT fuel s items (Z.of_nat k) vec) h
      (fun r h' =>
         h `prefix_of` h' /\
         let kf := Nat.min (length items) (length ys - hi) in
         r.1 = Z.of_nat kf /\ Vec t h' r.2 (overwrite ys hi (take kf items))).
Proof.
  intros (sl & Hs & HV & Hlo & Hhi & Hb) Hb63 Ht.
  induction fuel as [|fuel IH]; intros k h vec Hp HVk Hk Hhk Hf.
  - assert (k = length items) as -> by lia.
    unfold SliceAppend_loop.
    eapply wp_bind_lift; [apply load_slice_ok; by eapply lookup_ext|].
    eapply wp_bind_lift.
    { eapply Vec_len. eapply Vec_heap_mono; [exact Hp|exact HV]. }
    rewrite to_int_small by lia.
    rewrite (ltb_false (Z.of_nat (length items))) by lia.
    rewrite andb_false_r. apply wp_ret. split; [done|]. cbv zeta.
    replace (length items `min` (length ys - hi))%nat with (length items) by lia.
    done.
  - cbn [SliceAppend_loop].
    eapply wp_bind_lift; [apply load_slice_ok; by eapply lookup_ext|].
    eapply wp_bind_lift.
    { eapply Vec_len. eapply Vec_heap_mono; [exact Hp|exact HV]. }
    rewrite Hhi, to_int_small, iadd_small by lia.
    destruct ((Z.of_nat hi + Z.of_nat k <? Z.of_nat (length ys)) &&
              (Z.of_nat k <? Z.of_nat (length items))) eqn:E.
    + apply andb_true_iff in E as [E1 E2]. apply Z.ltb_lt in E1, E2.
      destruct (lookup_lt_is_Some_2 items k ltac:(lia)) as [x Hx].
      eapply wp_bind_lift.
      { unfold of_result, index. by rewrite Nat2Z.id, Hx. }
      apply wp_bind. eapply wp_mono.
      { instantiate (1 := fun p' h' =>
          h `prefix_of` h' /\ Vec t h' p' (overwrite ys hi (take (S k) items))).
        assert (length (overwrite ys hi (take k items)) = length ys) as Hlen.
        { rewrite overwrite_length, length_take by lia. lia. }
        rewrite <- (overwrite_step ys hi items k x) by (done || lia).
        replace (hi + k)%nat with (Z.to_nat (Z.of_nat hi + Z.of_nat k)) by lia.
        destruct t.
        - apply Set_tail_spec; [done|lia|]. rewrite Hlen. specialize (Ht eq_refl). lia.
        - apply Set_spec with (s := false); [done|lia]. }
      intros p' h1 [Hp1 HV1]. cbv beta.
      rewrite iadd_small by lia.
      replace (Z.of_nat k + 1) with (Z.of_nat (S k)) by lia.
      eapply wp_mono.
      { apply IH; [by etrans|done|lia|lia|lia]. }
      intros r h2 [Hp2 Hr]. split; [by etrans|done].
    + apply wp_ret. split; [done|]. cbv zeta.
      apply andb_false_iff in E as [E|E]; apply Z.ltb_ge in E.
      * replace (length items `min` (length ys - hi))%nat with k by lia. done.
      * replace (length items `min` (length ys - hi))%nat with k by lia. done.
Qed.

Lemma SliceAppend_spec sb (h : heap) s (ys : list T) lo hi (items : list T) :
  SliceRep sb h s ys lo hi ->
  Z.of_nat (length ys) + Z.of_nat (length items) < 2 ^ 63 ->
  (hi + length items <= length ys)%nat \/
  (sb = true /\ (Z.of_nat (length ys) - 1) / 32 * 32 <= Z.of_nat hi) ->
  wp (SliceAppend zeroT s items) h
    (fun s' h' =>
       h `prefix_of` h' /\
       exists sb', SliceRep sb' h' s' (overwrite ys hi items) lo (hi + length items)).
Proof.
  intros HS Hb63 Hcase. pose proof HS as (sl & Hs & HV & Hlo & Hhi & Hb).
  assert (exists t : bool,
            (t = true -> sb = true /\
                         (Z.of_nat (length ys) - 1) / 32 * 32 <= Z.of_nat hi) /\
            (t = false -> (hi + length items <= length ys)%nat)) as (t & Ht & Hf).
  { destruct Hcase as [Hc|Hc]; [by exists false|by exists true]. }
  assert (Vec t h (vector sl) (overwrite ys hi (take 0 items))) as HV0.
  { rewrite take_0, overwrite_nil. destruct t.
    - destruct (Ht eq_refl) as [-> _]. done.
    - by eapply Vec_relax. }
  unfold SliceAppend. eapply wp_bind_lift; [by apply load_slice_ok|].
  apply wp_bind. eapply wp_mono.
  { apply (SliceAppend_loop_spec sb t h s ys lo hi items HS Hb63 (fun e => proj2 (Ht e))
             (length items) 0%nat h (vector sl)); [done|exact HV0|lia|lia|lia]. }
  intros [itemPos vec] h1 (Hp1 & Hr1 & HV1). cbv zeta in Hr1, HV1. simpl in Hr1, HV1.
  set (kf := Nat.min (length items) (length ys - hi)) in *. subst itemPos.
  eapply wp_bind_lift.
  { unfold of_result, slice_from. rewrite ltb_false, gtb_false by lia.
    cbn [orb]. by rewrite Nat2Z.id. }
  apply wp_bind.
  assert (wp (Append vec (drop kf items)) h1
            (fun p' h' => h1 `prefix_of` h' /\ Vec t h' p' (overwrite ys hi items)))
    as HA.
  { destruct t.
    - eapply wp_mono.
      { apply (Append_spec h1 vec _ (drop kf items) HV1).
        rewrite overwrite_length, length_take, length_drop by lia. lia. }
      intros p' h' [Hp' HV']. split; [done|].
      pose proof (overwrite_finish ys hi items ltac:(lia)) as Hfin.
      cbv zeta in Hfin. fold kf in Hfin. by rewrite Hfin in HV'.
    - specialize (Hf eq_refl).
      assert (kf = length items) as Hkf by lia.
      rewrite Hkf, drop_all. eapply wp_intro; [apply Append_nil|].
      split; [done|]. by rewrite Hkf, firstn_all in HV1. }
  eapply wp_mono; [exact HA|].
  intros p' h2 [Hp2 HV2]. apply wp_alloc.
  split; [etrans; [exact Hp1|]; etrans; [exact Hp2|]; by apply prefix_app_r|].
  exists t. eapply SliceRep_intro; [apply lookup_alloc_new| | | |lia|].
  - eapply Vec_heap_mono; [|exact HV2]. by apply prefix_app_r.
  - done.
  - cbn [stop]. rewrite Hhi, to_int_small, iadd_small by lia. lia.
  - rewrite overwrite_length by lia. lia.
Qed.

End SLICE_SPEC.

Section NATIVE_MAP_SPEC.

Context {K V : Type} `{EqDecision K}.
Variable zeroV : V.

Local Abbreviation item := (@MapItem K V).
Local Abbreviation mheap := (list (@obj (option (list item)))).

(** ** Items stored one after the other *)

(** The content after storing the items in order: a later item of a key
    replaces an earlier one. *)
Definition stores (items : list item) (f : K -> option V) : K -> option V :=
  fold_left (fun f it => upd f (Key it) (Some (Value it))) items f.

Lemma loadBucket_app k (l1 l2 : list item) :
  loadBucket k (l1 ++ l2) =
  match loadBucket k l1 with Some v => Some v | None => loadBucket k l2 end.
Proof.
  induction l1 as [|it l1 IH]; simpl; [done|].
  case_bool_decide; [done|exact IH].
Qed.

Lemma stores_last (items : list item) :
  forall f k,
    stores items f k =
    match loadBucket k (reverse items) with Some v => Some v | None => f k end.
Proof.
  induction items as [|it items IH]; intros f k; [done|].
  unfold stores in *. simpl. rewrite IH, reverse_cons, loadBucket_app.
  destruct (loadBucket k (reverse items)); [done|].
  simpl. unfold upd. case_bool_decide; destruct (decide _); try done; congruence.
Qed.

Lemma AddItems_stores (items : list item) :
  forall b,
    BOk b -> length_ b + Z.of_nat (length items) < 2 ^ 63 ->
    exists b',
      AddItems b items = Ok b' /\
      forall k, lookupB (buckets b') k = stores items (lookupB (buckets b)) k.
Proof.
  induction items as [|it items IH]; intros b Hok Hb63.
  - by exists b.
  - destruct (AddItem_spec b it Hok) as (b1 & Hadd & Hok1 & Hl1 & Hlk1 & Hc1).
    { simpl in Hb63. lia. }
    destruct (IH b1 Hok1) as (b' & Hadds & Hlk).
    { simpl in Hb63. destruct (found _); lia. }
    exists b'. simpl. rewrite Hadd. split; [done|].
    intros k. rewrite Hlk. unfold stores. simpl.
    clear -Hlk1. revert Hlk1.
    generalize (lookupB (buckets b1)) (lookupB (buckets b)). intros f1 f0 Hf.
    assert (forall g g' : K -> option V, (forall k, g k = g' k) ->
              forall k, fold_left (fun f it => upd f (Key it) (Some (Value it))) items g k
                      = fold_left (fun f it => upd f (Key it) (Some (Value it))) items g' k)
      as Hext.
    { clear. induction items as [|it' items IH]; intros g g' Hg k; simpl; [done|].
      apply IH. intros k'. unfold upd. destruct (decide _); [done|apply Hg]. }
    by apply Hext.
Qed.

Lemma newMap_stores (h : mheap) (items : list item) :
  heap_ok h -> Z.of_nat (length items) < 2 ^ 60 ->
  wp (newMap items) h
    (fun m h' =>
       h `prefix_of` h' /\
       exists n, MapRep h' m (stores items (fun _ => None)) n /\
                 0 <= n <= Z.of_nat (length items)).
Proof.
  intros Hok Hb. unfold newMap.
  destruct (newPrivateItemBuckets_spec (K := K) (V := V) (Z.of_nat (length items))
              ltac:(lia)) as (Hb0 & Hl0 & _ & Hemp).
  destruct (AddItems_spec items _ Hb0 ltac:(lia))
    as (b1 & Hadd & Hb1 & Hlen1 & Hc1 & _).
  destruct (AddItems_stores items _ Hb0 ltac:(lia)) as (b1' & Hadd' & Hlk).
  rewrite Hadd in Hadd'. injection Hadd' as <-.
  eapply wp_bind_lift; [exact Hadd|].
  eapply wp_mono.
  { apply publish_spec; [done|done|lia]. }
  intros m h' [Hp HM]. split; [done|].
  exists (length_ b1). split; [|lia].
  eapply MapRep_ext; [|reflexivity|exact HM].
  intros k. rewrite Hlk. rewrite !stores_last. by rewrite Hemp.
Qed.

(** ** ToNativeMap *)

Definition entry (it : item) : K * V := (Key it, Value it).

Lemma native_set_fresh (m : list (K * V)) k v :
  k ∉ m.*1 -> native_set m k v = m ++ [(k, v)].
Proof.
  induction m as [|[k' v'] m IH]; simpl; [done|].
  intros Hnin. apply not_elem_of_cons in Hnin as [Hne Hnin].
  rewrite bool_decide_eq_false_2 by congruence. by rewrite IH.
Qed.

Lemma visit_native_set (items : list item) :
  forall acc : list (K * V),
    NoDup (acc.*1 ++ (Key <$> items)) ->
    visit (onItem (fun result key value => (true, native_set result key value)))
          acc items
    = acc ++ map entry items.
Proof.
  induction items as [|it items IH]; intros acc Hnd; simpl.
  - by rewrite app_nil_r.
  - unfold onItem at 1.
    rewrite native_set_fresh.
    2:{ apply NoDup_app in Hnd as (_ & Hd & _). intros Hin.
        apply (Hd _ Hin). simpl. by left. }
    rewrite IH.
    + by rewrite <- app_assoc.
    + rewrite fmap_app. simpl. rewrite <- app_assoc. exact Hnd.
Qed.

Lemma native_get_entries (items : list item) k :
  native_get (map entry items) k = loadBucket k items.
Proof.
  induction items as [|it items IH]; simpl; [done|].
  case_bool_decide; [done|exact IH].
Qed.

Lemma entries_keys (items : list item) : (map entry items).*1 = Key <$> items.
Proof. induction items as [|it items IH]; [done|]. cbn. f_equal. exact IH. Qed.

Lemma ToNativeMap_spec (h : mheap) m (f : K -> option V) n :
  MapRep h m f n ->
  exists nm,
    ToNativeMap m h = Ok nm /\ NoDup (nm.*1) /\
    Z.of_nat (length nm) = n /\ forall k, native_get nm k = f k.
Proof.
  intros HM.
  destruct (MapRange_spec (S := list (K * V)) h m f n HM)
    as (items & Hlen & Hnd & Hf & HR).
  exists (map entry items). unfold ToNativeMap. rewrite HR.
  rewrite visit_native_set by done.
  change ([] ++ map entry items) with (map entry items). split_and!.
  - done.
  - by rewrite entries_keys.
  - by rewrite length_map.
  - intros k. by rewrite native_get_entries, Hf.
Qed.

Lemma native_get_loadBucket (nm : list (K * V)) k :
  loadBucket k (map (fun kv => mkMapItem kv.1 kv.2) nm) = native_get nm k.
Proof.
  induction nm as [|[k' v'] nm IH]; simpl; [done|].
  case_bool_decide; [done|exact IH].
Qed.

End NATIVE_MAP_SPEC.

(** * Further properties of the package *)

(** ** Vectors *)

(** X1 (NewVector).  [NewVector(items...)] returns a vector of the length
    of [items] that holds, at every index, the item given at that index;
    it leaves the objects of the heap as they are. *)
Theorem NewVector_contents {T : Type} (h : list (@obj T)) (items : list T) :
  heap_ok h -> Z.of_nat (length items) < 2 ^ 63 ->
  exists h' p,
    NewVector items h = (h', Ok p) /\ h `prefix_of` h' /\
    Len p h' = Ok (Z.of_nat (length items)) /\
    forall i x, items !! i = Some x -> Get p (Z.of_nat i) h' = Ok x.
Proof.
  intros Hok Hb.
  destruct (wp_inv _ _ _ (NewVector_spec h items Hok Hb)) as (p & h' & Heq & Hp & HV).
  exists h', p. split_and!; [done|done|by eapply Vec_len|].
  intros i x Hx. eapply Get_spec; [exact HV| |lia]. by rewrite Nat2Z.id.
Qed.

Lemma NewVector_contents_witness :
  exists h' p,
    NewVector [1; 2; 3] init_heap = (h', Ok p) /\ init_heap `prefix_of` h' /\
    Len p h' = Ok (Z.of_nat (length [1; 2; 3])) /\
    forall i x, [1; 2; 3] !! i = Some x -> Get p (Z.of_nat i) h' = Ok x.
Proof.
  apply (NewVector_contents init_heap [1; 2; 3]).
  - reflexivity.
  - simpl. lia.
Defined.

(** X2 (ToNativeSlice).  [ToNativeSlice] of [NewVector(items...)] is
    [items].  On the vector a [Set] returns, whose trie nodes [doAssoc]
    has padded, it is [items] with the one element replaced, and on the
    vector the [Set] was called on it is still [items]. *)
Theorem ToNativeSlice_round_trip {T : Type} (zeroT : T) (h : list (@obj T))
    (items : list T) :
  heap_ok h -> Z.of_nat (length items) < 2 ^ 63 ->
  exists h' p,
    NewVector items h = (h', Ok p) /\
    ToNativeSlice p h' = Ok items /\
    forall i x, 0 <= i < Z.of_nat (length items) ->
      exists h2 p2,
        Set_ zeroT p i x h' = (h2, Ok p2) /\
        ToNativeSlice p2 h2 = Ok (<[Z.to_nat i := x]> items) /\
        ToNativeSlice p h2 = Ok items.
Proof.
  intros Hok Hb.
  destruct (wp_inv _ _ _ (NewVector_spec h items Hok Hb)) as (p & h' & Heq & Hp & HV).
  exists h', p. split_and!; [done|by eapply ToNativeSlice_spec|].
  intros i x Hi.
  destruct (wp_inv _ _ _ (Set_spec zeroT true h' p items i x HV Hi))
    as (p2 & h2 & Heq2 & Hp2 & HV2).
  exists h2, p2. split_and!; [done|by eapply ToNativeSlice_spec|].
  eapply ToNativeSlice_spec. eapply Vec_heap_mono; [exact Hp2|exact HV].
Qed.

Lemma ToNativeSlice_round_trip_witness :
  exists h' p,
    NewVector (iota 40) init_heap = (h', Ok p) /\
    ToNativeSlice p h' = Ok (iota 40) /\
    forall i x, 0 <= i < Z.of_nat (length (iota 40)) ->
      exists h2 p2,
        Set_ 0 p i x h' = (h2, Ok p2) /\
        ToNativeSlice p2 h2 = Ok (<[Z.to_nat i := x]> (iota 40)) /\
        ToNativeSlice p h2 = Ok (iota 40).
Proof.
  apply (ToNativeSlice_round_trip 0 init_heap (iota 40)).
  - reflexivity.
  - simpl. lia.
Defined.

(** X3 (Append, contents).  On a vector built by [NewVector] and [Append],
    [Append] returns a vector that holds the old elements followed by the
    new items, in order; the old vector holds what it held. *)
Theorem Append_contents {T : Type} (h : list (@obj T)) p (xs items : list T) :
  Vec true h p xs -> Z.of_nat (length xs + length items) < 2 ^ 63 ->
  exists h' p',
    Append p items h = (h', Ok p') /\
    ToNativeSlice p' h' = Ok (xs ++ items) /\
    (forall i x, (xs ++ items) !! i = Some x -> Get p' (Z.of_nat i) h' = Ok x) /\
    ToNativeSlice p h' = Ok xs.
Proof.
  intros HV Hb.
  destruct (wp_inv _ _ _ (Append_spec h p xs items HV Hb)) as (p' & h' & Heq & Hp & HV').
  exists h', p'. split_and!; [done|by eapply ToNativeSlice_spec| |].
  - intros i x Hx. eapply Get_spec; [exact HV'| |lia]. by rewrite Nat2Z.id.
  - eapply ToNativeSlice_spec. eapply Vec_heap_mono; [exact Hp|exact HV].
Qed.

Lemma Append_contents_witness :
  exists h' p',
    Append (run_loc ex32) [7; 8] ex32.1 = (h', Ok p') /\
    ToNativeSlice p' h' = Ok (iota 32 ++ [7; 8]) /\
    (forall i x, (iota 32 ++ [7; 8]) !! i = Some x -> Get p' (Z.of_nat i) h' = Ok x) /\
    ToNativeSlice (run_loc ex32) h' = Ok (iota 32).
Proof.
  apply (Append_contents ex32.1 (run_loc ex32) (iota 32) [7; 8] ex32_Vec).
  simpl. lia.
Defined.



(** X5 (a chain of versions).  After [Set(i, x)] on a vector and
    [Set(j, y)] on the result there are three vectors: the first holds
    the old elements, the second those with [x] at [i], the third those
    with [x] at [i] and then [y] at [j]. *)
Theorem Set_chain {T : Type} (zeroT : T) s (h : list (@obj T)) p (xs : list T)
    i x j y :
  Vec s h p xs -> 0 <= i < Z.of_nat (length xs) -> 0 <= j < Z.of_nat (length xs) ->
  exists h1 p1 h2 p2,
    Set_ zeroT p i x h = (h1, Ok p1) /\ Set_ zeroT p1 j y h1 = (h2, Ok p2) /\
    ToNativeSlice p h2 = Ok xs /\
    ToNativeSlice p1 h2 = Ok (<[Z.to_nat i := x]> xs) /\
    ToNativeSlice p2 h2 = Ok (<[Z.to_nat j := y]> (<[Z.to_nat i := x]> xs)).
Proof.
  intros HV Hi Hj.
  destruct (wp_inv _ _ _ (Set_spec zeroT s h p xs i x HV Hi))
    as (p1 & h1 & Heq1 & Hp1 & HV1).
  destruct (wp_inv _ _ _ (Set_spec zeroT false h1 p1 _ j y HV1
                            ltac:(rewrite length_insert; lia)))
    as (p2 & h2 & Heq2 & Hp2 & HV2).
  exists h1, p1, h2, p2. split_and!; try done.
  - eapply ToNativeSlice_spec. eapply Vec_heap_mono; [|exact HV]. by etrans.
  - eapply ToNativeSlice_spec. eapply Vec_heap_mono; [exact Hp2|exact HV1].
  - by eapply ToNativeSlice_spec.
Qed.

Lemma Set_chain_witness :
  exists h1 p1 h2 p2,
    Set_ 0 (run_loc ex3) 0 7 ex3.1 = (h1, Ok p1) /\ Set_ 0 p1 0 8 h1 = (h2, Ok p2) /\
    ToNativeSlice (run_loc ex3) h2 = Ok [1; 2; 3] /\
    ToNativeSlice p1 h2 = Ok (<[Z.to_nat 0 := 7]> [1; 2; 3]) /\
    ToNativeSlice p2 h2 = Ok (<[Z.to_nat 0 := 8]> (<[Z.to_nat 0 := 7]> [1; 2; 3])).
Proof.
  apply (Set_chain 0 true ex3.1 (run_loc ex3) [1; 2; 3] 0 7 0 8 ex3_Vec);
    simpl; lia.
Defined.

(** X6 (the tail).  For every length within the range of int,
    [tailOffset] is a multiple of 32 and at most the length; the tail
    holds at most 32 elements, and at least one when the vector is not
    empty. *)
Theorem tailOffset_bounds (v : Vector) :
  0 <= len v < 2 ^ 63 ->
  tailOffset v mod 32 = 0 /\ 0 <= tailOffset v <= len v /\
  len v - tailOffset v <= 32 /\ (0 < len v -> 1 <= len v - tailOffset v).
Proof.
  intros Hl. destruct (tailOffset_props v Hl) as ([q Hq] & H1 & H2 & H3).
  split_and!; try lia. rewrite Hq. apply Z.mod_mul. lia.
Qed.

Lemma tailOffset_bounds_witness :
  tailOffset (mkVector 0 CNil 100 5) mod 32 = 0 /\
  0 <= tailOffset (mkVector 0 CNil 100 5) <= 100 /\
  100 - tailOffset (mkVector 0 CNil 100 5) <= 32 /\
  (0 < 100 -> 1 <= 100 - tailOffset (mkVector 0 CNil 100 5)).
Proof.
  apply (tailOffset_bounds (mkVector 0 CNil 100 5)). simpl. lia.
Defined.

(** ** Vector slices *)

(** The slice of the examples: [NewVector(1, 2, 3).Slice(1, 3)]. *)
Definition exs : list (@obj Z) * result nat := Slice (run_loc ex3) 1 3 ex3.1.

Lemma exs_SliceRep : SliceRep true exs.1 (run_loc exs) [1; 2; 3] 1 3.
Proof.
  destruct (wp_run _ _ _ (Slice_spec true ex3.1 (run_loc ex3) [1; 2; 3] 1 3 ex3_Vec
                            ltac:(simpl; lia))) as [[_ HS] _].
  exact HS.
Qed.

(** X7 (Vector.Slice).  For 0 <= lo <= hi <= len, [Slice(lo, hi)]
    allocates the slice header and nothing else: no element is copied.
    The slice has length [hi - lo] and its element [i] is the vector's
    element [lo + i]. *)
Theorem Slice_view {T : Type} sb (h : list (@obj T)) p (ys : list T) lo hi :
  Vec sb h p ys -> (lo <= hi <= length ys)%nat ->
  let h' := h ++ [SliceS (mkVectorSlice p (Z.of_nat lo) (Z.of_nat hi))] in
  let s := length h in
  Slice p (Z.of_nat lo) (Z.of_nat hi) h = (h', Ok s) /\
  SliceLen s h' = Ok (Z.of_nat hi - Z.of_nat lo) /\
  forall i x, (i < hi - lo)%nat -> ys !! (lo + i)%nat = Some x ->
    SliceGet s (Z.of_nat i) h' = Ok x /\ Get p (Z.of_nat (lo + i)) h' = Ok x.
Proof.
  intros HV Hb h' s.
  assert (Slice p (Z.of_nat lo) (Z.of_nat hi) h = (h', Ok s)) as Heq.
  { unfold Slice, mbind, lift. rewrite (Vec_len _ _ _ _ HV).
    unfold of_result, assertSliceOk.
    by rewrite ltb_false, gtb_false, gtb_false by lia. }
  pose proof (Slice_spec sb h p ys lo hi HV Hb) as Hwp.
  unfold wp in Hwp. rewrite Heq in Hwp. destruct Hwp as [Hp HS].
  split_and!; [done|by eapply SliceLen_spec|].
  intros i x Hi Hx. split.
  - eapply SliceGet_spec; [exact HS|]. by rewrite elems_lookup.
  - eapply Get_spec; [eapply Vec_heap_mono; [exact Hp|exact HV]| |lia].
    by rewrite Nat2Z.id.
Qed.

Lemma Slice_view_witness :
  let h' := ex3.1 ++ [SliceS (mkVectorSlice (run_loc ex3) (Z.of_nat 1) (Z.of_nat 3))] in
  let s := length ex3.1 in
  Slice (run_loc ex3) (Z.of_nat 1) (Z.of_nat 3) ex3.1 = (h', Ok s) /\
  SliceLen s h' = Ok (Z.of_nat 3 - Z.of_nat 1) /\
  forall i x, (i < 3 - 1)%nat -> [1; 2; 3] !! (1 + i)%nat = Some x ->
    SliceGet s (Z.of_nat i) h' = Ok x /\ Get (run_loc ex3) (Z.of_nat (1 + i)) h' = Ok x.
Proof.
  apply (Slice_view true ex3.1 (run_loc ex3) [1; 2; 3] 1 3 ex3_Vec).
  simpl. lia.
Defined.

(** X8 (NewVectorSlice).  [NewVectorSlice(items...)] returns a slice of
    the length of [items] whose element [i] is the item given at [i], and
    whose [Range] visits the items in order. *)
Theorem NewVectorSlice_contents {T St : Type} (h : list (@obj T)) (items : list T)
    (f : St -> T -> bool * St) st :
  heap_ok h -> Z.of_nat (length items) < 2 ^ 63 ->
  exists h' s,
    NewVectorSlice items h = (h', Ok s) /\
    SliceLen s h' = Ok (Z.of_nat (length items)) /\
    (forall i x, items !! i = Some x -> SliceGet s (Z.of_nat i) h' = Ok x) /\
    SliceRange s f st h' = Ok (visit f st items).
Proof.
  intros Hok Hb.
  destruct (wp_inv _ _ _ (NewVectorSlice_spec h items Hok Hb))
    as (s & h' & Heq & Hp & HS).
  assert (elems items 0 (length items) = items) as He.
  { unfold elems. by rewrite drop_0, Nat.sub_0_r, firstn_all. }
  exists h', s. split_and!; [done| | |].
  - rewrite (SliceLen_spec _ _ _ _ _ _ HS). f_equal. lia.
  - intros i x Hx. eapply SliceGet_spec; [exact HS|]. by rewrite He.
  - rewrite (SliceRange_spec _ _ _ _ _ _ f st HS). by rewrite He.
Qed.

Lemma NewVectorSlice_contents_witness :
  exists h' s,
    NewVectorSlice [1; 2; 3] init_heap = (h', Ok s) /\
    SliceLen s h' = Ok (Z.of_nat (length [1; 2; 3])) /\
    (forall i x, [1; 2; 3] !! i = Some x -> SliceGet s (Z.of_nat i) h' = Ok x) /\
    SliceRange s stop2 0%nat h' = Ok (visit stop2 0%nat [1; 2; 3]).
Proof.
  apply (NewVectorSlice_contents init_heap [1; 2; 3] stop2 0%nat).
  - reflexivity.
  - simpl. lia.
Defined.

(** X9 (slice index out of bounds).  For every int [i] outside
    [0, Len), also one so large that [start + i] overflows,
    [VectorSlice.Get] and [VectorSlice.Set] panic with "Index out of
    bounds"; the heap after the panic of [Set] is the heap before the
    call. *)
Theorem Slice_index_out_of_bounds {T : Type} (zeroT : T) sb (h : list (@obj T)) s
    (ys : list T) lo hi i x :
  SliceRep sb h s ys lo hi -> - 2 ^ 63 <= i < 2 ^ 63 ->
  i < 0 \/ Z.of_nat hi - Z.of_nat lo <= i ->
  SliceGet s i h = Panic IndexOutOfBounds /\
  SliceSet zeroT s i x h = (h, Panic IndexOutOfBounds).
Proof.
  intros HS Hi Hout. split.
  - by eapply SliceGet_out.
  - by eapply SliceSet_out.
Qed.

Lemma Slice_index_out_of_bounds_witness :
  SliceGet (run_loc exs) (2 ^ 63 - 1) exs.1 = Panic IndexOutOfBounds /\
  SliceSet 0 (run_loc exs) (2 ^ 63 - 1) 9 exs.1 = (exs.1, Panic IndexOutOfBounds).
Proof.
  apply (Slice_index_out_of_bounds 0 true exs.1 (run_loc exs) [1; 2; 3] 1 3
           (2 ^ 63 - 1) 9 exs_SliceRep).
  - lia.
  - right. simpl. lia.
Defined.

(** X10 (VectorSlice.Set).  For an index of the slice, [Set] returns a
    slice of the same length that holds the new element at the index and
    the old elements elsewhere.  The slice it was called on and the
    vector behind it hold what they held. *)
Theorem SliceSet_law {T : Type} (zeroT : T) sb (h : list (@obj T)) s (ys : list T)
    lo hi i x :
  SliceRep sb h s ys lo hi -> (i < hi - lo)%nat ->
  exists h' s',
    SliceSet zeroT s (Z.of_nat i) x h = (h', Ok s') /\
    SliceLen s' h' = SliceLen s h /\
    SliceGet s' (Z.of_nat i) h' = Ok x /\
    (forall j, (j < hi - lo)%nat -> j <> i ->
               SliceGet s' (Z.of_nat j) h' = SliceGet s (Z.of_nat j) h) /\
    (forall j, (j < hi - lo)%nat ->
               SliceGet s (Z.of_nat j) h' = SliceGet s (Z.of_nat j) h) /\
    forall sl, load_slice s h = Ok sl -> ToNativeSlice (vector sl) h' = Ok ys.
Proof.
  intros HS Hi. pose proof HS as (sl & Hs & HV & Hlo & Hhi & Hb).
  destruct (wp_inv _ _ _ (SliceSet_spec zeroT sb h s ys lo hi i x HS Hi))
    as (s' & h' & Heq & Hp & HS').
  pose proof (SliceRep_heap_mono _ _ _ _ _ _ _ Hp HS) as HS1.
  assert (forall j, (j < hi - lo)%nat ->
            SliceGet s (Z.of_nat j) h' = SliceGet s (Z.of_nat j) h) as Hold.
  { intros j Hj.
    destruct (lookup_lt_is_Some_2 (elems ys lo hi) j) as [e He].
    { rewrite elems_length by done. lia. }
    by rewrite (SliceGet_spec _ _ _ _ _ _ _ _ HS1 He),
               (SliceGet_spec _ _ _ _ _ _ _ _ HS He). }
  exists h', s'. split_and!; [done| | | |done|].
  - by rewrite (SliceLen_spec _ _ _ _ _ _ HS'), (SliceLen_spec _ _ _ _ _ _ HS).
  - eapply SliceGet_spec; [exact HS'|]. rewrite elems_insert by done.
    apply list_lookup_insert_eq. rewrite elems_length by done. lia.
  - intros j Hj Hne.
    destruct (lookup_lt_is_Some_2 (elems ys lo hi) j) as [e He].
    { rewrite elems_length by done. lia. }
    rewrite (SliceGet_spec _ _ _ _ _ _ _ _ HS He).
    eapply SliceGet_spec; [exact HS'|]. rewrite elems_insert by done.
    by rewrite list_lookup_insert_ne by done.
  - intros sl' Hsl. rewrite (load_slice_ok _ _ _ Hs) in Hsl. injection Hsl as <-.
    eapply ToNativeSlice_spec. eapply Vec_heap_mono; [exact Hp|exact HV].
Qed.

Lemma SliceSet_law_witness :
  exists h' s',
    SliceSet 0 (run_loc exs) (Z.of_nat 1) 9 exs.1 = (h', Ok s') /\
    SliceLen s' h' = SliceLen (run_loc exs) exs.1 /\
    SliceGet s' (Z.of_nat 1) h' = Ok 9 /\
    (forall j, (j < 3 - 1)%nat -> j <> 1%nat ->
               SliceGet s' (Z.of_nat j) h' = SliceGet (run_loc exs) (Z.of_nat j) exs.1) /\
    (forall j, (j < 3 - 1)%nat ->
               SliceGet (run_loc exs) (Z.of_nat j) h'
               = SliceGet (run_loc exs) (Z.of_nat j) exs.1) /\
    forall sl, load_slice (run_loc exs) exs.1 = Ok sl ->
               ToNativeSlice (vector sl) h' = Ok [1; 2; 3].
Proof.
  apply (SliceSet_law 0 true exs.1 (run_loc exs) [1; 2; 3] 1 3 1 9 exs_SliceRep).
  simpl. lia.
Defined.

(** X11 (VectorSlice.Slice).  For 0 <= a <= b <= Len, [Slice(a, b)] of a
    slice returns a slice of length [b - a] whose element [j] is element
    [a + j] of the slice it was taken from.  For other arguments it
    panics with one of the three messages of [assertSliceOk] and the heap
    is as before. *)
Theorem SliceSlice_law {T : Type} sb (h : list (@obj T)) s (ys : list T) lo hi :
  SliceRep sb h s ys lo hi ->
  (forall a b : nat, (a <= b <= hi - lo)%nat ->
     exists h' s',
       SliceSlice s (Z.of_nat a) (Z.of_nat b) h = (h', Ok s') /\
       SliceLen s' h' = Ok (Z.of_nat b - Z.of_nat a) /\
       forall j, (j < b - a)%nat ->
         SliceGet s' (Z.of_nat j) h' = SliceGet s (Z.of_nat (a + j)) h) /\
  (forall a b : Z, a < 0 \/ a > b \/ b > Z.of_nat hi - Z.of_nat lo ->
     exists e, SliceSlice s a b h = (h, Panic e) /\ invalid_argument e = true).
Proof.
  intros HS. pose proof HS as (sl & Hs & HV & Hlo & Hhi & Hb). split.
  - intros a b Hab.
    destruct (wp_inv _ _ _ (SliceSlice_spec sb h s ys lo hi a b HS Hab))
      as (s' & h' & Heq & Hp & HS').
    exists h', s'. split_and!; [done| |].
    + rewrite (SliceLen_spec _ _ _ _ _ _ HS'). f_equal. lia.
    + intros j Hj.
      destruct (lookup_lt_is_Some_2 ys (lo + a + j)) as [e He]; [lia|].
      rewrite (SliceGet_spec _ _ _ _ _ _ (a + j) e HS)
        by (rewrite elems_lookup by lia; rewrite <- He; f_equal; lia).
      eapply SliceGet_spec; [exact HS'|].
      rewrite elems_lookup by lia. exact He.
  - intros a b Hab. by eapply SliceSlice_out.
Qed.

Lemma SliceSlice_law_witness :
  (forall a b : nat, (a <= b <= 3 - 1)%nat ->
     exists h' s',
       SliceSlice (run_loc exs) (Z.of_nat a) (Z.of_nat b) exs.1 = (h', Ok s') /\
       SliceLen s' h' = Ok (Z.of_nat b - Z.of_nat a) /\
       forall j, (j < b - a)%nat ->
         SliceGet s' (Z.of_nat j) h' = SliceGet (run_loc exs) (Z.of_nat (a + j)) exs.1) /\
  (forall a b : Z, a < 0 \/ a > b \/ b > Z.of_nat 3 - Z.of_nat 1 ->
     exists e, SliceSlice (run_loc exs) a b exs.1 = (exs.1, Panic e) /\
               invalid_argument e = true).
Proof.
  apply (SliceSlice_law true exs.1 (run_loc exs) [1; 2; 3] 1 3 exs_SliceRep).
Defined.

(** X12 (VectorSlice.Range).  [Range] of a slice calls the visitor on the
    elements of the slice in order, from the first on; when the visitor
    returns stop on its [k]-th call these are the first [k] elements, and
    when it never does they are all of them. *)
Theorem SliceRange_cancellation {T St : Type} sb (h : list (@obj T)) s (ys : list T)
    lo hi (f : St -> T -> bool * St) st k :
  SliceRep sb h s ys lo hi ->
  (stops_at f st (elems ys lo hi) k ->
     exists st', SliceRange s (traced f) (st, []) h
                 = Ok (st', take k (elems ys lo hi)) /\
                 length (take k (elems ys lo hi)) = k) /\
  (never_stops f st (elems ys lo hi) ->
     exists st', SliceRange s (traced f) (st, []) h = Ok (st', elems ys lo hi)).
Proof.
  intros HS. split.
  - intros Hst. rewrite (SliceRange_spec _ _ _ _ _ _ _ _ HS).
    destruct (visit_traced_stop f _ k st [] Hst) as (st' & -> & Hl). eauto.
  - intros Hns. rewrite (SliceRange_spec _ _ _ _ _ _ _ _ HS).
    destruct (visit_traced_all f _ st [] Hns) as (st' & ->). eauto.
Qed.

Lemma SliceRange_cancellation_witness :
  stops_at stop2 0%nat (elems [1; 2; 3] 1 3) 2 /\
  (stops_at stop2 0%nat (elems [1; 2; 3] 1 3) 2 ->
     exists st', SliceRange (run_loc exs) (traced stop2) (0%nat, []) exs.1
                 = Ok (st', take 2 (elems [1; 2; 3] 1 3)) /\
                 length (take 2 (elems [1; 2; 3] 1 3)) = 2%nat) /\
  (never_stops stop2 0%nat (elems [1; 2; 3] 1 3) ->
     exists st', SliceRange (run_loc exs) (traced stop2) (0%nat, []) exs.1
                 = Ok (st', elems [1; 2; 3] 1 3)).
Proof.
  split; [reflexivity|].
  apply (SliceRange_cancellation true exs.1 (run_loc exs) [1; 2; 3] 1 3 stop2 0%nat 2
           exs_SliceRep).
Defined.

(** X13 (VectorSlice.Append).  When the items fit below the end of the
    backing vector, or the slice ends in the tail block of a backing
    vector built by [NewVector] and [Append], [Append] returns a slice
    that holds the elements of the old slice followed by the items.  The
    old slice and the old backing vector hold what they held. *)
Theorem SliceAppend_contents {T : Type} (zeroT : T) sb (h : list (@obj T)) s
    (ys : list T) lo hi (items : list T) :
  SliceRep sb h s ys lo hi ->
  Z.of_nat (length ys) + Z.of_nat (length items) < 2 ^ 63 ->
  (hi + length items <= length ys)%nat \/
  (sb = true /\ (Z.of_nat (length ys) - 1) / 32 * 32 <= Z.of_nat hi) ->
  exists h' s',
    SliceAppend zeroT s items h = (h', Ok s') /\
    SliceLen s' h' = Ok (Z.of_nat (hi - lo) + Z.of_nat (length items)) /\
    (forall j x, (elems ys lo hi ++ items) !! j = Some x ->
                 SliceGet s' (Z.of_nat j) h' = Ok x) /\
    (forall j x, elems ys lo hi !! j = Some x -> SliceGet s (Z.of_nat j) h' = Ok x) /\
    SliceLen s h' = Ok (Z.of_nat (hi - lo)) /\
    forall sl, load_slice s h = Ok sl -> ToNativeSlice (vector sl) h' = Ok ys.
Proof.
  intros HS Hb63 Hcase. pose proof HS as (sl & Hs & HV & Hlo & Hhi & Hb).
  destruct (wp_inv _ _ _ (SliceAppend_spec zeroT sb h s ys lo hi items HS Hb63 Hcase))
    as (s' & h' & Heq & Hp & sb' & HS').
  pose proof (SliceRep_heap_mono _ _ _ _ _ _ _ Hp HS) as HS1.
  exists h', s'. split_and!; [done| | | | |].
  - rewrite (SliceLen_spec _ _ _ _ _ _ HS'). f_equal. lia.
  - intros j x Hx. eapply SliceGet_spec; [exact HS'|].
    by rewrite elems_overwrite by done.
  - intros j x Hx. by eapply SliceGet_spec.
  - rewrite (SliceLen_spec _ _ _ _ _ _ HS1). f_equal. lia.
  - intros sl' Hsl. rewrite (load_slice_ok _ _ _ Hs) in Hsl. injection Hsl as <-.
    eapply ToNativeSlice_spec. eapply Vec_heap_mono; [exact Hp|exact HV].
Qed.

Lemma SliceAppend_contents_witness :
  exists h' s',
    SliceAppend 0 (run_loc exs) [7; 8] exs.1 = (h', Ok s') /\
    SliceLen s' h' = Ok (Z.of_nat (3 - 1) + Z.of_nat (length [7; 8])) /\
    (forall j x, (elems [1; 2; 3] 1 3 ++ [7; 8]) !! j = Some x ->
                 SliceGet s' (Z.of_nat j) h' = Ok x) /\
    (forall j x, elems [1; 2; 3] 1 3 !! j = Some x ->
                 SliceGet (run_loc exs) (Z.of_nat j) h' = Ok x) /\
    SliceLen (run_loc exs) h' = Ok (Z.of_nat (3 - 1)) /\
    forall sl, load_slice (run_loc exs) exs.1 = Ok sl ->
               ToNativeSlice (vector sl) h' = Ok [1; 2; 3].
Proof.
  apply (SliceAppend_contents 0 true exs.1 (run_loc exs) [1; 2; 3] 1 3 [7; 8]
           exs_SliceRep).
  - simpl. lia.
  - right. split; [reflexivity|]. apply Z.leb_le. reflexivity.
Defined.

(** ** Maps *)

(** X14 (ToNativeMap).  [ToNativeMap] returns a native map with one entry
    for each key of the map: as many entries as [Len] says, and for every
    key the value [Load] finds, or none where [Load] finds none. *)
Theorem ToNativeMap_contents {K V : Type} `{EqDecision K} (zeroV : V)
    (h : list (@obj (option (list (@MapItem K V))))) m (f : K -> option V) n :
  MapRep h m f n ->
  exists nm,
    ToNativeMap m h = Ok nm /\ NoDup (nm.*1) /\
    MapLen m h = Ok (Z.of_nat (length nm)) /\
    forall k, Load zeroV m k h =
              Ok (match native_get nm k with
                  | Some v => (v, true)
                  | None => (zeroV, false)
                  end).
Proof.
  intros HM. destruct (ToNativeMap_spec h m f n HM) as (nm & Heq & Hnd & Hlen & Hget).
  exists nm. split_and!; [done|done| |].
  - rewrite (MapLen_spec _ _ _ _ HM). by rewrite Hlen.
  - intros k. rewrite (Load_spec zeroV _ _ _ _ k HM). by rewrite Hget.
Qed.

Lemma ToNativeMap_contents_witness :
  exists nm,
    ToNativeMap (run_loc exm2) exm2.1 = Ok nm /\ NoDup (nm.*1) /\
    MapLen (run_loc exm2) exm2.1 = Ok (Z.of_nat (length nm)) /\
    forall k, Load 0 (run_loc exm2) k exm2.1 =
              Ok (match native_get nm k with
                  | Some v => (v, true)
                  | None => (0, false)
                  end).
Proof.
  apply (ToNativeMap_contents 0 exm2.1 (run_loc exm2) _ 2 exm2_MapRep).
Defined.

(** X15 (native map, there and back).  [NewMapFromNativeMap] followed by
    [ToNativeMap] gives a native map with as many entries as the one
    given and the same value for every key. *)
Theorem NativeMap_round_trip {K V : Type} `{EqDecision K}
    (h : list (@obj (option (list (@MapItem K V))))) (nm : list (K * V)) :
  heap_ok h -> NoDup (nm.*1) -> Z.of_nat (length nm) < 2 ^ 60 ->
  exists h' m nm',
    NewMapFromNativeMap nm h = (h', Ok m) /\
    ToNativeMap m h' = Ok nm' /\
    length nm' = length nm /\ NoDup (nm'.*1) /\
    forall k, native_get nm' k = native_get nm k.
Proof.
  intros Hok Hnd Hb.
  destruct (wp_inv _ _ _ (NewMapFromNativeMap_spec h nm Hok Hb))
    as (m & h' & Heq & Hp & f & n & HM & Hn & Hf).
  destruct (Hf Hnd) as [-> Hfk].
  destruct (ToNativeMap_spec h' m f _ HM) as (nm' & Heq' & Hnd' & Hlen & Hget).
  exists h', m, nm'. split_and!; [done|done|lia|done|].
  intros k. by rewrite Hget, Hfk, native_get_loadBucket.
Qed.

Lemma NativeMap_round_trip_witness :
  exists h' m nm',
    NewMapFromNativeMap [(1, 10); (2, 20)] init_heap = (h', Ok m) /\
    ToNativeMap m h' = Ok nm' /\
    length nm' = length [(1, 10); (2, 20)] /\ NoDup (nm'.*1) /\
    forall k : Z, native_get nm' k = native_get [(1, 10); (2, 20)] k.
Proof.
  apply (NativeMap_round_trip (@init_heap (option (list (@MapItem Z Z))))
           [(1, 10); (2, 20)]).
  - reflexivity.
  - simpl. apply NoDup_cons. split; [|apply NoDup_singleton].
    intros Hin. apply list_elem_of_singleton in Hin. lia.
  - simpl. lia.
Defined.

(** X16 (NewMap, repeated keys).  [NewMap(items...)] never panics.  For
    every key, [Load] on the new map finds the value of the last item
    with that key, and nothing when no item has the key; the length of
    the map is at most the number of items. *)
Theorem NewMap_last_wins {K V : Type} `{EqDecision K} (zeroV : V)
    (h : list (@obj (option (list (@MapItem K V))))) (items : list (@MapItem K V)) :
  heap_ok h -> Z.of_nat (length items) < 2 ^ 60 ->
  exists h' m n,
    NewMap items h = (h', Ok m) /\
    MapLen m h' = Ok n /\ 0 <= n <= Z.of_nat (length items) /\
    forall k, Load zeroV m k h' =
              Ok (match loadBucket k (reverse items) with
                  | Some v => (v, true)
                  | None => (zeroV, false)
                  end).
Proof.
  intros Hok Hb.
  destruct (wp_inv _ _ _ (newMap_stores h items Hok Hb))
    as (m & h' & Heq & Hp & n & HM & Hn).
  exists h', m, n. split_and!; [done|by eapply MapLen_spec|lia|lia|].
  intros k. rewrite (Load_spec zeroV _ _ _ _ k HM), stores_last.
  by destruct (loadBucket k (reverse items)).
Qed.

Lemma NewMap_last_wins_witness :
  exists h' m n,
    NewMap [mkMapItem 1 10; mkMapItem 2 20; mkMapItem 1 30] init_heap = (h', Ok m) /\
    MapLen m h' = Ok n /\
    0 <= n <= Z.of_nat (length [mkMapItem 1 10; mkMapItem 2 20; mkMapItem 1 30]) /\
    forall k : Z, Load 0 m k h' =
              Ok (match loadBucket k (reverse [mkMapItem 1 10; mkMapItem 2 20;
                                               mkMapItem 1 30]) with
                  | Some v => (v, true)
                  | None => (0, false)
                  end).
Proof.
  apply (NewMap_last_wins 0 (@init_heap (option (list (@MapItem Z Z))))
           [mkMapItem 1 10; mkMapItem 2 20; mkMapItem 1 30]).
  - reflexivity.
  - simpl. lia.
Defined.

(** X17 (Store, then Delete).  Storing a key the map does not hold and
    deleting it again gives a map with the length and the content of the
    map at the start. *)
Theorem Store_then_Delete {K V : Type} `{EqDecision K} (zeroV : V)
    (h : list (@obj (option (list (@MapItem K V))))) m (f : K -> option V) n k v w :
  MapRep h m f n -> n + 1 < 2 ^ 60 -> Load zeroV m k h = Ok (w, false) ->
  exists h1 m1 h2 m2,
    Store m k v h = (h1, Ok m1) /\ Delete m1 k h1 = (h2, Ok m2) /\
    MapLen m1 h1 = Ok (n + 1) /\ MapLen m2 h2 = Ok n /\
    forall k', Load zeroV m2 k' h2 = Load zeroV m k' h.
Proof.
  intros HM Hb HL.
  assert (f k = None) as Hfk.
  { rewrite (Load_spec zeroV h m f n k HM) in HL. destruct (f k); [discriminate|done]. }
  destruct (wp_inv _ _ _ (Store_spec h m f n k v HM Hb)) as (m1 & h1 & Heq1 & Hp1 & HM1).
  destruct (wp_inv _ _ _ (Delete_spec h1 m1 _ _ k HM1)) as (m2 & h2 & Heq2 & Hp2 & HM2).
  assert (MapRep h2 m2 f n) as HM2'.
  { eapply MapRep_ext; [| |exact HM2].
    - intros k'. unfold upd. destruct (decide (k' = k)) as [->|]; [by rewrite Hfk|done].
    - unfold upd. rewrite decide_True by done. rewrite Hfk. simpl. lia. }
  exists h1, m1, h2, m2. split_and!; [done|done| |by eapply MapLen_spec|].
  - rewrite (MapLen_spec _ _ _ _ HM1). by rewrite Hfk.
  - intros k'.
    by rewrite (Load_spec zeroV _ _ _ _ k' HM2'), (Load_spec zeroV _ _ _ _ k' HM).
Qed.

Lemma Store_then_Delete_witness :
  exists h1 m1 h2 m2,
    Store (run_loc exm2) 3 30 exm2.1 = (h1, Ok m1) /\ Delete m1 3 h1 = (h2, Ok m2) /\
    MapLen m1 h1 = Ok (2 + 1) /\ MapLen m2 h2 = Ok 2 /\
    forall k', Load 0 m2 k' h2 = Load 0 (run_loc exm2) k' exm2.1.
Proof.
  apply (Store_then_Delete 0 exm2.1 (run_loc exm2) _ 2 3 30 0 exm2_MapRep).
  - lia.
  - vm_compute. reflexivity.
Defined.

(** X18 (maps are persistent).  [Store] and [Delete] leave the map they
    are called on as it was: in the heap after the call it has the same
    length and [Load] finds the same for every key. *)
Theorem Map_persistence {K V : Type} `{EqDecision K} (zeroV : V)
    (h : list (@obj (option (list (@MapItem K V))))) m (f : K -> option V) n k v :
  MapRep h m f n -> n + 1 < 2 ^ 60 ->
  exists h1 m1 h2 m2,
    Store m k v h = (h1, Ok m1) /\ Delete m k h = (h2, Ok m2) /\
    MapLen m h1 = MapLen m h /\ MapLen m h2 = MapLen m h /\
    forall k', Load zeroV m k' h1 = Load zeroV m k' h /\
               Load zeroV m k' h2 = Load zeroV m k' h.
Proof.
  intros HM Hb.
  destruct (wp_inv _ _ _ (Store_spec h m f n k v HM Hb)) as (m1 & h1 & Heq1 & Hp1 & _).
  destruct (wp_inv _ _ _ (Delete_spec h m f n k HM)) as (m2 & h2 & Heq2 & Hp2 & _).
  pose proof (MapRep_heap_mono _ _ _ _ _ Hp1 HM) as HM1.
  pose proof (MapRep_heap_mono _ _ _ _ _ Hp2 HM) as HM2.
  exists h1, m1, h2, m2. split_and!; [done|done| | |].
  - by rewrite (MapLen_spec _ _ _ _ HM1), (MapLen_spec _ _ _ _ HM).
  - by rewrite (MapLen_spec _ _ _ _ HM2), (MapLen_spec _ _ _ _ HM).
  - intros k'.
    by rewrite (Load_spec zeroV _ _ _ _ k' HM1), (Load_spec zeroV _ _ _ _ k' HM2),
               (Load_spec zeroV _ _ _ _ k' HM).
Qed.

Lemma Map_persistence_witness :
  exists h1 m1 h2 m2,
    Store (run_loc exm2) 1 11 exm2.1 = (h1, Ok m1) /\
    Delete (run_loc exm2) 1 exm2.1 = (h2, Ok m2) /\
    MapLen (run_loc exm2) h1 = MapLen (run_loc exm2) exm2.1 /\
    MapLen (run_loc exm2) h2 = MapLen (run_loc exm2) exm2.1 /\
    forall k', Load 0 (run_loc exm2) k' h1 = Load 0 (run_loc exm2) k' exm2.1 /\
               Load 0 (run_loc exm2) k' h2 = Load 0 (run_loc exm2) k' exm2.1.
Proof.
  apply (Map_persistence 0 exm2.1 (run_loc exm2) _ 2 1 11 exm2_MapRep). lia.
Defined.

(** X19 (Delete, contents).  [Delete] never panics.  In the map it
    returns the key is absent, and [Load] of every other key finds what
    it found before. *)
Theorem Delete_contents {K V : Type} `{EqDecision K} (zeroV : V)
    (h : list (@obj (option (list (@MapItem K V))))) m (f : K -> option V) n k :
  MapRep h m f n ->
  exists h' m',
    Delete m k h = (h', Ok m') /\
    Load zeroV m' k h' = Ok (zeroV, false) /\
    forall k', k' <> k -> Load zeroV m' k' h' = Load zeroV m k' h.
Proof.
  intros HM.
  destruct (wp_inv _ _ _ (Delete_spec h m f n k HM)) as (m' & h' & Heq & Hp & HM').
  exists h', m'. split_and!; [done| |].
  - rewrite (Load_spec zeroV _ _ _ _ k HM'). unfold upd. by rewrite decide_True.
  - intros k' Hne.
    rewrite (Load_spec zeroV _ _ _ _ k' HM'), (Load_spec zeroV _ _ _ _ k' HM).
    unfold upd. by rewrite decide_False.
Qed.

Lemma Delete_contents_witness :
  exists h' m',
    Delete (run_loc exm2) 1 exm2.1 = (h', Ok m') /\
    Load 0 m' 1 h' = Ok (0, false) /\
    forall k', k' <> 1 -> Load 0 m' k' h' = Load 0 (run_loc exm2) k' exm2.1.
Proof.
  apply (Delete_contents 0 exm2.1 (run_loc exm2) _ 2 1 exm2_MapRep).
Defined.

(** X20 (one bucket).  Since [genericHash] is constant, [pos] is 0 for
    every key of every map: all items of a map are in the first bucket of
    its backing vector. *)
Theorem pos_zero {K V : Type} `{EqDecision K}
    (h : list (@obj (option (list (@MapItem K V))))) m (f : K -> option V) n k :
  MapRep h m f n -> pos m k h = Ok 0.
Proof.
  intros (mp & bs & Hok & Hm & HV & Hbs & _).
  destruct (pos_spec h m mp bs false k Hm HV Hbs) as (i & b & Hpos & Hh & _).
  rewrite Hpos. rewrite <- Hh.
  destruct Hbs as (Hl1 & Hl2 & _).
  unfold hashPos. rewrite to_uint_small by lia.
  rewrite (proj2 (Z.eqb_neq _ 0)) by lia.
  change (genericHash k) with 0. rewrite Z.mod_0_l by lia. reflexivity.
Qed.

Lemma pos_zero_witness : pos (run_loc exm2) 2 exm2.1 = Ok 0.
Proof.
  apply (pos_zero exm2.1 (run_loc exm2) _ 2 2 exm2_MapRep).
Defined.

(** ** The number of buckets *)

Section MAP_COUNT.

Context {K V : Type} `{EqDecision K}.

Local Abbreviation item := (@MapItem K V).
Local Abbreviation mheap := (list (@obj (option (list item)))).

(** [m.backingVector.Len()], as [pos], [Store] and [Delete] compute it. *)
Definition bucketCount (m : loc) : R mheap Z :=
  mp <~ load_map m ;; Len (backingVector mp).

Lemma bucketCount_len sb (h : mheap) m mp (bs : list (option (list item))) :
  h !! m = Some (MapS mp) -> Vec sb h (backingVector mp) bs ->
  bucketCount m h = Ok (Z.of_nat (length bs)).
Proof.
  intros Hm HV. unfold bucketCount.
  rewrite (rbind_ok _ _ h mp) by by apply load_map_ok. by eapply Vec_len.
Qed.

Lemma bucketCount_alloc sb (h : mheap) v n (bs : list (option (list item))) :
  Vec sb h v bs ->
  bucketCount (length h) (h ++ [MapS (mkMap v n)]) = Ok (Z.of_nat (length bs)).
Proof.
  intros HV. eapply bucketCount_len; [apply lookup_alloc_new|].
  simpl. eapply Vec_heap_mono; [|exact HV]. by apply prefix_app_r.
Qed.

Lemma bucketCount_mono (h h' : mheap) m (f : K -> option V) n nb :
  MapRep h m f n -> h `prefix_of` h' ->
  bucketCount m h = Ok nb -> bucketCount m h' = Ok nb.
Proof.
  intros (mp & bs & Hok & Hm & HV & _) Hp Hnb.
  rewrite (bucketCount_len _ _ _ _ _ Hm HV) in Hnb. rewrite <- Hnb.
  eapply bucketCount_len; [by eapply lookup_ext|by eapply Vec_heap_mono].
Qed.

(** The maps [newMap], [Store] and [Delete] build from a set of buckets
    have one bucket in the backing vector for each. *)
Lemma publish_count (h : mheap) (b : @privateItemBuckets K V) :
  heap_ok h -> BOk b ->
  wp (v <- NewVector (buckets b);; alloc (MapS (mkMap v (length_ b)))) h
    (fun m' h' => bucketCount m' h' = Ok (Z.of_nat (length (buckets b)))).
Proof.
  intros Hok [Hbs Hcnt]. pose proof Hbs as (Hl1 & Hl2 & _).
  apply wp_bind. eapply wp_mono.
  { apply NewVector_spec; [done|lia]. }
  intros v h1 [Hp1 HV]. apply wp_alloc. by eapply bucketCount_alloc.
Qed.

Lemma newMap_count (h : mheap) (items : list item) :
  heap_ok h -> Z.of_nat (length items) < 2 ^ 60 ->
  wp (newMap items) h
    (fun m h' => bucketCount m h' = Ok (Z.of_nat (length items) / 5 + 1)).
Proof.
  intros Hok Hb. unfold newMap.
  destruct (newPrivateItemBuckets_spec (K := K) (V := V) (Z.of_nat (length items))
              ltac:(lia)) as (Hb0 & Hl0 & Hsz & Hemp).
  destruct (AddItems_spec items _ Hb0 ltac:(lia))
    as (b1 & Hadd & Hb1 & Hlen1 & Hc1 & _).
  eapply wp_bind_lift; [exact Hadd|].
  eapply wp_mono; [by apply publish_count|].
  intros m h' Hc. cbv beta. rewrite Hc. f_equal. lia.
Qed.

Lemma Store_count (h : mheap) m (f : K -> option V) n nb k v :
  MapRep h m f n -> n + 1 < 2 ^ 60 -> bucketCount m h = Ok nb ->
  wp (Store m k v) h
    (fun m' h' =>
       bucketCount m' h' = Ok (if n >=? nb * 8 then (n + 1) / 5 + 1 else nb)).
Proof.
  intros HM Hn1 Hnb.
  pose proof HM as (mp & bs & Hok & Hm & HV & Hbs & Hn & Hcnt & Hb & Hf).
  pose proof Hbs as (Hl1 & Hl2 & Hoks).
  rewrite (bucketCount_len _ _ _ _ _ Hm HV) in Hnb. injection Hnb as <-.
  unfold Store.
  eapply wp_bind_lift; [by apply load_map_ok|].
  eapply wp_bind_lift; [by eapply MapLen_spec|].
  eapply wp_bind_lift; [by eapply Vec_len|].
  unfold upperMapLoadFactor. rewrite imul_small by lia.
  destruct (n >=? Z.of_nat (length bs) * 8) eqn:Egrow.
  - rewrite iadd_small by lia.
    destruct (newPrivateItemBuckets_spec (K := K) (V := V) (n + 1) ltac:(lia))
      as (Hb0 & Hl0 & Hsz & Hemp).
    destruct (AddItemsFromMap_spec h m f n _ HM Hb0 Hl0 Hemp)
      as (b1 & Hadd & Hb1 & Hlen1 & Hc1 & Hlk1).
    eapply wp_bind_lift; [exact Hadd|].
    destruct (AddItem_spec b1 (mkMapItem k v) Hb1 ltac:(lia))
      as (b2 & Hadd2 & Hb2 & Hlen2 & Hlk2 & Hc2).
    eapply wp_bind_lift; [exact Hadd2|].
    eapply wp_mono; [by apply publish_count|].
    intros m' h' Hc. cbv beta. rewrite Hc. f_equal. lia.
  - destruct (pos_spec h m mp bs false k Hm HV Hbs) as (i & b & Hpos & Hi & Hbi & Hlk & Hget).
    apply lookup_lt_Some in Hbi as Hlt.
    eapply wp_bind_lift; [exact Hpos|].
    eapply wp_bind_lift; [exact Hget|].
    assert (forall (b' : option (list item)) n',
      wp (v0 <- Set_ None (backingVector mp) (Z.of_nat i) b';;
          alloc (MapS (mkMap v0 n'))) h
        (fun m' h' => bucketCount m' h' = Ok (Z.of_nat (length bs)))) as Hgen.
    { intros b' n'. apply wp_bind. eapply wp_mono.
      { apply (Set_spec None false h (backingVector mp) bs (Z.of_nat i)); [done|lia]. }
      intros v0 h1 [Hp1 HV1]. apply wp_alloc.
      rewrite (bucketCount_alloc _ _ _ _ _ HV1). by rewrite length_insert. }
    destruct b as [items|]; [destruct (keyIndex k items)|]; apply Hgen.
Qed.

Lemma Delete_count (h : mheap) m (f : K -> option V) n nb k :
  MapRep h m f n -> bucketCount m h = Ok nb ->
  wp (Delete m k) h
    (fun m' h' =>
       bucketCount m' h' =
       Ok (if found (f k) && ((nb >? 1) && (n - 1 <? nb * 2))
           then (n - 1) / 5 + 1 else nb)).
Proof.
  intros HM Hnb.
  destruct (f k) as [v|] eqn:Efk.
  2:{ eapply wp_intro; [by eapply Delete_absent|]. done. }
  pose proof HM as (mp & bs & Hok & Hm & HV & Hbs & Hn & Hcnt & Hb & Hf).
  pose proof Hbs as (Hl1 & Hl2 & Hoks).
  rewrite (bucketCount_len _ _ _ _ _ Hm HV) in Hnb. injection Hnb as <-.
  destruct (pos_spec h m mp bs false k Hm HV Hbs) as (i & b & Hpos & Hi & Hbi & Hlk & Hget).
  apply lookup_lt_Some in Hbi as Hlt.
  destruct (Hoks i b Hbi) as [Hnd Hpl].
  pose proof (all_items_bucket_le bs i b Hbi) as Hble.
  rewrite Hf, Hlk in Efk.
  unfold Delete.
  eapply wp_bind_lift; [by apply load_map_ok|].
  eapply wp_bind_lift; [exact Hpos|].
  eapply wp_bind_lift; [exact Hget|].
  destruct b as [items|]; [|done]. simpl in *.
  set (kept := filter (fun it : item => Key it <> k) items).
  pose proof (filter_length k items Hnd) as Hfl. fold kept in Hfl.
  rewrite Efk in Hfl.
  rewrite !(isub_small (Z.of_nat (length items))) by lia. rewrite !Hfl. simpl.
  set (newBucket := if Z.of_nat (length kept) =? 0 then None else Some kept).
  assert (bucketItems newBucket = kept) as HnB.
  { unfold newBucket. destruct (Z.of_nat (length kept) =? 0) eqn:E0; [|done].
    apply Z.eqb_eq in E0. destruct kept; [done|simpl in E0; lia]. }
  apply wp_bind. eapply wp_mono.
  { apply (Set_spec None false h (backingVector mp) bs (Z.of_nat i)); [done|lia]. }
  intros v0 h1 [Hp1 HV1]. rewrite Nat2Z.id in HV1.
  assert (bucket_ok (Z.of_nat (length bs)) i newBucket) as Hbok.
  { unfold bucket_ok. rewrite HnB. split; [by apply filter_keys_NoDup|].
    intros x Hx. apply Hpl. by apply list_elem_of_filter in Hx as [_ Hx]. }
  rewrite isub_small by lia.
  assert (forall k', loadBucket k' (bucketItems newBucket) =
            if decide (k' = k) then None
            else loadBucket k' (bucketItems (Some items))) as Hload.
  { intros k'. rewrite HnB. simpl. apply loadBucket_filter. }
  assert (n - 1 = Z.of_nat (length (all_items bs))
                  - Z.of_nat (length (bucketItems (Some items)))
                  + Z.of_nat (length (bucketItems newBucket))) as Hn1
    by (rewrite HnB; simpl; lia).
  pose proof (set_bucket_rep h h1 v0 bs i (Some items) newBucket k None (n - 1)
                Hok Hp1 Hbs Hbi Hi Hbok Hload Hn1 ltac:(lia) HV1) as HR0.
  assert (MapRep (h1 ++ [MapS (mkMap v0 (mlen mp - 1))]) (length h1)
            (upd f k None) (n - 1)) as HR.
  { rewrite Hn. eapply MapRep_ext; [| |exact HR0]; [|done].
    intros k'. unfold upd. destruct (decide _); [done|by rewrite Hf]. }
  apply wp_bind_alloc.
  assert (h `prefix_of` h1 ++ [MapS (mkMap v0 (mlen mp - 1))]) as Hp2.
  { etrans; [exact Hp1|]. by apply prefix_app_r. }
  eapply wp_bind_lift.
  { eapply Vec_len. eapply Vec_heap_mono with (h := h1); [by apply prefix_app_r|done]. }
  eapply wp_bind_lift; [by eapply MapLen_spec|].
  rewrite length_insert. unfold lowerMapLoadFactor. rewrite imul_small by lia.
  destruct ((Z.of_nat (length bs) >? 1) && (n - 1 <? Z.of_nat (length bs) * 2)) eqn:Eshrink.
  - assert (1 <= n).
    { rewrite Hcnt. assert (1 <= length items)%nat; [|lia].
      destruct items; [done|simpl; lia]. }
    destruct (newPrivateItemBuckets_spec (K := K) (V := V) (n - 1) ltac:(lia))
      as (Hb0 & Hl0 & Hsz & Hemp).
    destruct (AddItemsFromMap_spec _ _ _ _ _ HR Hb0 Hl0 Hemp)
      as (b1 & Hadd & Hb1 & Hlen1 & Hc1 & Hlk1).
    eapply wp_bind_lift; [exact Hadd|].
    eapply wp_mono.
    { apply publish_count; [|done]. eapply heap_ok_mono; [exact Hp2|done]. }
    intros m' h' Hc. cbv beta. rewrite Hc. f_equal. lia.
  - apply wp_ret.
    rewrite (bucketCount_alloc _ _ _ _ _ HV1). by rewrite length_insert.
Qed.

End MAP_COUNT.

(** X21 (Store, resizing).  [Store] rebuilds the map when its length has
    reached 8 times the number of buckets: the new map then has
    (length + 1) / 5 + 1 buckets.  Otherwise the new map has as many
    buckets as the old one. *)
Theorem Store_resize {K V : Type} `{EqDecision K}
    (h : list (@obj (option (list (@MapItem K V))))) m (f : K -> option V) n k v :
  MapRep h m f n -> n + 1 < 2 ^ 60 ->
  exists nb h' m',
    bucketCount m h = Ok nb /\ 1 <= nb /\
    Store m k v h = (h', Ok m') /\
    bucketCount m' h' = Ok (if n >=? nb * 8 then (n + 1) / 5 + 1 else nb) /\
    bucketCount m h' = Ok nb.
Proof.
  intros HM Hb.
  pose proof HM as (mp & bs & Hok & Hm & HV & Hbs & _).
  pose proof (bucketCount_len _ _ _ _ _ Hm HV) as Hnb.
  destruct Hbs as (Hl1 & _).
  destruct (wp_inv _ _ _ (Store_count h m f n _ k v HM Hb Hnb)) as (m' & h' & Heq & Hc).
  destruct (wp_inv _ _ _ (Store_spec h m f n k v HM Hb)) as (m1 & h1 & Heq1 & Hp & _).
  rewrite Heq in Heq1. injection Heq1 as <- <-.
  exists (Z.of_nat (length bs)), h', m'. split_and!; [done|lia|done|done|].
  by eapply bucketCount_mono.
Qed.

Lemma Store_resize_witness :
  exists nb h' m',
    bucketCount (run_loc exm2) exm2.1 = Ok nb /\ 1 <= nb /\
    Store (run_loc exm2) 3 30 exm2.1 = (h', Ok m') /\
    bucketCount m' h' = Ok (if 2 >=? nb * 8 then (2 + 1) / 5 + 1 else nb) /\
    bucketCount (run_loc exm2) h' = Ok nb.
Proof.
  apply (Store_resize exm2.1 (run_loc exm2) _ 2 3 30 exm2_MapRep). lia.
Defined.

(** X22 (Delete, resizing).  [Delete] of a key the map holds rebuilds
    the map when it has more than one bucket and the new length is below
    twice the number of buckets: the new map then has (new length) / 5 + 1
    buckets.  Otherwise, and when the key is absent, the number of buckets
    stays. *)
Theorem Delete_resize {K V : Type} `{EqDecision K}
    (h : list (@obj (option (list (@MapItem K V))))) m (f : K -> option V) n k :
  MapRep h m f n ->
  exists nb h' m',
    bucketCount m h = Ok nb /\
    Delete m k h = (h', Ok m') /\
    bucketCount m' h' =
      Ok (if found (f k) && ((nb >? 1) && (n - 1 <? nb * 2))
          then (n - 1) / 5 + 1 else nb).
Proof.
  intros HM.
  pose proof HM as (mp & bs & Hok & Hm & HV & Hbs & _).
  pose proof (bucketCount_len _ _ _ _ _ Hm HV) as Hnb.
  destruct (wp_inv _ _ _ (Delete_count h m f n _ k HM Hnb)) as (m' & h' & Heq & Hc).
  by exists (Z.of_nat (length bs)), h', m'.
Qed.

Lemma Delete_resize_witness :
  exists nb h' m',
    bucketCount (run_loc exm2) exm2.1 = Ok nb /\
    Delete (run_loc exm2) 1 exm2.1 = (h', Ok m') /\
    bucketCount m' h' =
      Ok (if found (loadBucket 1 [mkMapItem 1 10; mkMapItem 2 20])
             && ((nb >? 1) && (2 - 1 <? nb * 2))
          then (2 - 1) / 5 + 1 else nb).
Proof.
  apply (Delete_resize exm2.1 (run_loc exm2) _ 2 1 exm2_MapRep).
Defined.

(** X23 (load factor).  Every map reachable through [NewMap],
    [NewMapFromNativeMap], [Store] and [Delete] has at least one bucket
    and holds at most 8 items per bucket. *)
Theorem load_factor_invariant {K V : Type} `{EqDecision K}
    (h : list (@obj (option (list (@MapItem K V))))) m :
  Reach h m ->
  exists n nb,
    MapLen m h = Ok n /\ bucketCount m h = Ok nb /\
    1 <= nb /\ 0 <= n <= 8 * nb.
Proof.
  intros HR.
  assert (exists f n nb, MapRep h m f n /\ bucketCount m h = Ok nb /\
                         1 <= nb /\ 0 <= n <= 8 * nb) as (f & n & nb & HM & Hnb & H1 & H8).
  { induction HR as [h items h' m Hok Hb Heq|h nm h' m Hok Hb Heq
                    |h m k v h' m' _ IH Hn Heq|h m k h' m' _ IH Heq|h m h' _ IH Hp].
    - unfold NewMap in Heq.
      destruct (wp_inv _ _ _ (newMap_spec h items Hok Hb))
        as (m1 & h1 & Heq1 & _ & f & n & HM & Hn & _).
      destruct (wp_inv _ _ _ (newMap_count h items Hok Hb)) as (m2 & h2 & Heq2 & Hc).
      rewrite Heq in Heq1, Heq2. injection Heq1 as <- <-. injection Heq2 as <- <-.
      exists f, n, (Z.of_nat (length items) / 5 + 1).
      pose proof (Z.div_mod (Z.of_nat (length items)) 5 ltac:(lia)).
      pose proof (Z.mod_pos_bound (Z.of_nat (length items)) 5 ltac:(lia)).
      split_and!; try done; lia.
    - assert (NewMapFromNativeMap nm = newMap (map (fun kv => mkMapItem kv.1 kv.2) nm))
        as Hnew by (unfold NewMapFromNativeMap, newMap; by rewrite length_map).
      rewrite Hnew in Heq.
      assert (Z.of_nat (length (map (fun kv : K * V => mkMapItem kv.1 kv.2) nm)) < 2 ^ 60)
        as Hb' by by rewrite length_map.
      destruct (wp_inv _ _ _ (newMap_spec h _ Hok Hb'))
        as (m1 & h1 & Heq1 & _ & f & n & HM & Hn & _).
      destruct (wp_inv _ _ _ (newMap_count h _ Hok Hb')) as (m2 & h2 & Heq2 & Hc).
      rewrite Heq in Heq1, Heq2. injection Heq1 as <- <-. injection Heq2 as <- <-.
      rewrite length_map in Hn, Hc.
      exists f, n, (Z.of_nat (length nm) / 5 + 1).
      pose proof (Z.div_mod (Z.of_nat (length nm)) 5 ltac:(lia)).
      pose proof (Z.mod_pos_bound (Z.of_nat (length nm)) 5 ltac:(lia)).
      split_and!; try done; lia.
    - destruct IH as (f & n & nb & HM & Hnb & H1 & H8).
      pose proof (Hn n (MapLen_spec _ _ _ _ HM)) as Hb.
      destruct (wp_inv _ _ _ (Store_spec h m f n k v HM Hb))
        as (m1 & h1 & Heq1 & _ & HM1).
      destruct (wp_inv _ _ _ (Store_count h m f n nb k v HM Hb Hnb))
        as (m2 & h2 & Heq2 & Hc).
      rewrite Heq in Heq1, Heq2. injection Heq1 as <- <-. injection Heq2 as <- <-.
      eexists _, _, _. split; [exact HM1|]. split; [exact Hc|].
      pose proof (Z.div_mod (n + 1) 5 ltac:(lia)).
      pose proof (Z.mod_pos_bound (n + 1) 5 ltac:(lia)).
      destruct (n >=? nb * 8) eqn:E.
      + destruct (found (f k)); lia.
      + rewrite Z.geb_leb in E. apply Z.leb_gt in E. destruct (found (f k)); lia.
    - destruct IH as (f & n & nb & HM & Hnb & H1 & H8).
      destruct (wp_inv _ _ _ (Delete_spec h m f n k HM))
        as (m1 & h1 & Heq1 & _ & HM1).
      destruct (wp_inv _ _ _ (Delete_count h m f n nb k HM Hnb))
        as (m2 & h2 & Heq2 & Hc).
      rewrite Heq in Heq1, Heq2. injection Heq1 as <- <-. injection Heq2 as <- <-.
      assert (0 <= n - (if found (f k) then 1 else 0)) as Hn0.
      { destruct HM1 as (? & ? & _ & _ & _ & _ & _ & Hcnt & _). lia. }
      eexists _, _, _. split; [exact HM1|]. split; [exact Hc|].
      pose proof (Z.div_mod (n - 1) 5 ltac:(lia)).
      destruct (found (f k)); simpl in *; [|lia].
      pose proof (Z.mod_pos_bound (n - 1) 5 ltac:(lia)).
      destruct ((nb >? 1) && (n - 1 <? nb * 2)); lia.
    - destruct IH as (f & n & nb & HM & Hnb & H1 & H8).
      exists f, n, nb. split_and!; try lia.
      + by eapply MapRep_heap_mono.
      + by eapply bucketCount_mono. }
  exists n, nb. split_and!; try lia; [by eapply MapLen_spec|done].
Qed.

Lemma load_factor_invariant_witness :
  exists n nb,
    MapLen (run_loc exm0) exm0.1 = Ok n /\ bucketCount (run_loc exm0) exm0.1 = Ok nb /\
    1 <= nb /\ 0 <= n <= 8 * nb.
Proof.
  apply (load_factor_invariant exm0.1 (run_loc exm0)).
  apply (Reach_NewMap init_heap [] exm0.1 (run_loc exm0)).
  - reflexivity.
  - simpl. lia.
  - reflexivity.
Defined.

(** ** No operation changes an object *)

Section GROWS.

Context {H0 : Type}.

(** [grows c]: from every heap, [c] ends, by a return or by a panic, in an
    extension of that heap: objects are added, none is changed. *)
Definition grows {A} (c : M (list H0) A) : Prop := forall h, h `prefix_of` (c h).1.

Lemma grows_ret {A} (a : A) : grows (mret a : M (list H0) A).
Proof. intros h. done. Qed.

Lemma grows_panic {A} e : grows (mpanic e : M (list H0) A).
Proof. intros h. done. Qed.

Lemma grows_lift {A} (c : R (list H0) A) : grows (lift c).
Proof. intros h. done. Qed.

Lemma grows_bind {A B} (c : M (list H0) A) (k : A -> M (list H0) B) :
  grows c -> (forall a, grows (k a)) -> grows (mbind c k).
Proof.
  intros Hc Hk h. unfold mbind. specialize (Hc h).
  destruct (c h) as [h' [a|e]]; simpl in *; [|done].
  etrans; [exact Hc|apply Hk].
Qed.

End GROWS.

Section GROWS_OPS.

Context {T : Type}.
Variable zeroT : T.

Lemma grows_alloc (o : @obj T) : grows (alloc o).
Proof. intros h. by apply prefix_app_r. Qed.

Lemma grows_Set_ p i x : grows (Set_ zeroT p i x).
Proof. intros h. apply Set_frame. Qed.

Lemma grows_Append p (items : list T) : grows (Append p items).
Proof. intros h. apply Append_frame. Qed.

Lemma grows_NewVector (items : list T) : grows (NewVector items).
Proof.
  unfold NewVector. apply grows_bind; [apply grows_alloc|intros t].
  apply grows_bind; [apply grows_alloc|intros v]. apply grows_Append.
Qed.

Lemma grows_Slice p a b : grows (Slice (T := T) p a b).
Proof.
  unfold Slice. apply grows_bind; [apply grows_lift|intros l].
  apply grows_bind; [apply grows_lift|intros _]. apply grows_alloc.
Qed.

Lemma grows_NewVectorSlice (items : list T) : grows (NewVectorSlice items).
Proof.
  unfold NewVectorSlice. apply grows_bind; [apply grows_NewVector|intros v].
  apply grows_alloc.
Qed.

Lemma grows_SliceSet s i x : grows (SliceSet zeroT s i x).
Proof.
  unfold SliceSet. apply grows_bind; [apply grows_lift|intros sl].
  destruct (_ || _); [apply grows_panic|].
  apply grows_bind; [apply grows_Set_|intros v]. apply grows_Slice.
Qed.

Lemma grows_SliceSlice s a b : grows (SliceSlice (T := T) s a b).
Proof.
  unfold SliceSlice. apply grows_bind; [apply grows_lift|intros sl].
  apply grows_bind; [apply grows_lift|intros _]. apply grows_alloc.
Qed.

Lemma grows_SliceAppend_loop fuel s (items : list T) :
  forall itemPos vec, grows (SliceAppend_loop zeroT fuel s items itemPos vec).
Proof.
  induction fuel as [|fuel IH]; intros itemPos vec; simpl.
  - apply grows_bind; [apply grows_lift|intros sl].
    apply grows_bind; [apply grows_lift|intros l].
    destruct (_ && _); [apply grows_panic|apply grows_ret].
  - apply grows_bind; [apply grows_lift|intros sl].
    apply grows_bind; [apply grows_lift|intros l].
    destruct (_ && _); [|apply grows_ret].
    apply grows_bind; [apply grows_lift|intros x].
    apply grows_bind; [apply grows_Set_|intros vec']. apply IH.
Qed.

Lemma grows_SliceAppend s (items : list T) : grows (SliceAppend zeroT s items).
Proof.
  unfold SliceAppend. apply grows_bind; [apply grows_lift|intros sl].
  apply grows_bind; [apply grows_SliceAppend_loop|intros [itemPos vec]].
  apply grows_bind; [apply grows_lift|intros rest].
  apply grows_bind; [apply grows_Append|intros vec']. apply grows_alloc.
Qed.

End GROWS_OPS.

(** X24 (vectors and slices: nothing is overwritten).  Whether they
    return or panic, the operations that make a vector or a slice end in
    a heap that extends the heap they started in: every vector, slice and
    array that existed before the call is as it was. *)
Theorem vector_ops_grow {T : Type} (zeroT : T) (h : list (@obj T)) p s i x a b
    (items : list T) :
  h `prefix_of` (NewVector items h).1 /\
  h `prefix_of` (Append p items h).1 /\
  h `prefix_of` (Set_ zeroT p i x h).1 /\
  h `prefix_of` (Slice p a b h).1 /\
  h `prefix_of` (NewVectorSlice items h).1 /\
  h `prefix_of` (SliceSet zeroT s i x h).1 /\
  h `prefix_of` (SliceAppend zeroT s items h).1 /\
  h `prefix_of` (SliceSlice s a b h).1.
Proof.
  split_and!.
  - apply grows_NewVector.
  - apply grows_Append.
  - apply grows_Set_.
  - apply grows_Slice.
  - apply grows_NewVectorSlice.
  - apply grows_SliceSet.
  - apply grows_SliceAppend.
  - apply grows_SliceSlice.
Qed.

Section GROWS_MAP.

Context {K V : Type} `{EqDecision K}.

Lemma grows_newMap (items : list (@MapItem K V)) : grows (newMap items).
Proof.
  unfold newMap. apply grows_bind; [apply grows_lift|intros b].
  apply grows_bind; [apply grows_NewVector|intros v]. apply grows_alloc.
Qed.

Lemma grows_NewMapFromNativeMap (nm : list (K * V)) : grows (NewMapFromNativeMap nm).
Proof.
  unfold NewMapFromNativeMap. apply grows_bind; [apply grows_lift|intros b].
  apply grows_bind; [apply grows_NewVector|intros v]. apply grows_alloc.
Qed.

Lemma grows_Store m (k : K) (v : V) : grows (Store m k v).
Proof.
  unfold Store. apply grows_bind; [apply grows_lift|intros mp].
  apply grows_bind; [apply grows_lift|intros mlen_].
  apply grows_bind; [apply grows_lift|intros vlen].
  destruct (_ >=? _).
  - apply grows_bind; [apply grows_lift|intros b1].
    apply grows_bind; [apply grows_lift|intros b2].
    apply grows_bind; [apply grows_NewVector|intros v0]. apply grows_alloc.
  - apply grows_bind; [apply grows_lift|intros ps].
    apply grows_bind; [apply grows_lift|intros bucket].
    destruct bucket as [items|]; [destruct (keyIndex k items)|];
      (apply grows_bind; [apply grows_Set_|intros v0]; apply grows_alloc).
Qed.

Lemma grows_Delete m (k : K) : grows (Delete (V := V) m k).
Proof.
  unfold Delete. apply grows_bind; [apply grows_lift|intros mp].
  apply grows_bind; [apply grows_lift|intros ps].
  apply grows_bind; [apply grows_lift|intros bucket].
  destruct bucket as [items|]; [|apply grows_ret].
  destruct (_ =? 0); [apply grows_ret|].
  apply grows_bind; [apply grows_Set_|intros v0].
  apply grows_bind; [apply grows_alloc|intros newMap_].
  apply grows_bind; [apply grows_lift|intros vlen].
  apply grows_bind; [apply grows_lift|intros nlen].
  destruct (_ && _); [|apply grows_ret].
  apply grows_bind; [apply grows_lift|intros b].
  apply grows_bind; [apply grows_NewVector|intros v']. apply grows_alloc.
Qed.

End GROWS_MAP.

(** X25 (maps: nothing is overwritten).  Whether they return or panic,
    [NewMap], [NewMapFromNativeMap], [Store] and [Delete] end in a heap
    that extends the heap they started in: every map that existed before
    the call, with its backing vector, is as it was. *)
Theorem map_ops_grow {K V : Type} `{EqDecision K}
    (h : list (@obj (option (list (@MapItem K V))))) m (k : K) (v : V) items nm :
  h `prefix_of` (NewMap items h).1 /\
  h `prefix_of` (NewMapFromNativeMap nm h).1 /\
  h `prefix_of` (Store m k v h).1 /\
  h `prefix_of` (Delete m k h).1.
Proof.
  split_and!.
  - apply grows_newMap.
  - apply grows_NewMapFromNativeMap.
  - apply grows_Store.
  - apply grows_Delete.
Qed.
